(** * Binary Indexed Tree (Fenwick tree): the two C++ variants of the repository

    [BIT1]    embeds  binary_indexed_tree/BIT_1.cpp          (class BinaryIndexedTree)
    [Compact] embeds  binary_indexed_tree/BIT_2_compact_1.cpp (class BinaryIndexedTree_Compact)

    Conventions of the embedding
    - a C++ [int] is a [Z] in the range [-2^31, 2^31); every arithmetic
      operator of the source is followed by [Int32.wrap] (two's complement
      wrap-around, the behaviour of the usual targets);
    - a [vector<int>] is a [list Z]; [v[i]] outside [0, size) is undefined
      behaviour in C++ and is the outcome [Fault] here;
    - member functions are computations in a state-and-error monad over the
      object; every loop takes a [fuel] that bounds the number of times its
      body may run, a loop that wants to run once more gives [Timeout]. *)

From stdpp Require Import base list strings.
From Stdlib Require Import ZArith Lia DecimalString.

Local Open Scope Z_scope.

(** ** 32-bit signed integers *)

Module Int32.

Definition min_int : Z := - 2 ^ 31.
Definition max_int : Z := 2 ^ 31 - 1.

Definition in_range (z : Z) : Prop := min_int <= z <= max_int.

(** Reduction of a mathematical integer to its 32-bit two's complement
    representative. *)
Definition wrap (z : Z) : Z := (z + 2 ^ 31) mod 2 ^ 32 - 2 ^ 31.

Definition add (a b : Z) : Z := wrap (a + b).
Definition sub (a b : Z) : Z := wrap (a - b).
Definition neg (a : Z) : Z := wrap (- a).

(** [&] on two's complement integers is [Z.land]: it needs no reduction. *)
Definition and (a b : Z) : Z := Z.land a b.

(** Conversion of an [int] to [size_t] (64 bits), as happens when an [int]
    is compared with [vector::size()] or used as a vector index. *)
Definition to_size_t (a : Z) : Z := a mod 2 ^ 64.

(** Conversion of a [size_t] to [int]. *)
Definition of_size_t (n : nat) : Z := wrap (Z.of_nat n).

End Int32.

(** ** Outcomes and the state-and-error monad *)

Inductive result (A : Type) : Type :=
  | Done (a : A)    (* the call returned *)
  | Fault           (* a vector was indexed outside its bounds, or could
                       not be resized *)
  | Timeout.        (* a loop body was due to run with no fuel left *)

Arguments Done {A} a.
Arguments Fault {A}.
Arguments Timeout {A}.

Definition M (S A : Type) : Type := S -> result (A * S).

Definition ret {S A : Type} (a : A) : M S A := fun s => Done (a, s).

Definition bind {S A B : Type} (m : M S A) (k : A -> M S B) : M S B :=
  fun s =>
    match m s with
    | Done (a, s') => k a s'
    | Fault => Fault
    | Timeout => Timeout
    end.

Definition timeout {S A : Type} : M S A := fun _ => Timeout.
Definition fault {S A : Type} : M S A := fun _ => Fault.
Definition get {S : Type} : M S S := fun s => Done (s, s).
Definition put {S : Type} (s : S) : M S unit := fun _ => Done (tt, s).

Notation "'let*' x ':=' c1 'in' c2" := (bind c1 (fun x => c2))
  (at level 10, x name, c1 at level 100, c2 at level 200).
Notation "c1 ';;' c2" := (bind c1 (fun _ => c2))
  (at level 100, c2 at level 200, right associativity, only parsing).

(** ** [vector<int>] *)

(** [v[idx]] read through an [int] index. *)
Definition vec_get (v : list Z) (idx : Z) : option Z :=
  if 0 <=? idx then v !! Z.to_nat idx else None.

(** [v[idx] = x] through an [int] index. *)
Definition vec_set (v : list Z) (idx : Z) (x : Z) : option (list Z) :=
  if (0 <=? idx) && (idx <? Z.of_nat (length v))
  then Some (<[Z.to_nat idx := x]> v) else None.

(** [v.resize(n, x)]: keeps the first [n] elements and pads with [x]. *)
Definition vec_resize (n : nat) (x : Z) (v : list Z) : list Z :=
  take n v ++ replicate (n - length v)%nat x.

(** ** BIT_1.cpp *)

Module BIT1.

Record BinaryIndexedTree : Type := {
  _size : Z;
  _bitArray : list Z
}.

(** The constructor: [_size(0), _bitArray(0)]. *)
Definition new : BinaryIndexedTree := {| _size := 0; _bitArray := [] |}.

Definition getPrev (idx : Z) : Z :=
  Int32.sub idx (Int32.and idx (Int32.neg idx)).

Definition getNext (idx : Z) : Z :=
  Int32.add idx (Int32.and idx (Int32.neg idx)).

(** [_bitArray[idx]] as an rvalue and [_bitArray[idx] = x]. *)
Definition read (idx : Z) : M BinaryIndexedTree Z :=
  fun t =>
    match vec_get (_bitArray t) idx with
    | Some x => Done (x, t)
    | None => Fault
    end.

Definition write (idx x : Z) : M BinaryIndexedTree unit :=
  fun t =>
    match vec_set (_bitArray t) idx x with
    | Some v => Done (tt, {| _size := _size t; _bitArray := v |})
    | None => Fault
    end.

Definition size : M BinaryIndexedTree Z := fun t => Done (_size t, t).

(** [while (idx < _size) { _bitArray[idx] += value; idx = getNext(idx); }] *)
Fixpoint updateTree (fuel : nat) (idx value : Z) {struct fuel}
  : M BinaryIndexedTree unit :=
  let* n := size in
  if idx <? n then
    match fuel with
    | O => timeout
    | S fuel' =>
        let* x := read idx in
        write idx (Int32.add x value) ;;
        updateTree fuel' (getNext idx) value
    end
  else ret tt.

(** The loop of [createFenwickTree]:
    [for (int idx = 1; idx < input.size(); ++idx) updateTree(idx, input[idx]);] *)
Fixpoint createFenwickTree_loop (fuel : nat) (input : list Z) (idx : Z)
  {struct fuel} : M BinaryIndexedTree unit :=
  if Int32.to_size_t idx <? Z.of_nat (length input) then
    match fuel with
    | O => timeout
    | S fuel' =>
        match vec_get input idx with
        | Some x =>
            updateTree fuel idx x ;;
            createFenwickTree_loop fuel' input (Int32.add idx 1)
        | None => fault
        end
    end
  else ret tt.

Definition createFenwickTree (fuel : nat) (input : list Z)
  : M BinaryIndexedTree unit :=
  let* t := get in
  let n := Int32.of_size_t (length input) in
  (* a negative [int] converts to a [size_t] no vector can hold *)
  if n <? 0 then fault else
  put {| _size := n; _bitArray := vec_resize (Z.to_nat n) 0 (_bitArray t) |} ;;
  createFenwickTree_loop fuel input 1.

(** [while (idx > 0) { sum += _bitArray[idx]; idx = getPrev(idx); }] *)
Fixpoint getPrefixSum_loop (fuel : nat) (idx sum : Z) {struct fuel}
  : M BinaryIndexedTree Z :=
  if idx >? 0 then
    match fuel with
    | O => timeout
    | S fuel' =>
        let* x := read idx in
        getPrefixSum_loop fuel' (getPrev idx) (Int32.add sum x)
    end
  else ret sum.

Definition getPrefixSum (fuel : nat) (idx : Z) : M BinaryIndexedTree Z :=
  let sum := 0 in
  let* n := size in
  if idx >=? n then ret sum
  else getPrefixSum_loop fuel idx sum.

(** [while (predecessorIdx > ancestorIdx)
      { acc -= _bitArray[predecessorIdx]; predecessorIdx = getPrev(predecessorIdx); }]
    The loop closes both [getOriginalValue] and [getSum]. *)
Fixpoint predecessor_loop (fuel : nat) (predecessorIdx ancestorIdx acc : Z)
  {struct fuel} : M BinaryIndexedTree Z :=
  if predecessorIdx >? ancestorIdx then
    match fuel with
    | O => timeout
    | S fuel' =>
        let* x := read predecessorIdx in
        predecessor_loop fuel' (getPrev predecessorIdx) ancestorIdx
                         (Int32.sub acc x)
    end
  else ret acc.

Definition getOriginalValue (fuel : nat) (idx : Z) : M BinaryIndexedTree Z :=
  let value := 0 in
  let* n := size in
  if idx >=? n then ret value
  else
    let* value := read idx in
    let ancesterIdx := getPrev idx in
    let predecessorIdx := Int32.sub idx 1 in
    predecessor_loop fuel predecessorIdx ancesterIdx value.

(** [do { sum += _bitArray[ancestorIdx]; ancestorIdx = getPrev(ancestorIdx); }
    while (ancestorIdx >= startIdx);]   Returns [(sum, ancestorIdx)]. *)
Fixpoint ancestor_loop (fuel : nat) (ancestorIdx startIdx sum : Z)
  {struct fuel} : M BinaryIndexedTree (Z * Z) :=
  match fuel with
  | O => timeout
  | S fuel' =>
      let* x := read ancestorIdx in
      let sum := Int32.add sum x in
      let ancestorIdx := getPrev ancestorIdx in
      if ancestorIdx >=? startIdx
      then ancestor_loop fuel' ancestorIdx startIdx sum
      else ret (sum, ancestorIdx)
  end.

Definition getSum (fuel : nat) (startIdx endIdx : Z) : M BinaryIndexedTree Z :=
  let sum := 0 in
  if startIdx >? endIdx then ret sum
  else
    let* sa := ancestor_loop fuel endIdx startIdx sum in
    let predecessorIdx := Int32.sub startIdx 1 in
    predecessor_loop fuel predecessorIdx (snd sa) (fst sa).

(** [vector<int> ARR = {0, 1, 2, 3, 4, 5};] of [main]. *)
Definition ARR : list Z := [0; 1; 2; 3; 4; 5].

End BIT1.

(** ** BIT_2_compact_1.cpp *)

Module Compact.

Record BinaryIndexedTree_Compact : Type := {
  N : Z;             (* Size of the BIT array *)
  BIT : list Z       (* Elements start at index 1 *)
}.

(** The constructor: [N(0), BIT(0)]. *)
Definition new : BinaryIndexedTree_Compact := {| N := 0; BIT := [] |}.

(** The object together with the log of the indices at which [BIT] has
    been subscripted (most recent first).  The log is not program state:
    it records the accesses so that statements can speak about them. *)
Record machine : Type := {
  self : BinaryIndexedTree_Compact;
  accessed : list Z
}.

Definition start (t : BinaryIndexedTree_Compact) : machine :=
  {| self := t; accessed := [] |}.

Definition init (size : Z) : M machine unit :=
  if size <=? 0 then ret tt
  else
    let* m := get in
    put {| self := {| N := size;
                      BIT := vec_resize (Z.to_nat size) 0 (BIT (self m)) |};
           accessed := accessed m |}.

Definition lowbit (id : Z) : Z := Int32.and id (Int32.neg id).

Definition check (id : Z) : M machine bool :=
  fun m => Done ((1 <=? id) && (id <? N (self m)), m).

(** [BIT[i]] as an rvalue and [BIT[i] = x]; both log the index. *)
Definition read (i : Z) : M machine Z :=
  fun m =>
    match vec_get (BIT (self m)) i with
    | Some x => Done (x, {| self := self m; accessed := i :: accessed m |})
    | None => Fault
    end.

Definition write (i x : Z) : M machine unit :=
  fun m =>
    match vec_set (BIT (self m)) i x with
    | Some v => Done (tt, {| self := {| N := N (self m); BIT := v |};
                             accessed := i :: accessed m |})
    | None => Fault
    end.

(** [for (int i = id; check(i); i += lowbit(i)) BIT[i] += num;] *)
Fixpoint add (fuel : nat) (id num : Z) {struct fuel} : M machine unit :=
  let i := id in
  let* ok := check i in
  if ok : bool then
    match fuel with
    | O => timeout
    | S fuel' =>
        let* x := read i in
        write i (Int32.add x num) ;;
        add fuel' (Int32.add i (lowbit i)) num
    end
  else ret tt.

(** [for (int i = id; check(i); i -= lowbit(i)) ret += BIT[i];] *)
Fixpoint sum_loop (fuel : nat) (i ret_ : Z) {struct fuel} : M machine Z :=
  let* ok := check i in
  if ok : bool then
    match fuel with
    | O => timeout
    | S fuel' =>
        let* x := read i in
        sum_loop fuel' (Int32.sub i (lowbit i)) (Int32.add ret_ x)
    end
  else ret ret_.

Definition sum (fuel : nat) (id : Z) : M machine Z :=
  let ret_ := 0 in
  sum_loop fuel id ret_.

(** [main] creates the structure for [n] elements with [BIT.init(n+1)]. *)
Definition main_init (n : Z) : M machine unit := init (Int32.add n 1).

End Compact.

(** ** Logical elements and the states a structure can reach *)

(** The logical element sequence after one more [update(i, d)]. *)
Definition bump (e : Z -> Z) (i d : Z) : Z -> Z :=
  fun k => if k =? i then Int32.add (e k) d else e k.

(** Sum, in [int] arithmetic, of [e] over [lo+1 .. lo+n]. *)
Fixpoint sum_from (e : Z -> Z) (lo : Z) (n : nat) : Z :=
  match n with
  | O => 0
  | S m => Int32.add (sum_from e lo m) (e (lo + Z.of_nat n))
  end.

(** Sum of [e] over the half-open range [(lo, hi]]. *)
Definition range_sum (e : Z -> Z) (lo hi : Z) : Z :=
  sum_from e lo (Z.to_nat (hi - lo)).

(** [i] lies in the span [(j - lowbit j, j]] that cell [j] aggregates. *)
Definition in_span (i j : Z) : bool :=
  (j - Compact.lowbit j <? i) && (i <=? j).

Module BIT1_reach.
Import BIT1.

(** The object is consistent: [_size] is the length of the vector and
    every cell holds an [int]. *)
Definition well_formed (t : BinaryIndexedTree) : Prop :=
  Z.of_nat (length (_bitArray t)) = _size t /\
  _size t <= Int32.max_int /\
  Forall Int32.in_range (_bitArray t).

(** A structure of capacity [cap] (so [_size = cap + 1], index 0 being the
    dummy) as [createFenwickTree] leaves it after the [resize] on a fresh
    object, followed by any number of updates at valid indices.  The first
    index is the logical element sequence the updates have produced. *)
Inductive built (cap : Z) : (Z -> Z) -> BinaryIndexedTree -> Prop :=
| built_create :
    0 <= cap -> cap + 1 <= Int32.max_int ->
    built cap (fun _ => 0)
          {| _size := cap + 1;
             _bitArray := replicate (Z.to_nat (cap + 1)) 0 |}
| built_update e t fuel i d t' :
    built cap e t ->
    1 <= i <= cap ->
    updateTree fuel i d t = Done (tt, t') ->
    built cap (bump e i d) t'.

End BIT1_reach.

Module Compact_reach.
Import Compact.

(** The object is consistent: [N] is the length of the vector. *)
Definition well_formed (t : BinaryIndexedTree_Compact) : Prop :=
  Z.of_nat (length (BIT t)) = N t /\ N t <= Int32.max_int.

(** A structure for [cap] elements as [main] creates it, with
    [init(cap + 1)] on a fresh object, followed by any number of [add]s at
    valid indices. *)
Inductive built (cap : Z) : (Z -> Z) -> BinaryIndexedTree_Compact -> Prop :=
| built_init m :
    0 <= cap -> cap + 1 <= Int32.max_int ->
    main_init cap (start new) = Done (tt, m) ->
    built cap (fun _ => 0) (self m)
| built_add e t log fuel i d m' :
    built cap e t ->
    1 <= i <= cap ->
    add fuel i d {| self := t; accessed := log |} = Done (tt, m') ->
    built cap (bump e i d) (self m').

End Compact_reach.

(** ** The standard streams *)

(** The characters [ostream << int] inserts. *)
Definition show_int (z : Z) : string := NilZero.string_of_int (Z.to_int z).

Fixpoint spaces (n : nat) : string :=
  match n with
  | O => ""
  | S m => " " +:+ spaces m
  end.

(** [setw(w)] in front of an insertion: the item is padded with spaces on
    the left up to [w] characters; a longer item is inserted whole. *)
Definition setw (w : nat) (s : string) : string :=
  spaces (w - String.length s) +:+ s.

(** The character [endl] inserts. *)
Definition newline : string := String (Ascii.ascii_of_nat 10) "".

(** ** BIT_1.cpp: [printTree], [testForGetSum] and [main] *)

Module BIT1_main.
Import BIT1.

(** The object and what has been inserted into [cout], oldest item first. *)
Record process : Type := {
  bitObj : BinaryIndexedTree;
  cout : list string
}.

(** A member function called on the object. *)
Definition call {A : Type} (m : M BinaryIndexedTree A) : M process A :=
  fun p =>
    match m (bitObj p) with
    | Done (a, t) => Done (a, {| bitObj := t; cout := cout p |})
    | Fault => Fault
    | Timeout => Timeout
    end.

(** [cout << s] and [cout << endl]. *)
Definition cout_item (s : string) : M process unit :=
  fun p => Done (tt, {| bitObj := bitObj p; cout := cout p ++ [s] |}).

Definition cout_endl : M process unit := cout_item newline.

(** [for (int idx = 1; idx < _size; ++idx)
      cout << "    ARR[" << setw(2) << idx << "]: " << setw(4)
           << getOriginalValue(idx) << endl;] *)
Fixpoint printTree_original (fuel : nat) (idx : Z) {struct fuel}
  : M process unit :=
  let* n := call size in
  if idx <? n then
    match fuel with
    | O => timeout
    | S fuel' =>
        cout_item "    ARR[" ;;
        cout_item (setw 2 (show_int idx)) ;;
        cout_item "]: " ;;
        (let* value := call (getOriginalValue fuel idx) in
         cout_item (setw 4 (show_int value))) ;;
        cout_endl ;;
        printTree_original fuel' (Int32.add idx 1)
    end
  else ret tt.

(** [while (prevIdx <= idx) { stringstream ss; ss << prevIdx; string iStr;
      ss >> iStr; sumStr += " + " + iStr; ++prevIdx; }] *)
Fixpoint sumStr_loop (fuel : nat) (prevIdx idx : Z) (sumStr : string)
  {struct fuel} : M process string :=
  if prevIdx <=? idx then
    match fuel with
    | O => timeout
    | S fuel' =>
        let iStr := show_int prevIdx in
        sumStr_loop fuel' (Int32.add prevIdx 1) idx (sumStr +:+ (" + " +:+ iStr))
    end
  else ret sumStr.

(** The second loop of [printTree], one line per cell. *)
Fixpoint printTree_fenwick (fuel : nat) (idx : Z) {struct fuel}
  : M process unit :=
  let* n := call size in
  if idx <? n then
    match fuel with
    | O => timeout
    | S fuel' =>
        let sumStr := "//" in
        let prevIdx := Int32.add (getPrev idx) 1 in
        let* sumStr := sumStr_loop fuel prevIdx idx sumStr in
        cout_item "    BIT[" ;;
        cout_item (setw 2 (show_int idx)) ;;
        cout_item "]: " ;;
        (let* cell := call (read idx) in
         cout_item (setw 4 (show_int cell))) ;;
        cout_item "    " ;;
        cout_item sumStr ;;
        cout_endl ;;
        printTree_fenwick fuel' (Int32.add idx 1)
    end
  else ret tt.

Definition printTree (fuel : nat) : M process unit :=
  cout_item "********** ORIGINAL TREE *********" ;; cout_endl ;;
  printTree_original fuel 1 ;;
  cout_item "********** FENWICK TREE **********" ;; cout_endl ;;
  printTree_fenwick fuel 1 ;;
  cout_item "**********************************" ;; cout_endl.

(** [for (int j = i; j < _size; ++j)
      cout << "    SUM[" << setw(2) << i << ":" << setw(2) << j << "] = "
           << setw(4) << getSum(i, j) << endl;] *)
Fixpoint testForGetSum_inner (fuel : nat) (i j : Z) {struct fuel}
  : M process unit :=
  let* n := call size in
  if j <? n then
    match fuel with
    | O => timeout
    | S fuel' =>
        cout_item "    SUM[" ;;
        cout_item (setw 2 (show_int i)) ;;
        cout_item ":" ;;
        cout_item (setw 2 (show_int j)) ;;
        cout_item "] = " ;;
        (let* sum := call (getSum fuel i j) in
         cout_item (setw 4 (show_int sum))) ;;
        cout_endl ;;
        testForGetSum_inner fuel' i (Int32.add j 1)
    end
  else ret tt.

(** [for (int i = 1; i < _size; ++i) for (int j = i; ...) ...] *)
Fixpoint testForGetSum_outer (fuel : nat) (i : Z) {struct fuel}
  : M process unit :=
  let* n := call size in
  if i <? n then
    match fuel with
    | O => timeout
    | S fuel' =>
        testForGetSum_inner fuel i i ;;
        testForGetSum_outer fuel' (Int32.add i 1)
    end
  else ret tt.

Definition testForGetSum (fuel : nat) : M process unit :=
  cout_item "********** GETSUM - TEST *********" ;; cout_endl ;;
  testForGetSum_outer fuel 1 ;;
  cout_item "**********************************" ;; cout_endl.

(** The process as [main] starts: [BinaryIndexedTree bitObj;], nothing
    printed yet. *)
Definition initial : process := {| bitObj := new; cout := [] |}.

Definition main (fuel : nat) : M process Z :=
  call (createFenwickTree fuel ARR) ;;
  printTree fuel ;;
  testForGetSum fuel ;;
  ret 0.

End BIT1_main.

(** ** BIT_2_compact_1.cpp: [main] *)

Module Compact_main.
Import Compact.

(** What [cin] holds: whitespace-separated items, each either the text of
    an integer or something else. *)
Inductive token : Type :=
  | Int (z : Z)
  | Junk.

(** The object of [main], the rest of the input and what has been inserted
    into [cout], oldest item first. *)
Record process : Type := {
  bit : machine;
  cin : list token;
  cout : list string
}.

Definition call {A : Type} (m : M machine A) : M process A :=
  fun p =>
    match m (bit p) with
    | Done (a, b) => Done (a, {| bit := b; cin := cin p; cout := cout p |})
    | Fault => Fault
    | Timeout => Timeout
    end.

Definition cout_item (s : string) : M process unit :=
  fun p => Done (tt, {| bit := bit p; cin := cin p; cout := cout p ++ [s] |}).

Definition cout_endl : M process unit := cout_item newline.

(** [cin >> x] for an [int x] holding [old] (C++11).  At the end of the
    input the extraction fails and [x] keeps its value.  An integer that
    fits is stored.  One that does not fit stores the nearest bound, and
    anything that is not an integer stores 0; both set the fail bit, after
    which no extraction succeeds: the rest of the input is never read. *)
Definition cin_int (old : Z) : M process Z :=
  fun p =>
    match cin p with
    | [] => Done (old, p)
    | Int z :: rest =>
        if z <? Int32.min_int then
          Done (Int32.min_int, {| bit := bit p; cin := []; cout := cout p |})
        else if Int32.max_int <? z then
          Done (Int32.max_int, {| bit := bit p; cin := []; cout := cout p |})
        else Done (z, {| bit := bit p; cin := rest; cout := cout p |})
    | Junk :: _ =>
        Done (0, {| bit := bit p; cin := []; cout := cout p |})
    end.

(** The [while (1)] of [main]; [ch], [val] and [id] are the variables of
    [main], which keep their values from one round to the next. *)
Fixpoint main_loop (fuel : nat) (ch val id : Z) {struct fuel} : M process Z :=
  match fuel with
  | O => timeout
  | S fuel' =>
      cout_endl ;;
      cout_item "Enter your choice: " ;;
      let* ch := cin_int ch in
      cout_endl ;;
      if ch =? 1 then
        cout_item "  Enter number to add: " ;;
        let* val := cin_int val in
        cout_item "  Enter index: " ;;
        let* id := cin_int id in
        let* ok := call (check id) in
        (if ok : bool then call (add fuel id val)
         else cout_item "  incorrect index given..." ;; cout_endl) ;;
        main_loop fuel' ch val id
      else if ch =? 2 then
        cout_item "  Enter index: " ;;
        let* id := cin_int id in
        let* ok := call (check id) in
        (if ok : bool then
           cout_item "    sum = " ;;
           (let* s := call (sum fuel id) in cout_item (show_int s)) ;;
           cout_endl
         else cout_item "  incorrect index given..." ;; cout_endl) ;;
        main_loop fuel' ch val id
      else ret 0
  end.

(** The process as [main] starts on the input [tokens]. *)
Definition initial (tokens : list token) : process :=
  {| bit := start new; cin := tokens; cout := [] |}.

Definition main (fuel : nat) : M process Z :=
  let n := 0 in
  let ch := 0 in
  let val := 0 in
  let id := 0 in
  cout_item "Enter number of elements: " ;;
  let* n := cin_int n in
  call (main_init n) ;;
  cout_endl ;;
  cout_item "1. Add a number at an index" ;; cout_endl ;;
  cout_item "2. Query sum" ;; cout_endl ;;
  cout_item "3. Quit" ;; cout_endl ;;
  main_loop fuel ch val id.

End Compact_main.

(** ** The example of [main] in BIT_1.cpp *)

(** The object [createFenwickTree(ARR)] produces. *)
Definition tree5 : BIT1.BinaryIndexedTree :=
  {| BIT1._size := 6; BIT1._bitArray := [0; 1; 3; 3; 10; 5] |}.

(** The same five elements in the compact variant, after [init(5 + 1)]. *)
Definition compact5 : Compact.BinaryIndexedTree_Compact :=
  {| Compact.N := 6; Compact.BIT := [0; 1; 3; 3; 10; 5] |}.

(** The logical elements [1, 2, 3, 4, 5], as the five updates produce them. *)
Definition elems5 : Z -> Z :=
  bump (bump (bump (bump (bump (fun _ => 0) 1 1) 2 2) 3 3) 4 4) 5 5.

(** ** Notions used by the proofs *)

(** [lb] is [x & -x] on mathematical integers. *)
Local Notation "'lb' x" := (Z.land x (- x)) (at level 10, x at level 9).

(** Sum of [e] over [lo+1 .. lo+n] in mathematical integers. *)
Fixpoint zsum (e : Z -> Z) (lo : Z) (n : nat) : Z :=
  match n with
  | O => 0
  | S m => zsum e lo m + e (lo + Z.of_nat n)
  end.

Definition zrange (e : Z -> Z) (lo hi : Z) : Z := zsum e lo (Z.to_nat (hi - lo)).

(** [walk v a q z]: stepping down from [q] by the lowest set bit reaches
    exactly [a], and the cells passed on the way (those at indices above
    [a]) add up to [z]. *)
Inductive walk (v : list Z) (a : Z) : Z -> Z -> Prop :=
| walk_here : walk v a a 0
| walk_step q x z :
    a < q -> vec_get v q = Some x -> walk v a (q - lb q) z ->
    walk v a q (x + z).

(** The aggregate invariant: every cell holds the sum of its span. *)
Definition aggregates_ok (e : Z -> Z) (v : list Z) (n : Z) : Prop :=
  forall j, 1 <= j < n ->
    vec_get v j = Some (range_sum e (j - Compact.lowbit j) j).

(** A Hoare triple for the monad: from a state in [P] the computation does
    not fault, and when it returns it returns in [Q]. *)
Definition hoare {S A : Type} (P : S -> Prop) (m : M S A)
    (Q : A -> S -> Prop) : Prop :=
  forall s, P s ->
    m s <> Fault /\ forall a s', m s = Done (a, s') -> Q a s'.

(** The compact objects [main] can hold: the fresh one, or one that [init]
    and valid [add]s have produced. *)
Definition compact_reachable (c : Compact.BinaryIndexedTree_Compact) : Prop :=
  c = Compact.new \/ exists cap e, Compact_reach.built cap e c.

(** The indices [lo+1, ..., hi] in increasing order. *)
Definition indices_between (lo hi : Z) : list Z :=
  map (fun k => lo + Z.of_nat k) (seq 1 (Z.to_nat (hi - lo))).

(** What [printTree] and [testForGetSum] insert for one index or one pair
    of indices of a tree whose logical elements are [e]. *)
Definition original_line (e : Z -> Z) (idx : Z) : list string :=
  ["    ARR["; setw 2 (show_int idx); "]: "; setw 4 (show_int (e idx));
   newline].

Definition span_text (idx : Z) : string :=
  fold_left (fun s k => s +:+ (" + " +:+ show_int k))
            (indices_between (idx - Compact.lowbit idx) idx) "//".

Definition fenwick_line (e : Z -> Z) (idx : Z) : list string :=
  ["    BIT["; setw 2 (show_int idx); "]: ";
   setw 4 (show_int (range_sum e (idx - Compact.lowbit idx) idx));
   "    "; span_text idx; newline].

Definition getsum_line (e : Z -> Z) (i j : Z) : list string :=
  ["    SUM["; setw 2 (show_int i); ":"; setw 2 (show_int j); "] = ";
   setw 4 (show_int (range_sum e (i - 1) j)); newline].

(** * Proofs *)

(** ** 32-bit arithmetic *)

Lemma wrap_small z : Int32.in_range z -> Int32.wrap z = z.
Proof.
  unfold Int32.in_range, Int32.min_int, Int32.max_int, Int32.wrap. intros H.
  rewrite Z.mod_small by lia. lia.
Qed.

Lemma wrap_in_range z : Int32.in_range (Int32.wrap z).
Proof.
  unfold Int32.in_range, Int32.min_int, Int32.max_int, Int32.wrap.
  pose proof (Z.mod_pos_bound (z + 2 ^ 31) (2 ^ 32)). lia.
Qed.

Lemma wrap_add_l a b : Int32.wrap (Int32.wrap a + b) = Int32.wrap (a + b).
Proof.
  unfold Int32.wrap. f_equal.
  replace ((a + 2 ^ 31) mod 2 ^ 32 - 2 ^ 31 + b + 2 ^ 31)
    with ((a + 2 ^ 31) mod 2 ^ 32 + b) by lia.
  rewrite Z.add_mod_idemp_l by lia. f_equal. lia.
Qed.

Lemma wrap_add_r a b : Int32.wrap (a + Int32.wrap b) = Int32.wrap (a + b).
Proof. rewrite Z.add_comm, wrap_add_l. f_equal. lia. Qed.

Lemma wrap_opp a : Int32.wrap (- Int32.wrap a) = Int32.wrap (- a).
Proof.
  unfold Int32.wrap. f_equal.
  replace (- ((a + 2 ^ 31) mod 2 ^ 32 - 2 ^ 31) + 2 ^ 31)
    with (2 ^ 32 - (a + 2 ^ 31) mod 2 ^ 32) by lia.
  rewrite Zminus_mod_idemp_r. f_equal. lia.
Qed.

Lemma wrap_sub_l a b : Int32.wrap (Int32.wrap a - b) = Int32.wrap (a - b).
Proof. unfold Z.sub. apply wrap_add_l. Qed.

Lemma wrap_sub_r a b : Int32.wrap (a - Int32.wrap b) = Int32.wrap (a - b).
Proof.
  unfold Z.sub. rewrite <- wrap_add_r, wrap_opp, wrap_add_r. reflexivity.
Qed.

Lemma wrap_high z :
  2 ^ 31 <= z < 2 ^ 31 + 2 ^ 32 -> Int32.wrap z = z - 2 ^ 32.
Proof.
  intros H. unfold Int32.wrap.
  replace (z + 2 ^ 31) with (z - 2 ^ 31 + 1 * 2 ^ 32) by lia.
  rewrite Z_mod_plus_full, Z.mod_small by lia. lia.
Qed.

(** ** The lowest set bit *)

Lemma land_double a b : Z.land (2 * a) (2 * b) = 2 * Z.land a b.
Proof.
  rewrite !(Z.mul_comm 2), <- !(Z.shiftl_mul_pow2 _ 1) by lia.
  symmetry. apply Z.shiftl_land.
Qed.

Lemma land_odd a b : Z.land (2 * a + 1) (2 * b + 1) = 2 * Z.land a b + 1.
Proof.
  apply Z.bits_inj'. intros n Hn.
  rewrite Z.land_spec.
  destruct (Z.eq_dec n 0) as [->|Hne].
  - rewrite !Z.testbit_odd_0. reflexivity.
  - replace n with (Z.succ (n - 1)) by lia.
    rewrite !Z.testbit_odd_succ by lia. apply eq_sym, Z.land_spec.
Qed.

Lemma lb_double x : lb (2 * x) = 2 * lb x.
Proof. replace (- (2 * x)) with (2 * - x) by lia. apply land_double. Qed.

Lemma lb_odd x : lb (2 * x + 1) = 1.
Proof.
  replace (- (2 * x + 1)) with (2 * Z.lnot x + 1) by (unfold Z.lnot; lia).
  rewrite land_odd, Z.land_lnot_diag. reflexivity.
Qed.

Lemma lb_pow2_mul k q : 0 <= k -> lb (2 ^ k * q) = 2 ^ k * lb q.
Proof.
  intros Hk. revert q. pattern k. apply natlike_ind; [| | exact Hk].
  - intros q. rewrite Z.pow_0_r, !Z.mul_1_l. reflexivity.
  - clear k Hk. intros k Hk IH q.
    rewrite Z.pow_succ_r by lia.
    rewrite <- !Z.mul_assoc, lb_double, IH. reflexivity.
Qed.

(** Every positive integer is an odd multiple of its lowest set bit. *)
Lemma lb_spec x :
  0 < x -> exists k m, 0 <= k /\ 0 <= m /\ x = 2 ^ k * (2 * m + 1) /\ lb x = 2 ^ k.
Proof.
  intros Hx. assert (H0 : 0 <= x) by lia. revert Hx.
  pattern x. apply Z_lt_induction; [| exact H0]. clear x H0.
  intros x IH Hx.
  destruct (Z.even x) eqn:Hev.
  - apply Z.even_spec in Hev as [y ->].
    destruct (IH y) as (k & m & Hk & Hm & Hy & Hl); [lia | lia |].
    exists (Z.succ k), m. rewrite Z.pow_succ_r by lia.
    rewrite lb_double, Hl. repeat split; lia.
  - assert (Hodd : Z.odd x = true) by (rewrite <- Z.negb_even, Hev; reflexivity).
    apply Z.odd_spec in Hodd as [y ->].
    exists 0, y. rewrite lb_odd, Z.pow_0_r. repeat split; lia.
Qed.

Lemma lb_bounds x : 0 < x -> 0 < lb x <= x.
Proof.
  intros Hx. destruct (lb_spec x Hx) as (k & m & Hk & Hm & Hy & ->).
  assert (0 < 2 ^ k) by (apply Z.pow_pos_nonneg; lia). nia.
Qed.

(** Below a multiple of [2^k], the lowest set bit is decided by the
    remainder. *)
Lemma lb_add_small k a r :
  0 <= k -> 0 < r < 2 ^ k -> lb (2 ^ k * a + r) = lb r.
Proof.
  intros Hk. revert a r. pattern k. apply natlike_ind; [| | exact Hk].
  - intros a r. rewrite Z.pow_0_r. lia.
  - clear k Hk. intros k Hk IH a r Hr.
    rewrite Z.pow_succ_r in * by lia.
    destruct (Z.even r) eqn:Hev.
    + apply Z.even_spec in Hev as [r' ->].
      replace (2 * 2 ^ k * a + 2 * r') with (2 * (2 ^ k * a + r')) by ring.
      rewrite !lb_double, IH by lia. reflexivity.
    + assert (Hodd : Z.odd r = true) by (rewrite <- Z.negb_even, Hev; reflexivity).
      apply Z.odd_spec in Hodd as [r' ->].
      replace (2 * 2 ^ k * a + (2 * r' + 1)) with (2 * (2 ^ k * a + r') + 1) by ring.
      rewrite !lb_odd. reflexivity.
Qed.

(** Stepping down from [q] strictly inside the span of [x] stays inside it. *)
Lemma lb_prev_inside x q :
  0 < x -> x - lb x < q < x -> x - lb x <= q - lb q < q.
Proof.
  intros Hx Hq. destruct (lb_spec x Hx) as (k & m & Hk & Hm & Hy & Hl).
  rewrite Hl in *.
  assert (Hlb : lb q = lb (q - 2 ^ k * (2 * m))).
  { replace q with (2 ^ k * (2 * m) + (q - 2 ^ k * (2 * m))) at 1 2 by ring.
    apply lb_add_small; nia. }
  pose proof (lb_bounds (q - 2 ^ k * (2 * m))). nia.
Qed.

(** Stepping up from [x]: the next cell's span contains the span of [x]. *)
Lemma lb_next_covers x : 0 < x -> 2 * lb x <= lb (x + lb x).
Proof.
  intros Hx. destruct (lb_spec x Hx) as (k & m & Hk & Hm & Hy & Hl).
  rewrite Hl. subst x.
  replace (2 ^ k * (2 * m + 1) + 2 ^ k) with (2 ^ Z.succ k * (m + 1))
    by (rewrite Z.pow_succ_r by lia; ring).
  rewrite lb_pow2_mul, Z.pow_succ_r by lia.
  pose proof (lb_bounds (m + 1)).
  assert (0 < 2 ^ k) by (apply Z.pow_pos_nonneg; lia). nia.
Qed.

(** Strictly between [x] and the next cell, no span reaches down to [x]. *)
Lemma lb_between x j :
  0 < x -> x < j < x + lb x -> x <= j - lb j.
Proof.
  intros Hx Hj. destruct (lb_spec x Hx) as (k & m & Hk & Hm & Hy & Hl).
  rewrite Hl in *.
  assert (Hlb : lb j = lb (j - x)).
  { replace j with (2 ^ k * (2 * m + 1) + (j - x)) at 1 2 by lia.
    apply lb_add_small; lia. }
  pose proof (lb_bounds (j - x)). lia.
Qed.


(** ** Vectors *)

Lemma vec_get_Some (v : list Z) i :
  0 <= i < Z.of_nat (length v) -> exists x, vec_get v i = Some x.
Proof.
  intros H. unfold vec_get.
  destruct (Z.leb_spec 0 i); [|lia].
  destruct (lookup_lt_is_Some_2 v (Z.to_nat i)) as [x Hx]; [lia|].
  exists x. exact Hx.
Qed.

Lemma vec_get_None (v : list Z) i :
  ~ 0 <= i < Z.of_nat (length v) -> vec_get v i = None.
Proof.
  intros H. unfold vec_get.
  destruct (Z.leb_spec 0 i); [|reflexivity].
  apply lookup_ge_None_2. lia.
Qed.

Lemma vec_set_Some (v : list Z) i x :
  0 <= i < Z.of_nat (length v) ->
  vec_set v i x = Some (<[Z.to_nat i := x]> v).
Proof.
  intros H. unfold vec_set.
  destruct (Z.leb_spec 0 i); [|lia].
  destruct (Z.ltb_spec i (Z.of_nat (length v))); [|lia]. reflexivity.
Qed.

Lemma vec_set_length (v w : list Z) i x :
  vec_set v i x = Some w -> length w = length v.
Proof.
  unfold vec_set. destruct (_ && _); [|discriminate].
  intros [= <-]. apply length_insert.
Qed.

Lemma vec_get_set (v w : list Z) i x j :
  vec_set v i x = Some w ->
  vec_get w j = if j =? i then Some x else vec_get v j.
Proof.
  unfold vec_set, vec_get.
  destruct (Z.leb_spec 0 i); [|discriminate].
  destruct (Z.ltb_spec i (Z.of_nat (length v))); [|discriminate].
  intros [= <-].
  destruct (Z.eqb_spec j i) as [->|Hne].
  - destruct (Z.leb_spec 0 i); [|lia].
    apply list_lookup_insert_eq. lia.
  - destruct (Z.leb_spec 0 j); [|reflexivity].
    apply list_lookup_insert_ne. lia.
Qed.

(** ** The index steps of the source on in-range indices *)

Lemma neg_eq x : 0 <= x <= Int32.max_int -> Int32.neg x = - x.
Proof.
  intros H. apply wrap_small.
  unfold Int32.in_range, Int32.min_int, Int32.max_int in *. lia.
Qed.

Lemma lowbit_eq x : 0 <= x <= Int32.max_int -> Compact.lowbit x = lb x.
Proof. intros H. unfold Compact.lowbit, Int32.and. rewrite neg_eq; auto. Qed.

Lemma lb_0 : lb 0 = 0.
Proof. reflexivity. Qed.

Lemma lb_range x : 0 <= x -> 0 <= lb x <= x.
Proof.
  intros H. destruct (Z.eq_dec x 0) as [->|]; [rewrite lb_0; lia|].
  pose proof (lb_bounds x). lia.
Qed.

Lemma getPrev_eq x : 0 <= x <= Int32.max_int -> BIT1.getPrev x = x - lb x.
Proof.
  intros H. unfold BIT1.getPrev, Int32.sub, Int32.and. rewrite neg_eq by auto.
  pose proof (lb_range x). apply wrap_small.
  unfold Int32.in_range, Int32.min_int, Int32.max_int in *. lia.
Qed.

Lemma getNext_eq x :
  0 <= x -> x + lb x <= Int32.max_int -> BIT1.getNext x = x + lb x.
Proof.
  intros H0 H. pose proof (lb_range x H0).
  unfold BIT1.getNext, Int32.add, Int32.and.
  rewrite neg_eq by lia. apply wrap_small.
  unfold Int32.in_range, Int32.min_int, Int32.max_int in *. lia.
Qed.

Lemma in_span_spec i j :
  0 <= j <= Int32.max_int -> in_span i j = true <-> j - lb j < i <= j.
Proof.
  intros H. unfold in_span. rewrite lowbit_eq by auto.
  rewrite andb_true_iff, Z.ltb_lt, Z.leb_le. reflexivity.
Qed.

(** ** Sums of logical elements *)

Lemma wrap_congr_add a b c :
  Int32.wrap a = Int32.wrap b -> Int32.wrap (a + c) = Int32.wrap (b + c).
Proof. intros H. rewrite <- (wrap_add_l a), H, wrap_add_l. reflexivity. Qed.

Lemma sum_from_zsum e lo n : sum_from e lo n = Int32.wrap (zsum e lo n).
Proof.
  induction n as [|n IH]; [reflexivity|].
  cbn [sum_from zsum]. unfold Int32.add. rewrite IH. apply wrap_add_l.
Qed.

Lemma range_sum_zrange e lo hi : range_sum e lo hi = Int32.wrap (zrange e lo hi).
Proof. apply sum_from_zsum. Qed.

Lemma zsum_app e lo n m :
  zsum e lo (n + m) = zsum e lo n + zsum e (lo + Z.of_nat n) m.
Proof.
  induction m as [|m IH].
  - rewrite Nat.add_0_r. simpl. lia.
  - rewrite Nat.add_succ_r. cbn [zsum]. rewrite IH.
    replace (lo + Z.of_nat (S (n + m))) with (lo + Z.of_nat n + Z.of_nat (S m))
      by lia.
    lia.
Qed.

Lemma zrange_split e lo mid hi :
  lo <= mid <= hi -> zrange e lo hi = zrange e lo mid + zrange e mid hi.
Proof.
  intros H. unfold zrange.
  replace (Z.to_nat (hi - lo)) with (Z.to_nat (mid - lo) + Z.to_nat (hi - mid))%nat
    by lia.
  rewrite zsum_app. do 2 f_equal. lia.
Qed.

Lemma zrange_empty e a : zrange e a a = 0.
Proof. unfold zrange. rewrite Z.sub_diag. reflexivity. Qed.

Lemma zsum_bump e i d lo n :
  Int32.wrap (zsum (bump e i d) lo n) =
  Int32.wrap (zsum e lo n +
              if (lo <? i) && (i <=? lo + Z.of_nat n) then d else 0).
Proof.
  induction n as [|n IH].
  - cbn [zsum]. destruct (Z.ltb_spec lo i), (Z.leb_spec i (lo + Z.of_nat 0));
      simpl; try reflexivity. lia.
  - cbn [zsum]. rewrite (wrap_congr_add _ _ _ IH).
    unfold bump at 1.
    destruct (Z.eqb_spec (lo + Z.of_nat (S n)) i) as [<-|Hne].
    + destruct (Z.ltb_spec lo (lo + Z.of_nat (S n))); [|lia].
      destruct (Z.leb_spec (lo + Z.of_nat (S n)) (lo + Z.of_nat n)); [lia|].
      destruct (Z.leb_spec (lo + Z.of_nat (S n)) (lo + Z.of_nat (S n))); [|lia].
      simpl. unfold Int32.add. rewrite wrap_add_r, Z.add_0_r.
      f_equal. lia.
    + destruct (Z.ltb_spec lo i); simpl.
      * destruct (Z.leb_spec i (lo + Z.of_nat n)),
          (Z.leb_spec i (lo + Z.of_nat (S n))); try lia; f_equal; lia.
      * f_equal; lia.
Qed.

Lemma range_sum_bump e i d lo hi :
  lo <= hi ->
  range_sum (bump e i d) lo hi =
  if (lo <? i) && (i <=? hi) then Int32.add (range_sum e lo hi) d
  else range_sum e lo hi.
Proof.
  intros H. rewrite !range_sum_zrange. unfold zrange. rewrite zsum_bump.
  replace (lo + Z.of_nat (Z.to_nat (hi - lo))) with hi by lia.
  destruct ((lo <? i) && (i <=? hi)).
  - unfold Int32.add. rewrite wrap_add_l. reflexivity.
  - rewrite Z.add_0_r. reflexivity.
Qed.

Lemma range_sum_zero lo hi : range_sum (fun _ => 0) lo hi = 0.
Proof.
  unfold range_sum. induction (Z.to_nat (hi - lo)) as [|n IH]; [reflexivity|].
  cbn [sum_from]. rewrite IH. reflexivity.
Qed.

(** ** Walks down the structure *)

Lemma walk_le v a q z : walk v a q z -> a <= q.
Proof. induction 1; lia. Qed.

Lemma walk_trans v a b q z1 z2 :
  walk v a q z1 -> walk v b a z2 -> walk v b q (z1 + z2).
Proof.
  intros H1 H2. pose proof (walk_le _ _ _ _ H2) as Hba.
  induction H1 as [|q x z Hq Hx Hw IH]; [exact H2|].
  rewrite <- Z.add_assoc. apply walk_step; [lia | exact Hx | exact IH].
Qed.

(** From any cell the walk reaches index 0. *)
Lemma walk_to_zero (v : list Z) q :
  0 <= q < Z.of_nat (length v) -> exists z, walk v 0 q z.
Proof.
  intros [H0 Hq]. pose proof H0 as Hq0. revert Hq0 Hq.
  pattern q. apply Z_lt_induction; [|exact H0].
  clear q H0. intros q IH Hq0 Hq.
  destruct (Z.eq_dec q 0) as [->|Hne]; [exists 0; constructor|].
  destruct (vec_get_Some v q) as [x Hx]; [lia|].
  pose proof (lb_bounds q ltac:(lia)).
  destruct (IH (q - lb q)) as [z Hz]; [lia | lia | lia |].
  exists (x + z). apply walk_step; [lia | exact Hx | exact Hz].
Qed.

(** From any index inside the span of [x], or just below it, the walk passes
    through the lower end of that span. *)
Lemma walk_span (v : list Z) x q :
  0 < x -> x - lb x <= q < x -> x < Z.of_nat (length v) ->
  exists z, walk v (x - lb x) q z.
Proof.
  intros Hx [Hlo Hhi] Hlen. pose proof (lb_bounds x Hx) as Hb.
  assert (H0 : 0 <= q) by lia. revert Hlo Hhi.
  pattern q. apply Z_lt_induction; [|exact H0]. clear q H0.
  intros q IH Hlo Hhi.
  destruct (Z.eq_dec q (x - lb x)) as [->|Hne]; [exists 0; constructor|].
  destruct (vec_get_Some v q) as [c Hc]; [lia|].
  pose proof (lb_prev_inside x q Hx ltac:(lia)).
  destruct (IH (q - lb q)) as [z Hz]; [lia | lia | lia |].
  exists (c + z). apply walk_step; [lia | exact Hc | exact Hz].
Qed.

(** Under the invariant a walk adds up the logical elements it spans. *)
Lemma walk_sum e v n a q z :
  aggregates_ok e v n -> n - 1 <= Int32.max_int -> 0 <= a -> q < n ->
  walk v a q z -> Int32.wrap z = Int32.wrap (zrange e a q).
Proof.
  intros Hok Hn Ha Hq Hw. induction Hw as [|q x z Hlt Hx Hw IH].
  - rewrite zrange_empty. reflexivity.
  - pose proof (walk_le _ _ _ _ Hw) as Hle.
    pose proof (lb_bounds q ltac:(lia)) as Hb.
    rewrite (Hok q ltac:(lia)) in Hx. injection Hx as <-.
    rewrite lowbit_eq by lia.
    rewrite range_sum_zrange, wrap_add_l, <- wrap_add_r, IH by lia.
    rewrite wrap_add_r. f_equal.
    rewrite (zrange_split e a (q - lb q) q) by lia. lia.
Qed.

(** ** BIT_1: the loops, one iteration at a time *)

Section BIT1_loops.
Import BIT1 BIT1_reach.

Lemma updateTree_eq fuel idx value t :
  updateTree fuel idx value t =
  if idx <? _size t then
    match fuel with
    | O => Timeout
    | S fuel' =>
        match vec_get (_bitArray t) idx with
        | Some x =>
            match vec_set (_bitArray t) idx (Int32.add x value) with
            | Some w =>
                updateTree fuel' (getNext idx) value
                           {| _size := _size t; _bitArray := w |}
            | None => Fault
            end
        | None => Fault
        end
    end
  else Done (tt, t).
Proof.
  destruct fuel; cbn [updateTree]; unfold bind, size, read, write, timeout, ret;
    destruct (idx <? _size t); try reflexivity.
  destruct (vec_get _ idx); try reflexivity.
  destruct (vec_set _ idx _); reflexivity.
Qed.

Lemma getPrefixSum_loop_eq fuel idx sum t :
  getPrefixSum_loop fuel idx sum t =
  if idx >? 0 then
    match fuel with
    | O => Timeout
    | S fuel' =>
        match vec_get (_bitArray t) idx with
        | Some x => getPrefixSum_loop fuel' (getPrev idx) (Int32.add sum x) t
        | None => Fault
        end
    end
  else Done (sum, t).
Proof.
  destruct fuel; cbn [getPrefixSum_loop]; unfold bind, read, timeout, ret;
    destruct (idx >? 0); try reflexivity.
  destruct (vec_get _ idx); reflexivity.
Qed.

Lemma predecessor_loop_eq fuel p a acc t :
  predecessor_loop fuel p a acc t =
  if p >? a then
    match fuel with
    | O => Timeout
    | S fuel' =>
        match vec_get (_bitArray t) p with
        | Some x => predecessor_loop fuel' (getPrev p) a (Int32.sub acc x) t
        | None => Fault
        end
    end
  else Done (acc, t).
Proof.
  destruct fuel; cbn [predecessor_loop]; unfold bind, read, timeout, ret;
    destruct (p >? a); try reflexivity.
  destruct (vec_get _ p); reflexivity.
Qed.

Lemma ancestor_loop_eq fuel a start sum t :
  ancestor_loop fuel a start sum t =
  match fuel with
  | O => Timeout
  | S fuel' =>
      match vec_get (_bitArray t) a with
      | Some x =>
          if getPrev a >=? start
          then ancestor_loop fuel' (getPrev a) start (Int32.add sum x) t
          else Done ((Int32.add sum x, getPrev a), t)
      | None => Fault
      end
  end.
Proof.
  destruct fuel; cbn [ancestor_loop]; unfold bind, read, timeout, ret;
    try reflexivity.
  destruct (vec_get _ a); try reflexivity.
  destruct (getPrev a >=? start); reflexivity.
Qed.

(** A run of [updateTree] that returns keeps the object consistent. *)
Lemma updateTree_well_formed value fuel : forall idx t t',
  well_formed t -> updateTree fuel idx value t = Done (tt, t') ->
  well_formed t' /\ _size t' = _size t.
Proof.
  induction fuel as [|fuel IH]; intros idx t t' Hwf; rewrite updateTree_eq;
    destruct (idx <? _size t); try discriminate;
    try (intros [= <-]; split; [exact Hwf | reflexivity]).
  destruct (vec_get _ idx) as [x|]; [|discriminate].
  destruct (vec_set _ idx _) as [w|] eqn:Hw; [|discriminate].
  intros Hrun. apply IH in Hrun; [exact Hrun|].
  destruct Hwf as (Hlen & Hmax & Hcells).
  pose proof (vec_set_length _ _ _ _ Hw) as Hlw.
  repeat split; simpl; [lia | lia |].
  unfold vec_set in Hw. destruct (_ && _); [|discriminate].
  injection Hw as <-. apply Forall_insert; [exact Hcells | apply wrap_in_range].
Qed.

(** At a negative index the loop of [updateTree] subscripts the vector
    out of bounds (or is still running): it does not return. *)
Lemma updateTree_negative value fuel idx t r :
  well_formed t -> idx < 0 -> updateTree fuel idx value t <> Done r.
Proof.
  intros (Hlen & _ & _) Hneg. rewrite updateTree_eq.
  destruct (Z.ltb_spec idx (_size t)); [|lia].
  destruct fuel; [discriminate|].
  rewrite vec_get_None by lia. discriminate.
Qed.

(** [updateTree] started on a cell whose span contains [i] adds [value] to
    exactly the cells from there on whose span contains [i]. *)
Lemma updateTree_cells i value fuel : forall idx t t',
  well_formed t -> 1 <= i -> in_span i idx = true ->
  updateTree fuel idx value t = Done (tt, t') ->
  forall j, 0 <= j < _size t ->
    vec_get (_bitArray t') j =
    if (idx <=? j) && in_span i j
    then (fun x => Int32.add x value) <$> vec_get (_bitArray t) j
    else vec_get (_bitArray t) j.
Proof.
  induction fuel as [|fuel IH]; intros idx t t' Hwf Hi Hspan;
    pose proof Hwf as (Hlen & Hmax & Hcells);
    rewrite updateTree_eq; destruct (Z.ltb_spec idx (_size t)) as [Hlt|Hge];
    try discriminate;
    try (intros [= <-] j Hj; destruct (Z.leb_spec idx j); [lia|]; reflexivity).
  assert (Hidx : 0 <= idx <= Int32.max_int).
  { split; [|lia]. unfold in_span in Hspan.
    apply andb_true_iff in Hspan as [_ H2]. apply Z.leb_le in H2. lia. }
  apply in_span_spec in Hspan; [|exact Hidx].
  destruct (vec_get _ idx) as [x|] eqn:Hx; [|discriminate].
  destruct (vec_set _ idx _) as [w|] eqn:Hw; [|discriminate].
  pose proof (lb_bounds idx ltac:(lia)) as Hlb.
  pose proof (lb_next_covers idx ltac:(lia)) as Hnext.
  assert (Hwf1 : well_formed {| _size := _size t; _bitArray := w |}).
  { pose proof (vec_set_length _ _ _ _ Hw). repeat split; simpl; [lia|lia|].
    unfold vec_set in Hw. destruct (_ && _); [|discriminate].
    injection Hw as <-. apply Forall_insert; [exact Hcells | apply wrap_in_range]. }
  destruct (Z.le_gt_cases (idx + lb idx) Int32.max_int) as [Hfit|Hover].
  - rewrite getNext_eq by lia. intros Hrun j Hj.
    assert (Hspan1 : in_span i (idx + lb idx) = true)
      by (apply in_span_spec; lia).
    rewrite (IH _ _ _ Hwf1 Hi Hspan1 Hrun j Hj). cbn [_bitArray].
    rewrite (vec_get_set _ _ _ _ j Hw).
    destruct (Z.eqb_spec j idx) as [->|Hne].
    + destruct (Z.leb_spec (idx + lb idx) idx); [lia|].
      destruct (Z.leb_spec idx idx); [|lia].
      replace (in_span i idx) with true
        by (symmetry; apply in_span_spec; auto).
      simpl. rewrite Hx. reflexivity.
    + destruct (Z.leb_spec (idx + lb idx) j), (Z.leb_spec idx j);
        try lia; simpl; try reflexivity.
      replace (in_span i j) with false; [reflexivity|].
      symmetry. apply not_true_is_false. intros Hs.
      apply in_span_spec in Hs; [|lia].
      pose proof (lb_between idx j ltac:(lia) ltac:(lia)). lia.
  - intros Hrun. exfalso. revert Hrun. apply updateTree_negative; [exact Hwf1|].
    unfold getNext, Int32.add, Int32.and. rewrite neg_eq by exact Hidx.
    rewrite wrap_high; unfold Int32.max_int in *; lia.
Qed.

(** With no overflow in sight and fuel for every cell above [idx], the loop
    returns. *)
Lemma updateTree_returns value fuel : forall idx t,
  well_formed t -> _size t <= 2 ^ 30 -> 1 <= idx ->
  (Z.to_nat (_size t - idx) <= fuel)%nat ->
  exists t', updateTree fuel idx value t = Done (tt, t').
Proof.
  induction fuel as [|fuel IH]; intros idx t Hwf Hsz Hidx Hfuel;
    pose proof Hwf as (Hlen & Hmax & Hcells);
    rewrite updateTree_eq; destruct (Z.ltb_spec idx (_size t)) as [Hlt|Hge];
    try lia; try (exists t; reflexivity).
  destruct (vec_get_Some (_bitArray t) idx) as [x Hx]; [lia|]. rewrite Hx.
  rewrite (vec_set_Some _ idx) by lia.
  pose proof (lb_bounds idx ltac:(lia)) as Hlb.
  rewrite getNext_eq by (unfold Int32.max_int; lia).
  apply IH; simpl; try lia.
  repeat split; simpl; [rewrite length_insert; lia | lia |].
  apply Forall_insert; [exact Hcells | apply wrap_in_range].
Qed.

(** More fuel does not change the outcome of a run that returned. *)
Lemma updateTree_fuel_mono value fuel : forall fuel' idx t r,
  (fuel <= fuel')%nat ->
  updateTree fuel idx value t = Done r ->
  updateTree fuel' idx value t = Done r.
Proof.
  induction fuel as [|fuel IH]; intros fuel' idx t r Hle;
    rewrite !(updateTree_eq _ idx); destruct (idx <? _size t);
    try discriminate; try (intros ->; reflexivity).
  destruct fuel' as [|fuel']; [lia|].
  destruct (vec_get _ idx) as [x|]; [|discriminate].
  destruct (vec_set _ idx _) as [w|]; [|discriminate].
  apply IH. lia.
Qed.

Lemma built_well_formed cap e t : built cap e t -> well_formed t /\ _size t = cap + 1.
Proof.
  induction 1 as [Hcap Hmax | e t fuel i d t' Hb [IHwf IHsz] Hi Hrun].
  - repeat split; simpl; try lia.
    + rewrite length_replicate. lia.
    + apply Forall_replicate. unfold Int32.in_range, Int32.min_int, Int32.max_int. lia.
  - apply updateTree_well_formed in Hrun as [Hwf Hsz]; [|exact IHwf].
    split; [exact Hwf | lia].
Qed.

(** [getPrefixSum]'s loop follows a walk to index 0. *)
Lemma getPrefixSum_loop_walk t q z :
  walk (_bitArray t) 0 q z -> q <= Int32.max_int ->
  forall fuel acc, (Z.to_nat q <= fuel)%nat -> Int32.in_range acc ->
    getPrefixSum_loop fuel q acc t = Done (Int32.wrap (acc + z), t).
Proof.
  induction 1 as [|q x z Hq Hx Hw IH]; intros Hmax fuel acc Hfuel Hacc;
    rewrite getPrefixSum_loop_eq.
  - simpl. rewrite Z.add_0_r, wrap_small by exact Hacc. reflexivity.
  - destruct (Z.gtb_spec q 0); [|lia].
    destruct fuel as [|fuel]; [lia|]. rewrite Hx.
    pose proof (lb_bounds q ltac:(lia)).
    rewrite getPrev_eq by lia.
    rewrite IH; [|lia|lia|apply wrap_in_range].
    unfold Int32.add. rewrite wrap_add_l. do 3 f_equal. lia.
Qed.

(** The subtracting loop follows a walk down to [a]. *)
Lemma predecessor_loop_walk t a q z :
  walk (_bitArray t) a q z -> 0 <= a -> q <= Int32.max_int ->
  forall fuel acc, (Z.to_nat (q - a) <= fuel)%nat -> Int32.in_range acc ->
    predecessor_loop fuel q a acc t = Done (Int32.wrap (acc - z), t).
Proof.
  induction 1 as [|q x z Hq Hx Hw IH]; intros Ha Hmax fuel acc Hfuel Hacc;
    rewrite predecessor_loop_eq.
  - destruct (Z.gtb_spec a a); [lia|].
    rewrite Z.sub_0_r, wrap_small by exact Hacc. reflexivity.
  - destruct (Z.gtb_spec q a); [|lia].
    destruct fuel as [|fuel]; [lia|]. rewrite Hx.
    pose proof (lb_bounds q ltac:(lia)).
    pose proof (walk_le _ _ _ _ Hw).
    rewrite getPrev_eq by lia.
    rewrite IH; [|lia|lia|lia|apply wrap_in_range].
    unfold Int32.sub. rewrite wrap_sub_l. do 3 f_equal. lia.
Qed.

(** The adding loop of [getSum] stops at the lower end [a] of the span of
    some cell [y] on the walk, the first one with [a < startIdx]. *)
Lemma ancestor_loop_walk t i fuel : forall x acc,
  well_formed t -> 1 <= i <= x -> x < _size t ->
  (Z.to_nat x <= fuel)%nat -> Int32.in_range acc ->
  exists a y z,
    ancestor_loop fuel x i acc t = Done ((Int32.wrap (acc + z), a), t) /\
    walk (_bitArray t) a x z /\
    0 < y < _size t /\ a = y - lb y /\ a < i <= y.
Proof.
  induction fuel as [|fuel IH]; intros x acc Hwf Hi Hx Hfuel Hacc; [lia|].
  pose proof Hwf as (Hlen & Hmax & Hcells).
  rewrite ancestor_loop_eq.
  destruct (vec_get_Some (_bitArray t) x) as [c Hc]; [lia|]. rewrite Hc.
  pose proof (lb_bounds x ltac:(lia)) as Hb.
  rewrite getPrev_eq by lia.
  destruct (Z.geb_spec (x - lb x) i) as [Hge|Hlt].
  - destruct (IH (x - lb x) (Int32.add acc c)) as (a & y & z & Hrun & Hw & Hy & Ha & Hai);
      [exact Hwf | lia | lia | lia | apply wrap_in_range |].
    exists a, y, (c + z). rewrite Hrun. unfold Int32.add.
    rewrite wrap_add_l, Z.add_assoc.
    repeat split; try lia. apply walk_step; [lia | exact Hc | exact Hw].
  - exists (x - lb x), x, (c + 0).
    split; [unfold Int32.add; rewrite Z.add_0_r; reflexivity|].
    split; [apply walk_step; [lia | exact Hc | constructor]|]. lia.
Qed.

End BIT1_loops.

(** ** BIT_1: queries on consistent objects *)

Section BIT1_queries.
Import BIT1 BIT1_reach.

Lemma in_range_0 : Int32.in_range 0.
Proof. unfold Int32.in_range, Int32.min_int, Int32.max_int. lia. Qed.

Lemma getPrefixSum_walk t k z fuel :
  well_formed t -> 0 <= k < _size t -> walk (_bitArray t) 0 k z ->
  (Z.to_nat k <= fuel)%nat ->
  getPrefixSum fuel k t = Done (Int32.wrap z, t).
Proof.
  intros (Hlen & Hmax & _) Hk Hw Hfuel. unfold getPrefixSum, bind, size.
  destruct (Z.geb_spec k (_size t)); [lia|].
  rewrite (getPrefixSum_loop_walk t k z Hw); [reflexivity|lia|lia|apply in_range_0].
Qed.

(** The two-loop walk of [getSum] against two prefix sums, on any
    consistent object. *)
Lemma getSum_prefix t i j fuel :
  well_formed t -> 1 <= i <= j -> j < _size t -> (Z.to_nat j <= fuel)%nat ->
  exists p1 p0,
    getPrefixSum fuel j t = Done (p1, t) /\
    getPrefixSum fuel (i - 1) t = Done (p0, t) /\
    getSum fuel i j t = Done (Int32.sub p1 p0, t).
Proof.
  intros Hwf Hij Hj Hfuel. pose proof Hwf as (Hlen & Hmax & _).
  destruct (ancestor_loop_walk t i fuel j 0 Hwf Hij Hj Hfuel in_range_0)
    as (a & y & z1 & Hrun & Hw1 & Hy & Ha & Hai).
  pose proof (lb_bounds y ltac:(lia)) as Hby.
  destruct (walk_span (_bitArray t) y (i - 1)) as [z2 Hw2]; [lia|lia|lia|].
  rewrite <- Ha in Hw2.
  destruct (walk_to_zero (_bitArray t) a) as [z0 Hw0]; [lia|].
  exists (Int32.wrap (z1 + z0)), (Int32.wrap (z2 + z0)).
  split; [apply getPrefixSum_walk; [exact Hwf|lia| |lia];
          eapply walk_trans; eassumption|].
  split; [apply getPrefixSum_walk; [exact Hwf|lia| |lia];
          eapply walk_trans; eassumption|].
  unfold getSum. destruct (Z.gtb_spec i j); [lia|].
  unfold bind. rewrite Hrun. cbn [fst snd].
  assert (Hi1 : Int32.sub i 1 = i - 1).
  { apply wrap_small. unfold Int32.in_range, Int32.min_int, Int32.max_int in *. lia. }
  rewrite Hi1, (predecessor_loop_walk t a (i - 1) z2 Hw2);
    [|lia|lia|lia|apply wrap_in_range].
  unfold Int32.sub. rewrite wrap_sub_l, wrap_sub_l, wrap_sub_r.
  do 3 f_equal. lia.
Qed.

(** The single-loop recovery of [getOriginalValue] against two prefix
    sums, on any consistent object. *)
Lemma getOriginalValue_prefix t i fuel :
  well_formed t -> 1 <= i < _size t -> (Z.to_nat i <= fuel)%nat ->
  exists p1 p0,
    getPrefixSum fuel i t = Done (p1, t) /\
    getPrefixSum fuel (i - 1) t = Done (p0, t) /\
    getOriginalValue fuel i t = Done (Int32.sub p1 p0, t).
Proof.
  intros Hwf Hi Hfuel. pose proof Hwf as (Hlen & Hmax & Hcells).
  pose proof (lb_bounds i ltac:(lia)) as Hb.
  destruct (vec_get_Some (_bitArray t) i) as [c Hc]; [lia|].
  destruct (walk_span (_bitArray t) i (i - 1)) as [z2 Hw2]; [lia|lia|lia|].
  destruct (walk_to_zero (_bitArray t) (i - lb i)) as [z0 Hw0]; [lia|].
  exists (Int32.wrap (c + z0)), (Int32.wrap (z2 + z0)).
  split; [apply getPrefixSum_walk; [exact Hwf|lia| |lia];
          apply walk_step; [lia|exact Hc|exact Hw0]|].
  split; [apply getPrefixSum_walk; [exact Hwf|lia| |lia];
          eapply walk_trans; eassumption|].
  unfold getOriginalValue, bind, size, read.
  destruct (Z.geb_spec i (_size t)); [lia|]. rewrite Hc.
  assert (Hi1 : Int32.sub i 1 = i - 1).
  { apply wrap_small. unfold Int32.in_range, Int32.min_int, Int32.max_int in *. lia. }
  rewrite Hi1, getPrev_eq by lia.
  rewrite (predecessor_loop_walk t (i - lb i) (i - 1) z2 Hw2); [|lia|lia|lia|].
  - unfold Int32.sub. rewrite wrap_sub_l, wrap_sub_r. do 3 f_equal. lia.
  - unfold vec_get in Hc. destruct (0 <=? i); [|discriminate].
    rewrite Forall_lookup in Hcells. exact (Hcells _ _ Hc).
Qed.

(** Every reachable object satisfies the aggregate invariant. *)
Lemma built_aggregates_ok cap e t :
  built cap e t -> aggregates_ok e (_bitArray t) (_size t).
Proof.
  induction 1 as [Hcap Hmax | e t fuel i d t' Hb IH Hi Hrun]; intros j Hj.
  - cbn [_size _bitArray] in *. rewrite range_sum_zero. unfold vec_get.
    destruct (Z.leb_spec 0 j); [|lia]. apply lookup_replicate_2. lia.
  - destruct (built_well_formed _ _ _ Hb) as [Hwf Hsz].
    pose proof Hwf as (Hlen & Hmax & _).
    destruct (updateTree_well_formed _ _ _ _ _ Hwf Hrun) as [_ Hsz'].
    rewrite Hsz' in Hj.
    pose proof (lb_bounds i ltac:(lia)) as Hbi.
    pose proof (lb_bounds j ltac:(lia)) as Hbj.
    assert (Hii : in_span i i = true) by (apply in_span_spec; lia).
    rewrite (updateTree_cells i d fuel i t t' Hwf ltac:(lia) Hii Hrun j ltac:(lia)).
    rewrite (IH j Hj). cbn [fmap option_fmap option_map].
    rewrite range_sum_bump by (rewrite lowbit_eq; lia).
    unfold in_span.
    destruct (Z.leb_spec i j), (Z.ltb_spec (j - Compact.lowbit j) i);
      reflexivity.
Qed.

(** On a reachable object [getPrefixSum] returns the sum of the logical
    elements [1..k]. *)
Lemma getPrefixSum_built cap e t k fuel :
  built cap e t -> 0 <= k <= cap -> (Z.to_nat k <= fuel)%nat ->
  getPrefixSum fuel k t = Done (range_sum e 0 k, t).
Proof.
  intros Hb Hk Hfuel. destruct (built_well_formed _ _ _ Hb) as [Hwf Hsz].
  pose proof Hwf as (Hlen & Hmax & _).
  destruct (walk_to_zero (_bitArray t) k) as [z Hz]; [lia|].
  rewrite (getPrefixSum_walk t k z) by (auto; lia).
  rewrite range_sum_zrange.
  rewrite (walk_sum e _ (_size t) 0 k z (built_aggregates_ok _ _ _ Hb));
    [reflexivity | lia | lia | lia | exact Hz].
Qed.

(** Queries do not write. *)
Lemma getPrefixSum_loop_readonly fuel : forall idx acc t r t',
  getPrefixSum_loop fuel idx acc t = Done (r, t') -> t' = t.
Proof.
  induction fuel as [|fuel IH]; intros idx acc t r t';
    rewrite getPrefixSum_loop_eq; destruct (idx >? 0); try discriminate;
    try (intros [= _ <-]; reflexivity).
  destruct (vec_get _ idx); [apply IH | discriminate].
Qed.

Lemma predecessor_loop_readonly fuel : forall p a acc t r t',
  predecessor_loop fuel p a acc t = Done (r, t') -> t' = t.
Proof.
  induction fuel as [|fuel IH]; intros p a acc t r t';
    rewrite predecessor_loop_eq; destruct (p >? a); try discriminate;
    try (intros [= _ <-]; reflexivity).
  destruct (vec_get _ p); [apply IH | discriminate].
Qed.

Lemma ancestor_loop_readonly fuel : forall a start acc t r t',
  ancestor_loop fuel a start acc t = Done (r, t') -> t' = t.
Proof.
  induction fuel as [|fuel IH]; intros a start acc t r t';
    rewrite ancestor_loop_eq; [discriminate|].
  destruct (vec_get _ a); [|discriminate].
  destruct (getPrev a >=? start); [apply IH|].
  intros [= _ <-]. reflexivity.
Qed.

Lemma getPrefixSum_readonly fuel idx t r t' :
  getPrefixSum fuel idx t = Done (r, t') -> t' = t.
Proof.
  unfold getPrefixSum, bind, size, ret. destruct (idx >=? _size t).
  - intros [= _ <-]. reflexivity.
  - apply getPrefixSum_loop_readonly.
Qed.

Lemma getOriginalValue_readonly fuel idx t r t' :
  getOriginalValue fuel idx t = Done (r, t') -> t' = t.
Proof.
  unfold getOriginalValue, bind, size, read, ret. destruct (idx >=? _size t).
  - intros [= _ <-]. reflexivity.
  - destruct (vec_get _ idx); [apply predecessor_loop_readonly | discriminate].
Qed.

Lemma getSum_readonly fuel i j t r t' :
  getSum fuel i j t = Done (r, t') -> t' = t.
Proof.
  unfold getSum, bind, ret. destruct (i >? j).
  - intros [= _ <-]. reflexivity.
  - destruct (ancestor_loop fuel j i 0 t) as [[sa t1]| |] eqn:Hup;
      try discriminate.
    apply ancestor_loop_readonly in Hup as ->.
    apply predecessor_loop_readonly.
Qed.

End BIT1_queries.

(** ** BIT_2_compact_1: the loops, one iteration at a time *)

Section Compact_loops.
Import Compact Compact_reach.

Lemma add_eq fuel id num m :
  add fuel id num m =
  if (1 <=? id) && (id <? N (self m)) then
    match fuel with
    | O => Timeout
    | S fuel' =>
        match vec_get (BIT (self m)) id with
        | Some x =>
            match vec_set (BIT (self m)) id (Int32.add x num) with
            | Some w =>
                add fuel' (Int32.add id (lowbit id)) num
                    {| self := {| N := N (self m); BIT := w |};
                       accessed := id :: id :: accessed m |}
            | None => Fault
            end
        | None => Fault
        end
    end
  else Done (tt, m).
Proof.
  destruct fuel; cbn [add]; unfold bind, check, read, write, timeout, ret;
    destruct ((1 <=? id) && (id <? N (self m))); try reflexivity.
  destruct (vec_get _ id); try reflexivity. cbn [self accessed].
  destruct (vec_set _ id _); reflexivity.
Qed.

Lemma sum_loop_eq fuel i acc m :
  sum_loop fuel i acc m =
  if (1 <=? i) && (i <? N (self m)) then
    match fuel with
    | O => Timeout
    | S fuel' =>
        match vec_get (BIT (self m)) i with
        | Some x =>
            sum_loop fuel' (Int32.sub i (lowbit i)) (Int32.add acc x)
                     {| self := self m; accessed := i :: accessed m |}
        | None => Fault
        end
    end
  else Done (acc, m).
Proof.
  destruct fuel; cbn [sum_loop]; unfold bind, check, read, timeout, ret;
    destruct ((1 <=? i) && (i <? N (self m))); try reflexivity.
  destruct (vec_get _ i); reflexivity.
Qed.

Lemma check_spec id m :
  exists b, check id m = Done (b, m) /\ (b = true <-> 1 <= id < N (self m)).
Proof.
  eexists. split; [reflexivity|].
  rewrite andb_true_iff, Z.leb_le, Z.ltb_lt. reflexivity.
Qed.

Lemma guard_true id n : 1 <= id < n -> (1 <=? id) && (id <? n) = true.
Proof. intros H. apply andb_true_iff. rewrite Z.leb_le, Z.ltb_lt. exact H. Qed.

Lemma guard_false id n : ~ 1 <= id < n -> (1 <=? id) && (id <? n) = false.
Proof.
  intros H. apply not_true_is_false. rewrite andb_true_iff, Z.leb_le, Z.ltb_lt.
  exact H.
Qed.

(** [add] started on a cell whose span contains [i] (or on no cell at all)
    returns, adds [num] to exactly the cells from there on whose span
    contains [i], and subscripts the vector inside [[1, N)] only. *)
Lemma add_spec i num fuel : forall id m,
  well_formed (self m) -> 1 <= i ->
  (1 <= id -> in_span i id = true) ->
  (1 <= id -> (Z.to_nat (N (self m) - id) <= fuel)%nat) ->
  exists m' l,
    add fuel id num m = Done (tt, m') /\
    N (self m') = N (self m) /\
    length (BIT (self m')) = length (BIT (self m)) /\
    accessed m' = l ++ accessed m /\
    Forall (fun k => 1 <= k < N (self m)) l /\
    forall j, 0 <= j < N (self m) ->
      vec_get (BIT (self m')) j =
      if (1 <=? id) && (id <=? j) && in_span i j
      then (fun x => Int32.add x num) <$> vec_get (BIT (self m)) j
      else vec_get (BIT (self m)) j.
Proof.
  induction fuel as [|fuel IH]; intros id m [Hlen Hmax] Hi Hspan Hfuel;
    rewrite add_eq;
    (destruct (Z.le_gt_cases 1 id) as [H1|H1];
     [destruct (Z.lt_ge_cases id (N (self m))) as [Hlt|Hge]|]);
    try (rewrite guard_false by lia; exists m, [];
         do 3 (split; [reflexivity|]); split; [reflexivity|];
         split; [constructor|]; intros j Hj;
         destruct (Z.leb_spec 1 id), (Z.leb_spec id j); try lia; reflexivity).
  rewrite guard_true by lia. specialize (Hspan H1). specialize (Hfuel H1).
  apply in_span_spec in Hspan; [|lia].
  {
    destruct (vec_get_Some (BIT (self m)) id) as [x Hx]; [lia|]. rewrite Hx.
    rewrite (vec_set_Some _ id) by lia.
    set (w := <[Z.to_nat id := Int32.add x num]> (BIT (self m))).
    assert (Hw : vec_set (BIT (self m)) id (Int32.add x num) = Some w)
      by (apply vec_set_Some; lia).
    pose proof (lb_bounds id ltac:(lia)) as Hlb.
    pose proof (lb_next_covers id ltac:(lia)) as Hnext.
    rewrite lowbit_eq by lia.
    set (m1 := {| self := {| N := N (self m); BIT := w |};
                  accessed := id :: id :: accessed m |}).
    assert (Hnx : Int32.add id (lb id) = id + lb id /\ id + lb id <= Int32.max_int
                  \/ Int32.add id (lb id) < 0 /\ Int32.max_int < id + lb id).
    { destruct (Z.le_gt_cases (id + lb id) Int32.max_int) as [Hfit|Hover].
      - left. split; [|exact Hfit]. apply wrap_small.
        unfold Int32.in_range, Int32.min_int, Int32.max_int in *. lia.
      - right. split; [|lia]. unfold Int32.add.
        rewrite wrap_high; unfold Int32.max_int in *; lia. }
    destruct (IH (Int32.add id (lb id)) m1)
      as (m' & l & Hrun & HN & Hlen' & Hacc & Hl & Hcells).
    + split; simpl; [|lia]. unfold w. rewrite length_insert. lia.
    + lia.
    + intros Hpos. destruct Hnx as [[-> Hfit]|[Hneg _]]; [|lia].
      apply in_span_spec; lia.
    + intros Hpos. destruct Hnx as [[-> Hfit]|[Hneg _]]; [|lia].
      simpl. lia.
    + exists m', (l ++ [id; id]). simpl in *.
      split; [exact Hrun|]. split; [exact HN|].
      split; [rewrite Hlen'; apply length_insert|].
      split; [rewrite Hacc, <- app_assoc; reflexivity|].
      split; [apply Forall_app; split; [exact Hl|];
              repeat constructor; lia|].
      intros j Hj. rewrite (Hcells j Hj), (vec_get_set _ _ _ _ j Hw).
      destruct (Z.leb_spec 1 id); [|lia]. simpl.
      destruct (Z.eqb_spec j id) as [->|Hne].
      * replace (in_span i id) with true
          by (symmetry; apply in_span_spec; lia).
        destruct (Z.leb_spec id id); [|lia].
        replace ((1 <=? Int32.add id (lb id)) && (Int32.add id (lb id) <=? id))
          with false.
        -- simpl. rewrite Hx. reflexivity.
        -- symmetry. apply not_true_is_false.
           rewrite andb_true_iff, !Z.leb_le. lia.
      * destruct (in_span i j) eqn:Hs; [|rewrite !andb_false_r; reflexivity].
        rewrite !andb_true_r.
        apply in_span_spec in Hs; [|lia].
        destruct (Z.leb_spec id j).
        -- pose proof (lb_bounds j ltac:(lia)).
           assert (id + lb id <= j).
           { destruct (Z.le_gt_cases (id + lb id) j); [assumption|].
             pose proof (lb_between id j ltac:(lia) ltac:(lia)). lia. }
           destruct Hnx as [[-> Hfit]|[_ Hover]]; [|lia].
           destruct (Z.leb_spec 1 (id + lb id)), (Z.leb_spec (id + lb id) j);
             try lia. reflexivity.
        -- destruct (Z.leb_spec 1 (Int32.add id (lb id))),
             (Z.leb_spec (Int32.add id (lb id)) j); try reflexivity.
           destruct Hnx as [[Heq Hfit]|[Hneg _]]; lia.
  }
Qed.

(** [sum]'s loop returns from every index and subscripts the vector inside
    [[1, N)] only. *)
Lemma sum_loop_spec fuel : forall i acc m,
  well_formed (self m) -> (Z.to_nat (N (self m)) <= fuel + Z.to_nat (N (self m) - i))%nat ->
  exists r l,
    sum_loop fuel i acc m =
      Done (r, {| self := self m; accessed := l ++ accessed m |}) /\
    Forall (fun k => 1 <= k < N (self m)) l /\
    (~ 1 <= i < N (self m) -> r = acc /\ l = []).
Proof.
  induction fuel as [|fuel IH]; intros i acc m [Hlen Hmax] Hfuel;
    rewrite sum_loop_eq;
    (destruct (Z.le_gt_cases 1 i) as [H1|H1];
     [destruct (Z.lt_ge_cases i (N (self m))) as [Hlt|Hge]|]);
    try (rewrite guard_false by lia; exists acc, []; destruct m;
         split; [reflexivity|]; split; [constructor|]; intros _; auto).
  rewrite guard_true by lia.
  { destruct (vec_get_Some (BIT (self m)) i) as [x Hx]; [lia|]. rewrite Hx.
    pose proof (lb_bounds i ltac:(lia)) as Hlb.
    rewrite lowbit_eq by lia.
    assert (Hprev : Int32.sub i (lb i) = i - lb i).
    { apply wrap_small.
      unfold Int32.in_range, Int32.min_int, Int32.max_int in *. lia. }
    rewrite Hprev.
    destruct (IH (i - lb i) (Int32.add acc x)
                 {| self := self m; accessed := i :: accessed m |})
      as (r & l & Hrun & Hl & _); simpl.
    + split; assumption.
    + lia.
    + exists r, (l ++ [i]). rewrite Hrun. simpl.
      split; [rewrite <- app_assoc; reflexivity|].
      split; [apply Forall_app; split; [exact Hl|]; repeat constructor; lia|].
      intros Hout. lia. }
Qed.

Lemma sum_loop_readonly fuel : forall i acc m r m',
  sum_loop fuel i acc m = Done (r, m') -> self m' = self m.
Proof.
  induction fuel as [|fuel IH]; intros i acc m r m'; rewrite sum_loop_eq;
    destruct ((1 <=? i) && (i <? N (self m))); try discriminate;
    try (intros [= _ <-]; reflexivity).
  destruct (vec_get _ i); [|discriminate].
  intros Hrun. apply IH in Hrun. exact Hrun.
Qed.

End Compact_loops.

(** ** BIT_2_compact_1: reachable objects *)

Section Compact_results.
Import Compact Compact_reach.

Lemma vec_resize_nil n x : vec_resize n x [] = replicate n x.
Proof. unfold vec_resize. rewrite take_nil, Nat.sub_0_r. reflexivity. Qed.

Lemma init_positive size m :
  0 < size ->
  init size m =
  Done (tt, {| self := {| N := size;
                          BIT := vec_resize (Z.to_nat size) 0 (BIT (self m)) |};
               accessed := accessed m |}).
Proof.
  intros H. unfold init. destruct (Z.leb_spec size 0); [lia|]. reflexivity.
Qed.

Lemma init_nonpositive size m : size <= 0 -> init size m = Done (tt, m).
Proof.
  intros H. unfold init. destruct (Z.leb_spec size 0); [|lia]. reflexivity.
Qed.

Lemma main_init_new cap :
  0 <= cap -> cap + 1 <= Int32.max_int ->
  main_init cap (start new) =
  Done (tt, start {| N := cap + 1; BIT := replicate (Z.to_nat (cap + 1)) 0 |}).
Proof.
  intros H0 Hmax. unfold main_init.
  assert (Hs : Int32.add cap 1 = cap + 1).
  { apply wrap_small. unfold Int32.in_range, Int32.min_int, Int32.max_int in *. lia. }
  rewrite Hs, init_positive by lia. cbn [start self accessed new BIT].
  rewrite vec_resize_nil. reflexivity.
Qed.

Lemma add_fuel_mono num fuel : forall fuel' id m r,
  (fuel <= fuel')%nat ->
  add fuel id num m = Done r -> add fuel' id num m = Done r.
Proof.
  induction fuel as [|fuel IH]; intros fuel' id m r Hle;
    rewrite !(add_eq _ id); destruct ((1 <=? id) && (id <? N (self m)));
    try discriminate; try (intros ->; reflexivity).
  destruct fuel' as [|fuel']; [lia|].
  destruct (vec_get _ id) as [x|]; [|discriminate].
  destruct (vec_set _ id _) as [w|]; [|discriminate].
  apply IH. lia.
Qed.

(** What a returning [add] at a valid index did, whatever fuel it had. *)
Lemma add_valid i num fuel m m' :
  well_formed (self m) -> 1 <= i < N (self m) ->
  add fuel i num m = Done (tt, m') ->
  well_formed (self m') /\ N (self m') = N (self m) /\
  forall j, 0 <= j < N (self m) ->
    vec_get (BIT (self m')) j =
    if in_span i j
    then (fun x => Int32.add x num) <$> vec_get (BIT (self m)) j
    else vec_get (BIT (self m)) j.
Proof.
  intros Hwf Hi Hrun. pose proof Hwf as [Hlen Hmax].
  pose proof (lb_bounds i ltac:(lia)) as Hb.
  destruct (add_spec i num (fuel + Z.to_nat (N (self m))) i m Hwf)
    as (m2 & l & Hrun2 & HN & Hlen2 & _ & _ & Hcells);
    [lia | intros _; apply in_span_spec; lia | lia |].
  rewrite (add_fuel_mono num fuel (fuel + Z.to_nat (N (self m)))%nat i m _
             ltac:(lia) Hrun) in Hrun2.
  injection Hrun2 as <-.
  split; [split; lia|]. split; [exact HN|].
  intros j Hj. rewrite (Hcells j Hj).
  destruct (Z.leb_spec 1 i); [|lia]. cbn [andb].
  destruct (Z.leb_spec i j); [reflexivity|]. cbn [andb].
  replace (in_span i j) with false; [reflexivity|].
  symmetry. apply not_true_is_false. intros Hs.
  apply in_span_spec in Hs; lia.
Qed.

Lemma compact_built_well_formed cap e t :
  built cap e t -> well_formed t /\ N t = cap + 1.
Proof.
  induction 1 as [m Hcap Hmax Hrun | e t log fuel i d m' Hb [IHwf IHN] Hi Hrun].
  - rewrite main_init_new in Hrun by assumption. injection Hrun as <-.
    cbn [start self N BIT]. split; [split|reflexivity]; cbn [N BIT]; [|lia].
    rewrite length_replicate. lia.
  - apply add_valid in Hrun as (Hwf & HN & _); cbn [self] in *;
      [|exact IHwf|lia].
    split; [exact Hwf | lia].
Qed.

(** Every reachable object satisfies the aggregate invariant. *)
Lemma compact_built_aggregates_ok cap e t :
  built cap e t -> aggregates_ok e (BIT t) (N t).
Proof.
  induction 1 as [m Hcap Hmax Hrun | e t log fuel i d m' Hb IH Hi Hrun];
    intros j Hj.
  - rewrite main_init_new in Hrun by assumption. injection Hrun as <-.
    cbn [start self N BIT] in *. rewrite range_sum_zero. unfold vec_get.
    destruct (Z.leb_spec 0 j); [|lia]. apply lookup_replicate_2. lia.
  - destruct (compact_built_well_formed _ _ _ Hb) as [Hwf HN].
    pose proof Hwf as [Hlen Hmax].
    apply add_valid in Hrun as (_ & HN' & Hcells); cbn [self] in *;
      [|exact Hwf|lia].
    rewrite HN' in Hj.
    pose proof (lb_bounds j ltac:(lia)) as Hbj.
    rewrite (Hcells j ltac:(lia)), (IH j Hj). cbn [fmap option_fmap option_map].
    rewrite range_sum_bump by (rewrite lowbit_eq; lia).
    unfold in_span. destruct (_ && _); reflexivity.
Qed.

Lemma sum_readonly fuel id m r m' :
  sum fuel id m = Done (r, m') -> self m' = self m.
Proof. apply sum_loop_readonly. Qed.

End Compact_results.

(** ** BIT_1: what [createFenwickTree] builds is reachable *)

Section BIT1_create.
Import BIT1 BIT1_reach.

Lemma createFenwickTree_loop_built cap (input : list Z) fuel : forall idx e t t',
  Z.of_nat (length input) = cap + 1 -> 1 <= idx <= cap + 1 ->
  built cap e t ->
  (forall j, 1 <= j < idx -> Some (e j) = Int32.wrap <$> vec_get input j) ->
  (forall j, idx <= j -> e j = 0) ->
  createFenwickTree_loop fuel input idx t = Done (tt, t') ->
  exists e', built cap e' t' /\
    forall j, 1 <= j <= cap -> Some (e' j) = Int32.wrap <$> vec_get input j.
Proof.
  induction fuel as [|fuel IH]; intros idx e t t' Hlen Hidx Hb Hlow Hhigh;
    pose proof (built_well_formed _ _ _ Hb) as [(_ & Hmax & _) Hsz];
    cbn [createFenwickTree_loop]; unfold Int32.to_size_t;
    rewrite Z.mod_small by (unfold Int32.max_int in *; lia);
    (destruct (Z.ltb_spec idx (Z.of_nat (length input))) as [Hlt|Hge];
     [|intros [= <-]; exists e; split; [exact Hb|]; intros j Hj; apply Hlow; lia]).
  - discriminate.
  - destruct (vec_get_Some input idx) as [x Hx]; [lia|]. rewrite Hx.
    unfold bind at 1.
    destruct (updateTree (S fuel) idx x t) as [[[] t1]| |] eqn:Hrun;
      try discriminate.
    assert (Hnext : Int32.add idx 1 = idx + 1).
    { apply wrap_small.
      unfold Int32.in_range, Int32.min_int, Int32.max_int in *. lia. }
    rewrite Hnext. apply (IH (idx + 1) (bump e idx x) t1 t'); [exact Hlen | lia | | |].
    + apply (built_update cap e t (S fuel) idx x t1 Hb); [lia | exact Hrun].
    + intros j Hj. unfold bump. destruct (Z.eqb_spec j idx) as [->|Hne].
      * rewrite Hx, (Hhigh idx) by lia. reflexivity.
      * apply Hlow. lia.
    + intros j Hj. unfold bump. destruct (Z.eqb_spec j idx); [lia|].
      apply Hhigh. lia.
Qed.

(** [createFenwickTree] on a fresh object and an input of [cap + 1] cells
    (the dummy and [cap] values) leaves a reachable capacity-[cap] tree
    whose logical elements are the input values. *)
Lemma createFenwickTree_built cap (input : list Z) fuel t :
  0 <= cap -> Z.of_nat (length input) = cap + 1 -> cap + 1 <= Int32.max_int ->
  createFenwickTree fuel input new = Done (tt, t) ->
  exists e, built cap e t /\
    forall j, 1 <= j <= cap -> Some (e j) = Int32.wrap <$> vec_get input j.
Proof.
  intros Hcap Hlen Hmax. unfold createFenwickTree, bind, get, put, Int32.of_size_t.
  rewrite Hlen, wrap_small
    by (unfold Int32.in_range, Int32.min_int, Int32.max_int in *; lia).
  destruct (Z.ltb_spec (cap + 1) 0); [lia|].
  cbn [new _bitArray]. unfold vec_resize.
  rewrite take_nil, Nat.sub_0_r. cbn [app].
  apply (createFenwickTree_loop_built cap input fuel 1 (fun _ => 0));
    [exact Hlen | lia | apply built_create; assumption | intros j Hj; lia
    | reflexivity].
Qed.

End BIT1_create.

(** ** The example objects are reachable *)

Lemma tree5_built : BIT1_reach.built 5 elems5 tree5.
Proof.
  unfold elems5, tree5.
  apply (BIT1_reach.built_update 5 _
           {| BIT1._size := 6; BIT1._bitArray := [0; 1; 3; 3; 10; 0] |} 6 5 5);
    [|lia|reflexivity].
  apply (BIT1_reach.built_update 5 _
           {| BIT1._size := 6; BIT1._bitArray := [0; 1; 3; 3; 6; 0] |} 6 4 4);
    [|lia|reflexivity].
  apply (BIT1_reach.built_update 5 _
           {| BIT1._size := 6; BIT1._bitArray := [0; 1; 3; 0; 3; 0] |} 6 3 3);
    [|lia|reflexivity].
  apply (BIT1_reach.built_update 5 _
           {| BIT1._size := 6; BIT1._bitArray := [0; 1; 1; 0; 1; 0] |} 6 2 2);
    [|lia|reflexivity].
  apply (BIT1_reach.built_update 5 _
           {| BIT1._size := 6; BIT1._bitArray := [0; 0; 0; 0; 0; 0] |} 6 1 1);
    [|lia|reflexivity].
  apply (BIT1_reach.built_create 5); unfold Int32.max_int; lia.
Qed.

Lemma compact5_built : Compact_reach.built 5 elems5 compact5.
Proof.
  unfold elems5.
  change compact5 with
    (Compact.self {| Compact.self := compact5; Compact.accessed := [5; 5] |}).
  apply (Compact_reach.built_add 5 _
           {| Compact.N := 6; Compact.BIT := [0; 1; 3; 3; 10; 0] |} [] 6 5 5);
    [|lia|reflexivity].
  change {| Compact.N := 6; Compact.BIT := [0; 1; 3; 3; 10; 0] |} with
    (Compact.self {| Compact.self :=
                       {| Compact.N := 6; Compact.BIT := [0; 1; 3; 3; 10; 0] |};
                     Compact.accessed := [4; 4] |}).
  apply (Compact_reach.built_add 5 _
           {| Compact.N := 6; Compact.BIT := [0; 1; 3; 3; 6; 0] |} [] 6 4 4);
    [|lia|reflexivity].
  change {| Compact.N := 6; Compact.BIT := [0; 1; 3; 3; 6; 0] |} with
    (Compact.self {| Compact.self :=
                       {| Compact.N := 6; Compact.BIT := [0; 1; 3; 3; 6; 0] |};
                     Compact.accessed := [4; 4; 3; 3] |}).
  apply (Compact_reach.built_add 5 _
           {| Compact.N := 6; Compact.BIT := [0; 1; 3; 0; 3; 0] |} [] 6 3 3);
    [|lia|reflexivity].
  change {| Compact.N := 6; Compact.BIT := [0; 1; 3; 0; 3; 0] |} with
    (Compact.self {| Compact.self :=
                       {| Compact.N := 6; Compact.BIT := [0; 1; 3; 0; 3; 0] |};
                     Compact.accessed := [4; 4; 2; 2] |}).
  apply (Compact_reach.built_add 5 _
           {| Compact.N := 6; Compact.BIT := [0; 1; 1; 0; 1; 0] |} [] 6 2 2);
    [|lia|reflexivity].
  change {| Compact.N := 6; Compact.BIT := [0; 1; 1; 0; 1; 0] |} with
    (Compact.self {| Compact.self :=
                       {| Compact.N := 6; Compact.BIT := [0; 1; 1; 0; 1; 0] |};
                     Compact.accessed := [4; 4; 2; 2; 1; 1] |}).
  apply (Compact_reach.built_add 5 _
           {| Compact.N := 6; Compact.BIT := [0; 0; 0; 0; 0; 0] |} [] 6 1 1);
    [|lia|reflexivity].
  change {| Compact.N := 6; Compact.BIT := [0; 0; 0; 0; 0; 0] |} with
    (Compact.self (Compact.start
       {| Compact.N := 6; Compact.BIT := [0; 0; 0; 0; 0; 0] |})).
  apply (Compact_reach.built_init 5); [lia|unfold Int32.max_int; lia|reflexivity].
Qed.

(** * The claims *)

(** C1. In every structure built by valid updates on a capacity-[cap] tree,
    the aggregate cell at every valid index [i] holds the sum of the logical
    elements over [(i - lowbit i, i]].  One more valid update returns (given
    fuel [cap]; for [updateTree] with [cap < 2^30], where [getNext] cannot
    overflow, for the compact [add] with every capacity) and gives a
    structure of the same kind where this holds again for the updated
    elements; so does any update that returns, whatever its fuel.  The
    queries ([getPrefixSum], [getSum], [getOriginalValue], the compact
    [sum]) return at valid indices, and whenever they return they return
    the object they were given.  Both variants. *)
Theorem aggregate_invariant (cap i : Z) (e : Z -> Z) :
  1 <= i <= cap ->
  (forall t, BIT1_reach.built cap e t ->
     vec_get (BIT1._bitArray t) i
       = Some (range_sum e (i - Compact.lowbit i) i) /\
     (forall fuel k d t', 1 <= k <= cap ->
        BIT1.updateTree fuel k d t = Done (tt, t') ->
        vec_get (BIT1._bitArray t') i
          = Some (range_sum (bump e k d) (i - Compact.lowbit i) i)) /\
     (cap < 2 ^ 30 ->
      forall fuel k d, 1 <= k <= cap -> (Z.to_nat cap <= fuel)%nat ->
        exists t',
          BIT1.updateTree fuel k d t = Done (tt, t') /\
          BIT1_reach.built cap (bump e k d) t' /\
          vec_get (BIT1._bitArray t') i
            = Some (range_sum (bump e k d) (i - Compact.lowbit i) i)) /\
     (forall fuel idx r t', BIT1.getPrefixSum fuel idx t = Done (r, t') -> t' = t) /\
     (forall fuel a b r t', BIT1.getSum fuel a b t = Done (r, t') -> t' = t) /\
     (forall fuel idx r t',
        BIT1.getOriginalValue fuel idx t = Done (r, t') -> t' = t) /\
     (forall fuel k, 0 <= k <= cap -> (Z.to_nat cap <= fuel)%nat ->
        exists r, BIT1.getPrefixSum fuel k t = Done (r, t)) /\
     (forall fuel a b, 1 <= a -> a <= b -> b <= cap ->
        (Z.to_nat cap <= fuel)%nat ->
        exists r, BIT1.getSum fuel a b t = Done (r, t)) /\
     (forall fuel k, 1 <= k <= cap -> (Z.to_nat cap <= fuel)%nat ->
        exists r, BIT1.getOriginalValue fuel k t = Done (r, t))) /\
  (forall c, Compact_reach.built cap e c ->
     vec_get (Compact.BIT c) i
       = Some (range_sum e (i - Compact.lowbit i) i) /\
     (forall fuel k d log m', 1 <= k <= cap ->
        Compact.add fuel k d {| Compact.self := c; Compact.accessed := log |}
          = Done (tt, m') ->
        vec_get (Compact.BIT (Compact.self m')) i
          = Some (range_sum (bump e k d) (i - Compact.lowbit i) i)) /\
     (forall fuel k d log, 1 <= k <= cap -> (Z.to_nat cap <= fuel)%nat ->
        exists m',
          Compact.add fuel k d {| Compact.self := c; Compact.accessed := log |}
            = Done (tt, m') /\
          Compact_reach.built cap (bump e k d) (Compact.self m') /\
          vec_get (Compact.BIT (Compact.self m')) i
            = Some (range_sum (bump e k d) (i - Compact.lowbit i) i)) /\
     (forall fuel id log r m',
        Compact.sum fuel id {| Compact.self := c; Compact.accessed := log |}
          = Done (r, m') ->
        Compact.self m' = c) /\
     (forall fuel k log, 0 <= k <= cap -> (Z.to_nat cap <= fuel)%nat ->
        exists r m',
          Compact.sum fuel k {| Compact.self := c; Compact.accessed := log |}
            = Done (r, m') /\
          Compact.self m' = c)).
Proof.
  intros Hi. split.
  - intros t Hb. destruct (built_well_formed _ _ _ Hb) as [Hwf Hsz].
    assert (Hstep : forall fuel k d t', 1 <= k <= cap ->
              BIT1.updateTree fuel k d t = Done (tt, t') ->
              BIT1_reach.built cap (bump e k d) t' /\
              vec_get (BIT1._bitArray t') i
                = Some (range_sum (bump e k d) (i - Compact.lowbit i) i)).
    { intros fuel k d t' Hk Hrun.
      pose proof (BIT1_reach.built_update cap e t fuel k d t' Hb Hk Hrun) as Hb'.
      destruct (built_well_formed _ _ _ Hb') as [_ Hsz'].
      split; [exact Hb'|]. apply (built_aggregates_ok _ _ _ Hb'). lia. }
    split; [apply (built_aggregates_ok _ _ _ Hb); lia|].
    split; [intros fuel k d t' Hk Hrun; apply (Hstep fuel k d t' Hk Hrun)|].
    split.
    { intros Hcap fuel k d Hk Hfuel.
      destruct (updateTree_returns d fuel k t Hwf) as [t' Hrun]; [lia|lia|lia|].
      exists t'. split; [exact Hrun|]. exact (Hstep fuel k d t' Hk Hrun). }
    split; [intros fuel idx r t'; apply getPrefixSum_readonly|].
    split; [intros fuel a b r t'; apply getSum_readonly|].
    split; [intros fuel idx r t'; apply getOriginalValue_readonly|].
    split.
    { intros fuel k Hk Hfuel. exists (range_sum e 0 k).
      apply (getPrefixSum_built cap e t k fuel Hb Hk). lia. }
    split.
    { intros fuel a b Ha Hab Hbc Hfuel.
      destruct (getSum_prefix t a b fuel Hwf) as (p1 & p0 & _ & _ & Hrun);
        [lia | lia | lia |].
      exists (Int32.sub p1 p0). exact Hrun. }
    intros fuel k Hk Hfuel.
    destruct (getOriginalValue_prefix t k fuel Hwf) as (p1 & p0 & _ & _ & Hrun);
      [lia | lia |].
    exists (Int32.sub p1 p0). exact Hrun.
  - intros c Hb. destruct (compact_built_well_formed _ _ _ Hb) as [Hwf HN].
    assert (Hstep : forall fuel k d log m', 1 <= k <= cap ->
              Compact.add fuel k d
                  {| Compact.self := c; Compact.accessed := log |}
                = Done (tt, m') ->
              Compact_reach.built cap (bump e k d) (Compact.self m') /\
              vec_get (Compact.BIT (Compact.self m')) i
                = Some (range_sum (bump e k d) (i - Compact.lowbit i) i)).
    { intros fuel k d log m' Hk Hrun.
      pose proof (Compact_reach.built_add cap e c log fuel k d m' Hb Hk Hrun)
        as Hb'.
      destruct (compact_built_well_formed _ _ _ Hb') as [_ HN'].
      split; [exact Hb'|]. apply (compact_built_aggregates_ok _ _ _ Hb'). lia. }
    split; [apply (compact_built_aggregates_ok _ _ _ Hb); lia|].
    split; [intros fuel k d log m' Hk Hrun; apply (Hstep fuel k d log m' Hk Hrun)|].
    split.
    { intros fuel k d log Hk Hfuel. pose proof Hwf as [Hlen Hmax].
      pose proof (lb_bounds k ltac:(lia)) as Hbk.
      destruct (add_spec k d fuel k
                  {| Compact.self := c; Compact.accessed := log |})
        as (m' & l0 & Hrun & _); cbn [Compact.self];
        [exact Hwf | lia | intros _; apply in_span_spec; lia | lia |].
      exists m'. split; [exact Hrun|]. exact (Hstep fuel k d log m' Hk Hrun). }
    split.
    { intros fuel id log r m' Hrun. apply sum_readonly in Hrun. exact Hrun. }
    intros fuel k log Hk Hfuel.
    destruct (sum_loop_spec fuel k 0
                {| Compact.self := c; Compact.accessed := log |})
      as (r & l & Hs & _); cbn [Compact.self]; [exact Hwf | lia |].
    exists r, {| Compact.self := c; Compact.accessed := l ++ log |}.
    split; [exact Hs | reflexivity].
Qed.

Lemma aggregate_invariant_witness :
  (vec_get (BIT1._bitArray tree5) 4
     = Some (range_sum elems5 (4 - Compact.lowbit 4) 4) /\
   exists t',
     BIT1.updateTree 5 3 7 tree5 = Done (tt, t') /\
     BIT1_reach.built 5 (bump elems5 3 7) t' /\
     vec_get (BIT1._bitArray t') 4
       = Some (range_sum (bump elems5 3 7) (4 - Compact.lowbit 4) 4)) /\
  (vec_get (Compact.BIT compact5) 4
     = Some (range_sum elems5 (4 - Compact.lowbit 4) 4) /\
   exists m',
     Compact.add 5 3 7 {| Compact.self := compact5; Compact.accessed := [] |}
       = Done (tt, m') /\
     Compact_reach.built 5 (bump elems5 3 7) (Compact.self m') /\
     vec_get (Compact.BIT (Compact.self m')) 4
       = Some (range_sum (bump elems5 3 7) (4 - Compact.lowbit 4) 4)).
Proof.
  destruct (aggregate_invariant 5 4 elems5 ltac:(lia)) as [H1 H2].
  split.
  - destruct (H1 tree5 tree5_built) as (Hcell & _ & Hupd & _).
    split; [exact Hcell|].
    exact (Hupd ltac:(lia) 5%nat 3 7 ltac:(lia) ltac:(simpl; lia)).
  - destruct (H2 compact5 compact5_built) as (Hcell & _ & Hadd & _).
    split; [exact Hcell|].
    exact (Hadd 5%nat 3 7 [] ltac:(lia) ltac:(simpl; lia)).
Defined.

(** C2. On a reachable capacity-[cap] tree and for a valid index [i]:
    whenever [updateTree(i, delta)] returns, [getPrefixSum(k)] afterwards is
    larger by exactly [delta] (in [int] arithmetic) for [i <= k <= cap] and
    is the same for [0 <= k < i]; and [updateTree(i, delta)] does return
    when [cap < 2^30], where the index arithmetic of [getNext] cannot leave
    [int]. *)
Theorem update_shifts_prefix_sums (cap : Z) (e : Z -> Z)
    (t : BIT1.BinaryIndexedTree) (i delta : Z) (fuel : nat) :
  BIT1_reach.built cap e t -> 1 <= i <= cap ->
  (Z.to_nat cap <= fuel)%nat ->
  (cap < 2 ^ 30 -> exists t', BIT1.updateTree fuel i delta t = Done (tt, t')) /\
  (forall t', BIT1.updateTree fuel i delta t = Done (tt, t') ->
     forall k, 0 <= k <= cap ->
       exists s,
         BIT1.getPrefixSum fuel k t = Done (s, t) /\
         BIT1.getPrefixSum fuel k t'
           = Done (if i <=? k then Int32.add s delta else s, t')).
Proof.
  intros Hb Hi Hfuel. destruct (built_well_formed _ _ _ Hb) as [Hwf Hsz].
  split.
  - intros Hcap. apply updateTree_returns; [exact Hwf | lia | lia | lia].
  - intros t' Hrun k Hk.
    pose proof (BIT1_reach.built_update cap e t fuel i delta t' Hb Hi Hrun) as Hb'.
    exists (range_sum e 0 k).
    rewrite (getPrefixSum_built cap e t k fuel Hb Hk) by lia.
    rewrite (getPrefixSum_built cap _ t' k fuel Hb' Hk) by lia.
    split; [reflexivity|]. rewrite range_sum_bump by lia.
    destruct (Z.ltb_spec 0 i); [|lia]. reflexivity.
Qed.

Lemma update_shifts_prefix_sums_witness :
  (5 < 2 ^ 30 -> exists t', BIT1.updateTree 5 3 7 tree5 = Done (tt, t')) /\
  (forall t', BIT1.updateTree 5 3 7 tree5 = Done (tt, t') ->
     forall k, 0 <= k <= 5 ->
       exists s,
         BIT1.getPrefixSum 5 k tree5 = Done (s, tree5) /\
         BIT1.getPrefixSum 5 k t'
           = Done (if 3 <=? k then Int32.add s 7 else s, t')).
Proof.
  apply (update_shifts_prefix_sums 5 elems5 tree5 3 7 5 tree5_built);
    [lia | simpl; lia].
Defined.

(** C3. On a reachable tree of capacity [cap > 0] and for every index [i] in
    [[1, cap]], [getOriginalValue(i)] (which only walks from [i - 1] down to
    the point where the chains of [i] and [i - 1] meet) returns
    [getPrefixSum(i) - getPrefixSum(i - 1)]. *)
Theorem point_value_is_prefix_difference (cap : Z) (e : Z -> Z)
    (t : BIT1.BinaryIndexedTree) (i : Z) (fuel : nat) :
  BIT1_reach.built cap e t -> 0 < cap -> 1 <= i <= cap ->
  (Z.to_nat cap <= fuel)%nat ->
  exists p1 p0,
    BIT1.getPrefixSum fuel i t = Done (p1, t) /\
    BIT1.getPrefixSum fuel (i - 1) t = Done (p0, t) /\
    BIT1.getOriginalValue fuel i t = Done (Int32.sub p1 p0, t).
Proof.
  intros Hb _ Hi Hfuel. destruct (built_well_formed _ _ _ Hb) as [Hwf Hsz].
  apply getOriginalValue_prefix; [exact Hwf | lia | lia].
Qed.

Lemma point_value_is_prefix_difference_witness :
  exists p1 p0,
    BIT1.getPrefixSum 5 4 tree5 = Done (p1, tree5) /\
    BIT1.getPrefixSum 5 (4 - 1) tree5 = Done (p0, tree5) /\
    BIT1.getOriginalValue 5 4 tree5 = Done (Int32.sub p1 p0, tree5).
Proof.
  apply (point_value_is_prefix_difference 5 elems5 tree5 4 5 tree5_built);
    [lia | lia | simpl; lia].
Defined.

(** C4. On a reachable capacity-[cap] tree and for [1 <= i <= j <= cap], the
    combined walk of [getSum(i, j)] returns
    [getPrefixSum(j) - getPrefixSum(i - 1)]. *)
Theorem range_sum_is_prefix_difference (cap : Z) (e : Z -> Z)
    (t : BIT1.BinaryIndexedTree) (i j : Z) (fuel : nat) :
  BIT1_reach.built cap e t -> 1 <= i -> i <= j -> j <= cap ->
  (Z.to_nat cap <= fuel)%nat ->
  exists p1 p0,
    BIT1.getPrefixSum fuel j t = Done (p1, t) /\
    BIT1.getPrefixSum fuel (i - 1) t = Done (p0, t) /\
    BIT1.getSum fuel i j t = Done (Int32.sub p1 p0, t).
Proof.
  intros Hb Hi Hij Hj Hfuel. destruct (built_well_formed _ _ _ Hb) as [Hwf Hsz].
  apply getSum_prefix; [exact Hwf | lia | lia | lia].
Qed.

Lemma range_sum_is_prefix_difference_witness :
  exists p1 p0,
    BIT1.getPrefixSum 5 4 tree5 = Done (p1, tree5) /\
    BIT1.getPrefixSum 5 (2 - 1) tree5 = Done (p0, tree5) /\
    BIT1.getSum 5 2 4 tree5 = Done (Int32.sub p1 p0, tree5).
Proof.
  apply (range_sum_is_prefix_difference 5 elems5 tree5 2 4 5 tree5_built);
    [lia | lia | lia | simpl; lia].
Defined.

(** C5 as stated fails: on the tree of [main] (capacity 5, elements summing
    to 15) [getPrefixSum(6)] returns 0, not 15, and so does the compact
    [sum(6)]. *)
Lemma prefix_sum_beyond_capacity_counterexample :
  BIT1.createFenwickTree 6 BIT1.ARR BIT1.new = Done (tt, tree5) /\
  BIT1.getPrefixSum 6 5 tree5 = Done (15, tree5) /\
  BIT1.getPrefixSum 6 6 tree5 = Done (0, tree5) /\
  BIT1.getPrefixSum 6 6 tree5 <> Done (15, tree5) /\
  Compact.sum 6 6 (Compact.start compact5) = Done (0, Compact.start compact5).
Proof.
  split; [reflexivity|]. split; [reflexivity|]. split; [reflexivity|].
  split; [discriminate|reflexivity].
Qed.

(** C5, amended. On a reachable capacity-[cap] structure and for every index
    strictly greater than [cap], the prefix-sum query returns 0 in both
    variants ([getPrefixSum] by its guard [idx >= _size], [sum] because
    [check] fails at once) and leaves the object as it was. *)
Theorem prefix_sum_beyond_capacity_is_zero (cap : Z) (e : Z -> Z) (idx : Z)
    (fuel : nat) :
  cap < idx ->
  (forall t, BIT1_reach.built cap e t ->
     BIT1.getPrefixSum fuel idx t = Done (0, t)) /\
  (forall c log, Compact_reach.built cap e c ->
     Compact.sum fuel idx {| Compact.self := c; Compact.accessed := log |}
       = Done (0, {| Compact.self := c; Compact.accessed := log |})).
Proof.
  intros Hidx. split.
  - intros t Hb. destruct (built_well_formed _ _ _ Hb) as [_ Hsz].
    unfold BIT1.getPrefixSum, bind, BIT1.size, ret.
    destruct (Z.geb_spec idx (BIT1._size t)); [reflexivity|lia].
  - intros c log Hb. destruct (compact_built_well_formed _ _ _ Hb) as [_ HN].
    unfold Compact.sum. rewrite sum_loop_eq. cbn [Compact.self].
    rewrite guard_false by lia. reflexivity.
Qed.

Lemma prefix_sum_beyond_capacity_is_zero_witness :
  BIT1.getPrefixSum 6 6 tree5 = Done (0, tree5) /\
  Compact.sum 6 6 {| Compact.self := compact5; Compact.accessed := [] |}
    = Done (0, {| Compact.self := compact5; Compact.accessed := [] |}).
Proof.
  split.
  - exact (proj1 (prefix_sum_beyond_capacity_is_zero 5 elems5 6 6 ltac:(lia))
                 tree5 tree5_built).
  - exact (proj2 (prefix_sum_beyond_capacity_is_zero 5 elems5 6 6 ltac:(lia))
                 compact5 [] compact5_built).
Defined.

(** C6 as stated fails: on the capacity-5 structures an update at index 6
    returns normally with the object untouched, and so does the compact
    [add] at index 0; no error is raised. *)
Lemma update_out_of_range_counterexample :
  BIT1.updateTree 0 6 5 tree5 = Done (tt, tree5) /\
  Compact.add 0 0 5 (Compact.start compact5) = Done (tt, Compact.start compact5) /\
  Compact.add 0 6 5 (Compact.start compact5) = Done (tt, Compact.start compact5).
Proof. repeat split; reflexivity. Qed.

(** C6, amended. Neither variant has an error to raise.  On a reachable
    capacity-[cap] structure, [updateTree] at an index above [cap] returns
    normally and leaves the object as it was; the compact [add] does so at
    every index outside [[1, cap]], with no vector access. *)
Theorem update_out_of_range_is_silent (cap : Z) (e : Z -> Z) (idx delta : Z)
    (fuel : nat) :
  (forall t, BIT1_reach.built cap e t -> cap < idx ->
     BIT1.updateTree fuel idx delta t = Done (tt, t)) /\
  (forall c log, Compact_reach.built cap e c -> idx < 1 \/ cap < idx ->
     Compact.add fuel idx delta {| Compact.self := c; Compact.accessed := log |}
       = Done (tt, {| Compact.self := c; Compact.accessed := log |})).
Proof.
  split.
  - intros t Hb Hidx. destruct (built_well_formed _ _ _ Hb) as [_ Hsz].
    rewrite updateTree_eq.
    destruct (Z.ltb_spec idx (BIT1._size t)); [lia|reflexivity].
  - intros c log Hb Hidx. destruct (compact_built_well_formed _ _ _ Hb) as [_ HN].
    rewrite add_eq. cbn [Compact.self]. rewrite guard_false by lia. reflexivity.
Qed.

Lemma update_out_of_range_is_silent_witness :
  BIT1.updateTree 0 6 5 tree5 = Done (tt, tree5) /\
  Compact.add 0 0 5 {| Compact.self := compact5; Compact.accessed := [] |}
    = Done (tt, {| Compact.self := compact5; Compact.accessed := [] |}).
Proof.
  split.
  - exact (proj1 (update_out_of_range_is_silent 5 elems5 6 5 0)
                 tree5 tree5_built ltac:(lia)).
  - exact (proj2 (update_out_of_range_is_silent 5 elems5 0 5 0)
                 compact5 [] compact5_built ltac:(lia)).
Defined.

(** C7 as stated fails: [init(0)] and [init(-3)] return normally and leave
    the fresh, empty object as it was; [createFenwickTree] accepts an input
    that holds the dummy only (capacity 0) or nothing at all. *)
Lemma create_capacity_counterexample :
  Compact.init 0 (Compact.start Compact.new)
    = Done (tt, Compact.start Compact.new) /\
  Compact.init (-3) (Compact.start Compact.new)
    = Done (tt, Compact.start Compact.new) /\
  BIT1.createFenwickTree 0 [0] BIT1.new
    = Done (tt, {| BIT1._size := 1; BIT1._bitArray := [0] |}) /\
  BIT1.createFenwickTree 0 [] BIT1.new = Done (tt, BIT1.new).
Proof. repeat split; reflexivity. Qed.

(** C7, amended. [init(size)] with [size <= 0] returns without an error and
    without touching the object; with [size > 0] on a freshly constructed
    object it sets [N = size] and leaves a buffer of [size] cells, all zero. *)
Theorem init_capacity_guard (size : Z) :
  (size <= 0 -> forall m, Compact.init size m = Done (tt, m)) /\
  (0 < size ->
     Compact.init size (Compact.start Compact.new)
       = Done (tt, Compact.start
                     {| Compact.N := size;
                        Compact.BIT := replicate (Z.to_nat size) 0 |})).
Proof.
  split.
  - intros H m. apply init_nonpositive, H.
  - intros H. rewrite init_positive by exact H.
    cbn [Compact.start Compact.self Compact.accessed Compact.new Compact.BIT].
    rewrite vec_resize_nil. reflexivity.
Qed.

Lemma init_capacity_guard_witness :
  Compact.init (-3) (Compact.start compact5) = Done (tt, Compact.start compact5) /\
  Compact.init 6 (Compact.start Compact.new)
    = Done (tt, Compact.start
                  {| Compact.N := 6; Compact.BIT := replicate (Z.to_nat 6) 0 |}).
Proof.
  split.
  - exact (proj1 (init_capacity_guard (-3)) ltac:(lia) (Compact.start compact5)).
  - exact (proj2 (init_capacity_guard 6) ltac:(lia)).
Defined.

(** C8. [createFenwickTree] on [[_, 1, 2, 3, 4, 5]] (whatever the unused
    cell 0 holds) gives a tree on which
    [getOriginalValue(i) = i] for [i = 1..5], [getPrefixSum(5) = 15],
    [getSum(2, 4) = 9], [getOriginalValue(3) = 3] and [getSum(4, 2) = 0]
    (the empty range is not an error). *)
Theorem main_scenario (fuel : nat) (dummy : Z) :
  (6 <= fuel)%nat ->
  BIT1.createFenwickTree fuel [dummy; 1; 2; 3; 4; 5] BIT1.new = Done (tt, tree5) /\
  (forall i, 1 <= i <= 5 -> BIT1.getOriginalValue fuel i tree5 = Done (i, tree5)) /\
  BIT1.getPrefixSum fuel 5 tree5 = Done (15, tree5) /\
  BIT1.getSum fuel 2 4 tree5 = Done (9, tree5) /\
  BIT1.getOriginalValue fuel 3 tree5 = Done (3, tree5) /\
  BIT1.getSum fuel 4 2 tree5 = Done (0, tree5).
Proof.
  intros Hfuel. do 6 (destruct fuel as [|fuel]; [lia|]). clear Hfuel.
  split; [reflexivity|].
  split.
  { intros i Hi.
    assert (Hcases : i = 1 \/ i = 2 \/ i = 3 \/ i = 4 \/ i = 5) by lia.
    destruct Hcases as [->|[->|[->|[->| ->]]]]; reflexivity. }
  repeat split; reflexivity.
Qed.

Lemma main_scenario_witness :
  BIT1.createFenwickTree 6 [0; 1; 2; 3; 4; 5] BIT1.new = Done (tt, tree5) /\
  (forall i, 1 <= i <= 5 -> BIT1.getOriginalValue 6 i tree5 = Done (i, tree5)) /\
  BIT1.getPrefixSum 6 5 tree5 = Done (15, tree5) /\
  BIT1.getSum 6 2 4 tree5 = Done (9, tree5) /\
  BIT1.getOriginalValue 6 3 tree5 = Done (3, tree5) /\
  BIT1.getSum 6 4 2 tree5 = Done (0, tree5).
Proof. apply (main_scenario 6 0). lia. Defined.

(** ** BIT_1: termination of [updateTree] *)

Section BIT1_termination.
Import BIT1 BIT1_reach.

Lemma write_well_formed t idx x :
  well_formed t -> 0 <= idx < _size t ->
  well_formed {| _size := _size t;
                 _bitArray := <[Z.to_nat idx := Int32.wrap x]> (_bitArray t) |}.
Proof.
  intros (Hlen & Hmax & Hcells) Hidx. repeat split; simpl; [|lia|].
  - rewrite length_insert. lia.
  - apply Forall_insert; [exact Hcells | apply wrap_in_range].
Qed.

(** Index 0 is a fixed point of [getNext]: the loop spins on it. *)
Lemma updateTree_zero_spins value fuel : forall t,
  well_formed t -> 0 < _size t -> updateTree fuel 0 value t = Timeout.
Proof.
  induction fuel as [|fuel IH]; intros t Hwf Hsz;
    pose proof Hwf as (Hlen & Hmax & Hcells);
    rewrite updateTree_eq; destruct (Z.ltb_spec 0 (_size t)); try lia;
    [reflexivity|].
  destruct (vec_get_Some (_bitArray t) 0) as [x Hx]; [lia|]. rewrite Hx.
  rewrite (vec_set_Some _ 0) by lia.
  change (getNext 0) with 0. apply IH; [|exact Hsz].
  apply (write_well_formed t 0 (x + value) Hwf). lia.
Qed.

(** From any index at least 1 the loop stops within [_size - idx]
    iterations, overflow or not. *)
Lemma updateTree_halts value fuel : forall idx t,
  well_formed t -> 1 <= idx ->
  (Z.to_nat (_size t - idx) < fuel)%nat ->
  updateTree fuel idx value t <> Timeout.
Proof.
  induction fuel as [|fuel IH]; intros idx t Hwf Hidx Hfuel; [lia|].
  pose proof Hwf as (Hlen & Hmax & Hcells).
  rewrite updateTree_eq. destruct (Z.ltb_spec idx (_size t)); [|discriminate].
  destruct (vec_get_Some (_bitArray t) idx) as [x Hx]; [lia|]. rewrite Hx.
  rewrite (vec_set_Some _ idx) by lia.
  pose proof (lb_bounds idx ltac:(lia)) as Hlb.
  pose proof (write_well_formed t idx (x + value) Hwf ltac:(lia)) as Hwf1.
  destruct (Z.le_gt_cases (idx + lb idx) Int32.max_int) as [Hfit|Hover].
  - rewrite getNext_eq by lia. apply IH; [exact Hwf1 | lia | simpl; lia].
  - assert (Hneg : getNext idx < 0).
    { unfold getNext, Int32.add, Int32.and. rewrite neg_eq by lia.
      rewrite wrap_high; unfold Int32.max_int in *; lia. }
    rewrite updateTree_eq. cbn [_size _bitArray].
    destruct (Z.ltb_spec (getNext idx) (_size t)); [|lia].
    destruct fuel as [|fuel]; [lia|].
    rewrite vec_get_None by lia. discriminate.
Qed.

End BIT1_termination.

(** C9. On a consistent object the loop of [updateTree] stops from every
    starting index [idx >= 1] (with [_size <= 2^30], where [getNext] cannot
    overflow, it returns normally): [idx + (idx & -idx) > idx] for every
    [idx >= 1], and that is what [getNext] computes as long as it fits an
    [int].  Whereas [getNext 0 = 0], and from index 0 on a non-empty tree the
    loop is still running whatever fuel it is given. *)
Theorem updateTree_termination (t : BIT1.BinaryIndexedTree) (value : Z)
    (fuel : nat) :
  BIT1_reach.well_formed t ->
  (forall idx, 1 <= idx -> (Z.to_nat (BIT1._size t) <= fuel)%nat ->
     BIT1.updateTree fuel idx value t <> Timeout /\
     (BIT1._size t <= 2 ^ 30 ->
      exists t', BIT1.updateTree fuel idx value t = Done (tt, t'))) /\
  (forall idx, 1 <= idx ->
     idx < idx + Z.land idx (- idx) /\
     (idx + Z.land idx (- idx) <= Int32.max_int ->
      BIT1.getNext idx = idx + Z.land idx (- idx))) /\
  BIT1.getNext 0 = 0 /\
  (0 < BIT1._size t -> BIT1.updateTree fuel 0 value t = Timeout).
Proof.
  intros Hwf. split; [|split; [|split]].
  - intros idx Hidx Hfuel. pose proof Hwf as (Hlen & Hmax & _). split.
    + destruct (Z.lt_ge_cases idx (BIT1._size t)).
      * apply updateTree_halts; [exact Hwf | exact Hidx | lia].
      * rewrite updateTree_eq.
        destruct (Z.ltb_spec idx (BIT1._size t)); [lia|discriminate].
    + intros Hsz. apply updateTree_returns; [exact Hwf | exact Hsz | exact Hidx | lia].
  - intros idx Hidx. pose proof (lb_bounds idx ltac:(lia)). split; [lia|].
    intros Hfit. apply getNext_eq; lia.
  - reflexivity.
  - apply updateTree_zero_spins, Hwf.
Qed.

Lemma updateTree_termination_witness :
  (BIT1.updateTree 6 3 1 tree5 <> Timeout /\
   (BIT1._size tree5 <= 2 ^ 30 ->
    exists t', BIT1.updateTree 6 3 1 tree5 = Done (tt, t'))) /\
  BIT1.updateTree 6 0 1 tree5 = Timeout.
Proof.
  pose proof (proj1 (built_well_formed 5 elems5 tree5 tree5_built)) as Hwf.
  split.
  - apply (proj1 (updateTree_termination tree5 1 6 Hwf) 3); [lia | simpl; lia].
  - apply (proj2 (proj2 (proj2 (updateTree_termination tree5 1 6 Hwf)))).
    simpl. lia.
Defined.

(** C10. In the compact variant [check(id)] is true exactly when
    [1 <= id < N]; on a consistent object [add] and [sum] return for every
    integer index, every index at which they subscript the buffer lies in
    [[1, N)], and for an index outside [[1, N)] [add] leaves the object as it
    was and [sum] returns 0, both without any access. *)
Theorem compact_accesses_guarded (m : Compact.machine) (id num : Z)
    (fuel : nat) :
  Compact_reach.well_formed (Compact.self m) ->
  (Z.to_nat (Compact.N (Compact.self m)) <= fuel)%nat ->
  (exists b, Compact.check id m = Done (b, m) /\
             (b = true <-> 1 <= id < Compact.N (Compact.self m))) /\
  (exists m' l,
     Compact.add fuel id num m = Done (tt, m') /\
     Compact.accessed m' = l ++ Compact.accessed m /\
     Forall (fun k => 1 <= k < Compact.N (Compact.self m)) l /\
     (~ 1 <= id < Compact.N (Compact.self m) -> m' = m)) /\
  (exists r l,
     Compact.sum fuel id m
       = Done (r, {| Compact.self := Compact.self m;
                     Compact.accessed := l ++ Compact.accessed m |}) /\
     Forall (fun k => 1 <= k < Compact.N (Compact.self m)) l /\
     (~ 1 <= id < Compact.N (Compact.self m) -> r = 0 /\ l = [])).
Proof.
  intros Hwf Hfuel. pose proof Hwf as [Hlen Hmax].
  split; [apply check_spec|]. split.
  - destruct (Z.le_gt_cases 1 id) as [H1|H1];
      [destruct (Z.lt_ge_cases id (Compact.N (Compact.self m))) as [Hlt|Hge]|].
    + pose proof (lb_bounds id ltac:(lia)) as Hb.
      destruct (add_spec id num fuel id m Hwf H1)
        as (m' & l & Hrun & _ & _ & Hacc & Hl & _);
        [intros _; apply in_span_spec; lia | lia |].
      exists m', l. repeat split; try assumption. lia.
    + exists m, []. rewrite add_eq, guard_false by lia.
      repeat split; auto.
    + exists m, []. rewrite add_eq, guard_false by lia.
      repeat split; auto.
  - unfold Compact.sum.
    destruct (sum_loop_spec fuel id 0 m Hwf ltac:(lia)) as (r & l & Hrun & Hl & Hout).
    exists r, l. repeat split; try assumption; apply Hout; assumption.
Qed.

Lemma compact_accesses_guarded_witness :
  (exists m' l,
     Compact.add 6 (-4) 7 (Compact.start compact5) = Done (tt, m') /\
     Compact.accessed m' = l ++ [] /\
     Forall (fun k => 1 <= k < 6) l /\
     (~ 1 <= -4 < 6 -> m' = Compact.start compact5)) /\
  (exists r l,
     Compact.sum 6 5 (Compact.start compact5)
       = Done (r, {| Compact.self := compact5; Compact.accessed := l ++ [] |}) /\
     Forall (fun k => 1 <= k < 6) l /\
     (~ 1 <= 5 < 6 -> r = 0 /\ l = [])).
Proof.
  pose proof (proj1 (compact_built_well_formed 5 elems5 compact5 compact5_built))
    as Hwf.
  split.
  - apply (proj1 (proj2 (compact_accesses_guarded (Compact.start compact5)
                           (-4) 7 6 Hwf ltac:(simpl; lia)))).
  - apply (proj2 (proj2 (compact_accesses_guarded (Compact.start compact5)
                           5 7 6 Hwf ltac:(simpl; lia)))).
Defined.

(** * Further properties of the code *)

(** ** Helper facts *)

Lemma prefix_difference e a b :
  0 <= a <= b ->
  Int32.sub (range_sum e 0 b) (range_sum e 0 a) = range_sum e a b.
Proof.
  intros H. rewrite !range_sum_zrange. unfold Int32.sub.
  rewrite wrap_sub_l, wrap_sub_r. f_equal.
  rewrite (zrange_split e 0 a b) by lia. lia.
Qed.

Lemma range_sum_single e i : range_sum e (i - 1) i = Int32.wrap (e i).
Proof.
  unfold range_sum. replace (Z.to_nat (i - (i - 1))) with 1%nat by lia.
  cbn [sum_from]. unfold Int32.add. f_equal.
  replace (i - 1 + Z.of_nat 1) with i by lia. lia.
Qed.

Lemma vec_ext (v w : list Z) :
  length v = length w ->
  (forall j, 0 <= j < Z.of_nat (length v) -> vec_get v j = vec_get w j) ->
  v = w.
Proof.
  intros Hlen H. apply list_eq. intros n.
  destruct (Nat.lt_ge_cases n (length v)) as [Hlt|Hge].
  - specialize (H (Z.of_nat n) ltac:(lia)). unfold vec_get in H.
    destruct (Z.leb_spec 0 (Z.of_nat n)); [|lia].
    rewrite Nat2Z.id in H. exact H.
  - rewrite !lookup_ge_None_2 by lia. reflexivity.
Qed.

Section BIT1_more.
Import BIT1 BIT1_reach.

Lemma built_elements_in_range cap e t :
  built cap e t -> forall j, Int32.in_range (e j).
Proof.
  induction 1 as [Hcap Hmax | e t fuel i d t' Hb IH Hi Hrun]; intros j.
  - apply in_range_0.
  - unfold bump. destruct (j =? i); [apply wrap_in_range | apply IH].
Qed.

(** What a returning [updateTree] at a valid index did. *)
Lemma updateTree_valid i d fuel t t' :
  well_formed t -> 1 <= i < _size t ->
  updateTree fuel i d t = Done (tt, t') ->
  well_formed t' /\ _size t' = _size t /\
  forall j, 0 <= j < _size t ->
    vec_get (_bitArray t') j =
    if in_span i j
    then (fun x => Int32.add x d) <$> vec_get (_bitArray t) j
    else vec_get (_bitArray t) j.
Proof.
  intros Hwf Hi Hrun. pose proof Hwf as (Hlen & Hmax & _).
  destruct (updateTree_well_formed _ _ _ _ _ Hwf Hrun) as [Hwf' Hsz].
  split; [exact Hwf'|]. split; [exact Hsz|]. intros j Hj.
  pose proof (lb_bounds i ltac:(lia)) as Hb.
  assert (Hii : in_span i i = true) by (apply in_span_spec; lia).
  rewrite (updateTree_cells i d fuel i t t' Hwf ltac:(lia) Hii Hrun j Hj).
  destruct (Z.leb_spec i j); [reflexivity|]. cbn [andb].
  replace (in_span i j) with false; [reflexivity|].
  symmetry. apply not_true_is_false. intros Hs.
  apply in_span_spec in Hs; lia.
Qed.

Lemma tree_ext t1 t2 :
  well_formed t1 -> well_formed t2 -> _size t1 = _size t2 ->
  (forall j, 0 <= j < _size t1 ->
     vec_get (_bitArray t1) j = vec_get (_bitArray t2) j) ->
  t1 = t2.
Proof.
  intros (Hl1 & _ & _) (Hl2 & _ & _) Hsz H.
  destruct t1 as [n1 v1], t2 as [n2 v2]; cbn [_size _bitArray] in *.
  subst n2. f_equal; [lia|].
  apply vec_ext; [lia|]. intros j Hj. apply H. lia.
Qed.

Lemma well_formed_cell t j x :
  well_formed t -> vec_get (_bitArray t) j = Some x -> Int32.in_range x.
Proof.
  intros (_ & _ & Hcells) Hx. unfold vec_get in Hx.
  destruct (0 <=? j); [|discriminate].
  rewrite Forall_lookup in Hcells. exact (Hcells _ _ Hx).
Qed.

End BIT1_more.

Section BIT1_element_sums.
Import BIT1 BIT1_reach.

Lemma getSum_built cap e t i j fuel :
  built cap e t -> 1 <= i -> i <= j -> j <= cap -> (Z.to_nat cap <= fuel)%nat ->
  getSum fuel i j t = Done (range_sum e (i - 1) j, t).
Proof.
  intros Hb Hi Hij Hj Hfuel. destruct (built_well_formed _ _ _ Hb) as [Hwf Hsz].
  destruct (getSum_prefix t i j fuel Hwf) as (p1 & p0 & H1 & H0 & Hrun);
    [lia | lia | lia |].
  rewrite (getPrefixSum_built cap e t j fuel Hb) in H1 by lia.
  rewrite (getPrefixSum_built cap e t (i - 1) fuel Hb) in H0 by lia.
  injection H1 as <-. injection H0 as <-.
  rewrite Hrun, prefix_difference by lia. reflexivity.
Qed.

Lemma getOriginalValue_built cap e t i fuel :
  built cap e t -> 1 <= i <= cap -> (Z.to_nat cap <= fuel)%nat ->
  getOriginalValue fuel i t = Done (e i, t).
Proof.
  intros Hb Hi Hfuel. destruct (built_well_formed _ _ _ Hb) as [Hwf Hsz].
  destruct (getOriginalValue_prefix t i fuel Hwf) as (p1 & p0 & H1 & H0 & Hrun);
    [lia | lia |].
  rewrite (getPrefixSum_built cap e t i fuel Hb) in H1 by lia.
  rewrite (getPrefixSum_built cap e t (i - 1) fuel Hb) in H0 by lia.
  injection H1 as <-. injection H0 as <-.
  rewrite Hrun, prefix_difference, range_sum_single by lia.
  rewrite wrap_small by (apply (built_elements_in_range _ _ _ Hb)).
  reflexivity.
Qed.

Lemma createFenwickTree_loop_returns cap (input : list Z) fuel : forall idx t,
  well_formed t -> _size t = cap + 1 -> cap < 2 ^ 30 ->
  Z.of_nat (length input) = cap + 1 -> 1 <= idx <= cap + 1 ->
  (Z.to_nat (cap + 1 - idx) <= fuel)%nat ->
  exists t', createFenwickTree_loop fuel input idx t = Done (tt, t').
Proof.
  induction fuel as [|fuel IH]; intros idx t Hwf Hsz Hcap Hlen Hidx Hfuel;
    cbn [createFenwickTree_loop]; unfold Int32.to_size_t;
    rewrite Z.mod_small by lia;
    (destruct (Z.ltb_spec idx (Z.of_nat (length input))) as [Hlt|Hge];
     [|exists t; reflexivity]).
  - lia.
  - destruct (vec_get_Some input idx) as [x Hx]; [lia|]. rewrite Hx.
    destruct (updateTree_returns x (S fuel) idx t Hwf) as [t1 Hrun];
      [lia | lia | lia |].
    unfold bind at 1. rewrite Hrun.
    destruct (updateTree_well_formed _ _ _ _ _ Hwf Hrun) as [Hwf1 Hsz1].
    assert (Hnext : Int32.add idx 1 = idx + 1).
    { apply wrap_small.
      unfold Int32.in_range, Int32.min_int, Int32.max_int in *. lia. }
    rewrite Hnext. apply IH; try assumption; lia.
Qed.

End BIT1_element_sums.

(** ** BIT_1: what the queries return *)

(** X1. On a reachable tree [getPrefixSum(k)], for [0 <= k <= cap], returns
    the sum in [int] arithmetic of the logical elements [1..k] and leaves
    the tree as it was. *)
Theorem prefix_sum_is_element_sum (cap : Z) (e : Z -> Z)
    (t : BIT1.BinaryIndexedTree) (k : Z) (fuel : nat) :
  BIT1_reach.built cap e t -> 0 <= k <= cap -> (Z.to_nat k <= fuel)%nat ->
  BIT1.getPrefixSum fuel k t = Done (range_sum e 0 k, t).
Proof. intros Hb Hk Hfuel. apply (getPrefixSum_built cap); assumption. Qed.

Lemma prefix_sum_is_element_sum_witness :
  BIT1.getPrefixSum 5 4 tree5 = Done (range_sum elems5 0 4, tree5).
Proof.
  apply (prefix_sum_is_element_sum 5 elems5 tree5 4 5 tree5_built);
    [lia | simpl; lia].
Defined.

(** X2. On a reachable tree [getSum(i, j)], for [1 <= i <= j <= cap],
    returns the sum in [int] arithmetic of the logical elements [i..j]. *)
Theorem range_query_is_element_sum (cap : Z) (e : Z -> Z)
    (t : BIT1.BinaryIndexedTree) (i j : Z) (fuel : nat) :
  BIT1_reach.built cap e t -> 1 <= i -> i <= j -> j <= cap ->
  (Z.to_nat cap <= fuel)%nat ->
  BIT1.getSum fuel i j t = Done (range_sum e (i - 1) j, t).
Proof. intros. apply (getSum_built cap); assumption. Qed.

Lemma range_query_is_element_sum_witness :
  BIT1.getSum 5 2 4 tree5 = Done (range_sum elems5 (2 - 1) 4, tree5).
Proof.
  apply (range_query_is_element_sum 5 elems5 tree5 2 4 5 tree5_built);
    [lia | lia | lia | simpl; lia].
Defined.

(** X3. On a reachable tree [getOriginalValue(i)], for [1 <= i <= cap],
    returns the logical element at [i]: the accumulated deltas of the
    updates at [i]. *)
Theorem point_query_recovers_element (cap : Z) (e : Z -> Z)
    (t : BIT1.BinaryIndexedTree) (i : Z) (fuel : nat) :
  BIT1_reach.built cap e t -> 1 <= i <= cap -> (Z.to_nat cap <= fuel)%nat ->
  BIT1.getOriginalValue fuel i t = Done (e i, t).
Proof. intros. apply (getOriginalValue_built cap); assumption. Qed.

Lemma point_query_recovers_element_witness :
  BIT1.getOriginalValue 5 3 tree5 = Done (elems5 3, tree5).
Proof.
  apply (point_query_recovers_element 5 elems5 tree5 3 5 tree5_built);
    [lia | simpl; lia].
Defined.

(** X4. Round trip of [createFenwickTree]: on a fresh object and an input
    of [cap + 1] cells holding [int]s (cell 0 the dummy), with
    [cap < 2^30], it returns, and [getOriginalValue(i)] on the tree it
    leaves gives back [input[i]] for every [i] in [[1, cap]]. *)
Theorem build_then_read_back (cap : Z) (input : list Z) (fuel : nat) :
  0 <= cap < 2 ^ 30 -> Z.of_nat (length input) = cap + 1 ->
  Forall Int32.in_range input -> (Z.to_nat cap <= fuel)%nat ->
  exists t,
    BIT1.createFenwickTree fuel input BIT1.new = Done (tt, t) /\
    forall i, 1 <= i <= cap ->
      exists x, vec_get input i = Some x /\
                BIT1.getOriginalValue fuel i t = Done (x, t).
Proof.
  intros Hcap Hlen Hin Hfuel.
  assert (Hmax : cap + 1 <= Int32.max_int) by (unfold Int32.max_int; lia).
  assert (Hrun : exists t, BIT1.createFenwickTree fuel input BIT1.new = Done (tt, t)).
  { unfold BIT1.createFenwickTree, bind, get, put, Int32.of_size_t.
    rewrite Hlen, wrap_small
      by (unfold Int32.in_range, Int32.min_int, Int32.max_int in *; lia).
    destruct (Z.ltb_spec (cap + 1) 0); [lia|].
    apply (createFenwickTree_loop_returns cap); cbn [BIT1._size]; try lia.
    pose proof (BIT1_reach.built_create cap ltac:(lia) Hmax) as Hb.
    cbn [BIT1.new BIT1._bitArray]. rewrite vec_resize_nil.
    exact (proj1 (built_well_formed _ _ _ Hb)). }
  destruct Hrun as [t Hrun]. exists t. split; [exact Hrun|].
  destruct (createFenwickTree_built cap input fuel t ltac:(lia) Hlen Hmax Hrun)
    as (e & Hb & He).
  intros i Hi. destruct (vec_get_Some input i) as [x Hx]; [lia|].
  exists x. split; [exact Hx|].
  rewrite (getOriginalValue_built cap e t i fuel Hb Hi Hfuel).
  specialize (He i Hi). rewrite Hx in He. cbn in He. injection He as ->.
  rewrite wrap_small; [reflexivity|].
  unfold vec_get in Hx. destruct (0 <=? i); [|discriminate].
  rewrite Forall_lookup in Hin. exact (Hin _ _ Hx).
Qed.

Lemma build_then_read_back_witness :
  exists t,
    BIT1.createFenwickTree 3 [0; 7; -2; 9] BIT1.new = Done (tt, t) /\
    forall i, 1 <= i <= 3 ->
      exists x, vec_get [0; 7; -2; 9] i = Some x /\
                BIT1.getOriginalValue 3 i t = Done (x, t).
Proof.
  apply (build_then_read_back 3 [0; 7; -2; 9] 3); [lia | reflexivity | | simpl; lia].
  repeat constructor; unfold Int32.min_int, Int32.max_int; simpl; lia.
Defined.

(** ** BIT_1: what an update does to the cells *)

(** X5. On a consistent object with [_size <= 2^30], [updateTree(i, d)] at
    an index in [[1, _size)] returns, keeps [_size] and the vector length,
    adds [d] to exactly the cells [j] whose span [(j - lowbit j, j]]
    contains [i], and leaves every other cell as it was. *)
Theorem update_touches_covering_cells_only (t : BIT1.BinaryIndexedTree)
    (i d : Z) (fuel : nat) :
  BIT1_reach.well_formed t -> BIT1._size t <= 2 ^ 30 ->
  1 <= i < BIT1._size t -> (Z.to_nat (BIT1._size t) <= fuel)%nat ->
  exists t',
    BIT1.updateTree fuel i d t = Done (tt, t') /\
    BIT1._size t' = BIT1._size t /\
    length (BIT1._bitArray t') = length (BIT1._bitArray t) /\
    forall j, 0 <= j < BIT1._size t ->
      vec_get (BIT1._bitArray t') j =
      if in_span i j
      then (fun x => Int32.add x d) <$> vec_get (BIT1._bitArray t) j
      else vec_get (BIT1._bitArray t) j.
Proof.
  intros Hwf Hsz Hi Hfuel.
  destruct (updateTree_returns d fuel i t Hwf Hsz) as [t' Hrun]; [lia|lia|].
  exists t'. split; [exact Hrun|].
  destruct (updateTree_valid i d fuel t t' Hwf Hi Hrun) as (Hwf' & Hsz' & Hcells).
  split; [exact Hsz'|]. split; [|exact Hcells].
  destruct Hwf as (Hl & _), Hwf' as (Hl' & _). lia.
Qed.

Lemma update_touches_covering_cells_only_witness :
  exists t',
    BIT1.updateTree 6 3 7 tree5 = Done (tt, t') /\
    BIT1._size t' = BIT1._size tree5 /\
    length (BIT1._bitArray t') = length (BIT1._bitArray tree5) /\
    forall j, 0 <= j < BIT1._size tree5 ->
      vec_get (BIT1._bitArray t') j =
      if in_span 3 j
      then (fun x => Int32.add x 7) <$> vec_get (BIT1._bitArray tree5) j
      else vec_get (BIT1._bitArray tree5) j.
Proof.
  apply (update_touches_covering_cells_only tree5 3 7 6
           (proj1 (built_well_formed 5 elems5 tree5 tree5_built)));
    simpl; lia.
Defined.

(** X6. Updates commute: on a consistent object with [_size <= 2^30],
    [updateTree(i, a)] followed by [updateTree(j, b)] leaves the same object
    as [updateTree(j, b)] followed by [updateTree(i, a)]. *)
Theorem updates_commute (t : BIT1.BinaryIndexedTree) (i a j b : Z)
    (fuel : nat) :
  BIT1_reach.well_formed t -> BIT1._size t <= 2 ^ 30 ->
  1 <= i < BIT1._size t -> 1 <= j < BIT1._size t ->
  (Z.to_nat (BIT1._size t) <= fuel)%nat ->
  exists t1 t2 t3,
    BIT1.updateTree fuel i a t = Done (tt, t1) /\
    BIT1.updateTree fuel j b t1 = Done (tt, t3) /\
    BIT1.updateTree fuel j b t = Done (tt, t2) /\
    BIT1.updateTree fuel i a t2 = Done (tt, t3).
Proof.
  intros Hwf Hsz Hi Hj Hfuel.
  destruct (updateTree_returns a fuel i t Hwf Hsz) as [t1 H1]; [lia|lia|].
  destruct (updateTree_valid i a fuel t t1 Hwf Hi H1) as (Hwf1 & Hsz1 & Hc1).
  destruct (updateTree_returns b fuel j t1 Hwf1) as [t3 H13]; [lia|lia|lia|].
  destruct (updateTree_valid j b fuel t1 t3 Hwf1 ltac:(lia) H13)
    as (Hwf3 & Hsz3 & Hc3).
  destruct (updateTree_returns b fuel j t Hwf Hsz) as [t2 H2]; [lia|lia|].
  destruct (updateTree_valid j b fuel t t2 Hwf Hj H2) as (Hwf2 & Hsz2 & Hc2).
  destruct (updateTree_returns a fuel i t2 Hwf2) as [t3' H23]; [lia|lia|lia|].
  destruct (updateTree_valid i a fuel t2 t3' Hwf2 ltac:(lia) H23)
    as (Hwf3' & Hsz3' & Hc3').
  exists t1, t2, t3. do 3 (split; [assumption|]).
  rewrite H23. do 2 f_equal. apply tree_ext; [assumption|assumption|lia|].
  intros k Hk.
  rewrite (Hc3' k ltac:(lia)), (Hc2 k ltac:(lia)),
          (Hc3 k ltac:(lia)), (Hc1 k ltac:(lia)).
  pose proof Hwf as (Hlen & _ & _).
  destruct (vec_get_Some (BIT1._bitArray t) k) as [x Hx]; [lia|]. rewrite Hx.
  destruct (in_span i k), (in_span j k); cbn; try reflexivity.
  unfold Int32.add. rewrite !wrap_add_l. do 2 f_equal. lia.
Qed.

Lemma updates_commute_witness :
  exists t1 t2 t3,
    BIT1.updateTree 6 2 10 tree5 = Done (tt, t1) /\
    BIT1.updateTree 6 5 (-4) t1 = Done (tt, t3) /\
    BIT1.updateTree 6 5 (-4) tree5 = Done (tt, t2) /\
    BIT1.updateTree 6 2 10 t2 = Done (tt, t3).
Proof.
  apply (updates_commute tree5 2 10 5 (-4) 6
           (proj1 (built_well_formed 5 elems5 tree5 tree5_built)));
    simpl; lia.
Defined.

(** X7. An update is undone by the update with the negated delta: on a
    consistent object with [_size <= 2^30], [updateTree(i, d)] followed by
    [updateTree(i, -d)] gives back the object it started from. *)
Theorem update_then_negated_update (t : BIT1.BinaryIndexedTree) (i d : Z)
    (fuel : nat) :
  BIT1_reach.well_formed t -> BIT1._size t <= 2 ^ 30 ->
  1 <= i < BIT1._size t -> (Z.to_nat (BIT1._size t) <= fuel)%nat ->
  exists t1,
    BIT1.updateTree fuel i d t = Done (tt, t1) /\
    BIT1.updateTree fuel i (Int32.neg d) t1 = Done (tt, t).
Proof.
  intros Hwf Hsz Hi Hfuel.
  destruct (updateTree_returns d fuel i t Hwf Hsz) as [t1 H1]; [lia|lia|].
  destruct (updateTree_valid i d fuel t t1 Hwf Hi H1) as (Hwf1 & Hsz1 & Hc1).
  destruct (updateTree_returns (Int32.neg d) fuel i t1 Hwf1) as [t2 H2];
    [lia|lia|lia|].
  destruct (updateTree_valid i (Int32.neg d) fuel t1 t2 Hwf1 ltac:(lia) H2)
    as (Hwf2 & Hsz2 & Hc2).
  exists t1. split; [exact H1|]. rewrite H2. do 2 f_equal.
  apply tree_ext; [assumption|assumption|lia|].
  intros k Hk. rewrite (Hc2 k ltac:(lia)), (Hc1 k ltac:(lia)).
  pose proof Hwf as (Hlen & _ & _).
  destruct (vec_get_Some (BIT1._bitArray t) k) as [x Hx]; [lia|]. rewrite Hx.
  destruct (in_span i k); cbn; [|reflexivity].
  f_equal. unfold Int32.add, Int32.neg. rewrite wrap_add_l, wrap_add_r.
  replace (x + d + - d) with x by lia.
  apply wrap_small, (well_formed_cell t k x Hwf Hx).
Qed.

Lemma update_then_negated_update_witness :
  exists t1,
    BIT1.updateTree 6 3 7 tree5 = Done (tt, t1) /\
    BIT1.updateTree 6 3 (Int32.neg 7) t1 = Done (tt, tree5).
Proof.
  apply (update_then_negated_update tree5 3 7 6
           (proj1 (built_well_formed 5 elems5 tree5 tree5_built)));
    simpl; lia.
Defined.

(** ** BIT_1: indices the functions do not guard *)

Section BIT1_unguarded.
Import BIT1 BIT1_reach.

Lemma ancestor_loop_spins fuel : forall a start acc t,
  well_formed t -> start <= 0 -> 0 <= a < _size t ->
  ancestor_loop fuel a start acc t = Timeout.
Proof.
  induction fuel as [|fuel IH]; intros a start acc t Hwf Hstart Ha;
    rewrite ancestor_loop_eq; [reflexivity|].
  pose proof Hwf as (Hlen & Hmax & _).
  destruct (vec_get_Some (_bitArray t) a) as [x Hx]; [lia|]. rewrite Hx.
  pose proof (lb_range a ltac:(lia)) as Hb.
  rewrite getPrev_eq by lia.
  destruct (Z.geb_spec (a - lb a) start); [|lia].
  apply IH; [exact Hwf | exact Hstart | lia].
Qed.

End BIT1_unguarded.

(** X8. [getSum] does not guard its lower end: with [startIdx <= 0] and
    [endIdx] a valid or dummy index ([0 <= endIdx < _size]), the [do]-[while]
    loop reaches index 0, where [getPrev] no longer moves, and is still
    running whatever fuel it is given. *)
Theorem range_query_from_zero_spins (t : BIT1.BinaryIndexedTree)
    (startIdx endIdx : Z) (fuel : nat) :
  BIT1_reach.well_formed t -> startIdx <= 0 -> 0 <= endIdx < BIT1._size t ->
  BIT1.getSum fuel startIdx endIdx t = Timeout.
Proof.
  intros Hwf Hs He. unfold BIT1.getSum.
  destruct (Z.gtb_spec startIdx endIdx); [lia|].
  unfold bind. rewrite ancestor_loop_spins by assumption. reflexivity.
Qed.

Lemma range_query_from_zero_spins_witness :
  BIT1.getSum 100 0 3 tree5 = Timeout.
Proof.
  apply (range_query_from_zero_spins tree5 0 3 100
           (proj1 (built_well_formed 5 elems5 tree5 tree5_built)));
    simpl; lia.
Defined.

(** X9. [getSum] does not guard its upper end either: unlike
    [getPrefixSum] and [getOriginalValue], which return 0 for
    [idx >= _size], [getSum(startIdx, endIdx)] with
    [startIdx <= endIdx] and [endIdx >= _size] subscripts the vector out of
    bounds in its first iteration. *)
Theorem range_query_beyond_size_faults (t : BIT1.BinaryIndexedTree)
    (startIdx endIdx : Z) (fuel : nat) :
  BIT1_reach.well_formed t -> startIdx <= endIdx -> BIT1._size t <= endIdx ->
  BIT1.getSum (S fuel) startIdx endIdx t = Fault /\
  BIT1.getPrefixSum (S fuel) endIdx t = Done (0, t) /\
  BIT1.getOriginalValue (S fuel) endIdx t = Done (0, t).
Proof.
  intros (Hlen & _ & _) Hs He. split; [|split].
  - unfold BIT1.getSum. destruct (Z.gtb_spec startIdx endIdx); [lia|].
    unfold bind. rewrite ancestor_loop_eq, vec_get_None by lia. reflexivity.
  - unfold BIT1.getPrefixSum, bind, BIT1.size, ret.
    destruct (Z.geb_spec endIdx (BIT1._size t)); [reflexivity|lia].
  - unfold BIT1.getOriginalValue, bind, BIT1.size, ret.
    destruct (Z.geb_spec endIdx (BIT1._size t)); [reflexivity|lia].
Qed.

Lemma range_query_beyond_size_faults_witness :
  BIT1.getSum 1 2 6 tree5 = Fault /\
  BIT1.getPrefixSum 1 6 tree5 = Done (0, tree5) /\
  BIT1.getOriginalValue 1 6 tree5 = Done (0, tree5).
Proof.
  apply (range_query_beyond_size_faults tree5 2 6 0
           (proj1 (built_well_formed 5 elems5 tree5 tree5_built)));
    simpl; lia.
Defined.

(** X10. Negative indices are not guarded: on a consistent object
    [updateTree] and [getOriginalValue] at a negative index subscript the
    vector out of bounds at once, while [getPrefixSum] returns 0 without
    reading anything. *)
Theorem negative_index_behaviour (t : BIT1.BinaryIndexedTree) (idx value : Z)
    (fuel : nat) :
  BIT1_reach.well_formed t -> idx < 0 ->
  BIT1.updateTree (S fuel) idx value t = Fault /\
  BIT1.getOriginalValue fuel idx t = Fault /\
  BIT1.getPrefixSum fuel idx t = Done (0, t).
Proof.
  intros (Hlen & _ & _) Hneg. split; [|split].
  - rewrite updateTree_eq. destruct (Z.ltb_spec idx (BIT1._size t)); [|lia].
    rewrite vec_get_None by lia. reflexivity.
  - unfold BIT1.getOriginalValue, bind, BIT1.size, BIT1.read.
    destruct (Z.geb_spec idx (BIT1._size t)); [lia|].
    rewrite vec_get_None by lia. reflexivity.
  - unfold BIT1.getPrefixSum, bind, BIT1.size.
    destruct (Z.geb_spec idx (BIT1._size t)); [lia|].
    rewrite getPrefixSum_loop_eq. destruct (Z.gtb_spec idx 0); [lia|].
    reflexivity.
Qed.

Lemma negative_index_behaviour_witness :
  BIT1.updateTree 1 (-1) 5 tree5 = Fault /\
  BIT1.getOriginalValue 0 (-1) tree5 = Fault /\
  BIT1.getPrefixSum 0 (-1) tree5 = Done (0, tree5).
Proof.
  apply (negative_index_behaviour tree5 (-1) 5 0
           (proj1 (built_well_formed 5 elems5 tree5 tree5_built))).
  lia.
Defined.

(** ** BIT_1: the loops are logarithmic *)

(** Stepping down, the lowest set bit at least doubles. *)
Lemma lb_prev_grows x :
  0 < x -> 0 < x - lb x -> 2 * lb x <= lb (x - lb x).
Proof.
  intros Hx Hp. destruct (lb_spec x Hx) as (k & m & Hk & Hm & Hy & Hl).
  rewrite Hl in *. subst x.
  replace (2 ^ k * (2 * m + 1) - 2 ^ k) with (2 ^ Z.succ k * m) in *
    by (rewrite Z.pow_succ_r by lia; ring).
  rewrite lb_pow2_mul, Z.pow_succ_r by lia.
  assert (0 < 2 ^ k) by (apply Z.pow_pos_nonneg; lia).
  assert (0 < m) by (rewrite Z.pow_succ_r in Hp by lia; nia).
  pose proof (lb_bounds m ltac:(lia)). nia.
Qed.

Lemma pow2_succ_nat j (n : nat) :
  0 <= j -> 2 ^ (j + Z.of_nat (S n)) = 2 * 2 ^ (j + Z.of_nat n).
Proof.
  intros Hj. replace (j + Z.of_nat (S n)) with (Z.succ (j + Z.of_nat n)) by lia.
  apply Z.pow_succ_r. lia.
Qed.

Section BIT1_logarithmic.
Import BIT1 BIT1_reach.

Lemma getPrefixSum_loop_fuel_mono fuel : forall fuel' idx acc t r,
  (fuel <= fuel')%nat ->
  getPrefixSum_loop fuel idx acc t = Done r ->
  getPrefixSum_loop fuel' idx acc t = Done r.
Proof.
  induction fuel as [|fuel IH]; intros fuel' idx acc t r Hle;
    rewrite !(getPrefixSum_loop_eq _ idx); destruct (idx >? 0);
    try discriminate; try (intros ->; reflexivity).
  destruct fuel' as [|fuel']; [lia|].
  destruct (vec_get _ idx); [|discriminate]. apply IH. lia.
Qed.

Lemma predecessor_loop_fuel_mono fuel : forall fuel' p a acc t r,
  (fuel <= fuel')%nat ->
  predecessor_loop fuel p a acc t = Done r ->
  predecessor_loop fuel' p a acc t = Done r.
Proof.
  induction fuel as [|fuel IH]; intros fuel' p a acc t r Hle;
    rewrite !(predecessor_loop_eq _ p); destruct (p >? a);
    try discriminate; try (intros ->; reflexivity).
  destruct fuel' as [|fuel']; [lia|].
  destruct (vec_get _ p); [|discriminate]. apply IH. lia.
Qed.

Lemma ancestor_loop_fuel_mono fuel : forall fuel' a start acc t r,
  (fuel <= fuel')%nat ->
  ancestor_loop fuel a start acc t = Done r ->
  ancestor_loop fuel' a start acc t = Done r.
Proof.
  induction fuel as [|fuel IH]; intros fuel' a start acc t r Hle;
    rewrite !(ancestor_loop_eq _ a); [discriminate|].
  destruct fuel' as [|fuel']; [lia|].
  destruct (vec_get _ a); [|discriminate].
  destruct (getPrev a >=? start); [apply IH; lia | auto].
Qed.

Lemma getPrefixSum_fuel_mono fuel fuel' idx t r :
  (fuel <= fuel')%nat ->
  getPrefixSum fuel idx t = Done r -> getPrefixSum fuel' idx t = Done r.
Proof.
  intros Hle. unfold getPrefixSum, bind, size, ret.
  destruct (idx >=? _size t); [auto|].
  apply getPrefixSum_loop_fuel_mono, Hle.
Qed.

Lemma getOriginalValue_fuel_mono fuel fuel' idx t r :
  (fuel <= fuel')%nat ->
  getOriginalValue fuel idx t = Done r -> getOriginalValue fuel' idx t = Done r.
Proof.
  intros Hle. unfold getOriginalValue, bind, size, read, ret.
  destruct (idx >=? _size t); [auto|].
  destruct (vec_get _ idx); [|discriminate].
  apply predecessor_loop_fuel_mono, Hle.
Qed.

Lemma getSum_fuel_mono fuel fuel' i j t r :
  (fuel <= fuel')%nat ->
  getSum fuel i j t = Done r -> getSum fuel' i j t = Done r.
Proof.
  intros Hle. unfold getSum, bind, ret. destruct (i >? j); [auto|].
  destruct (ancestor_loop fuel j i 0 t) as [[sa t1]| |] eqn:Hup;
    try discriminate.
  rewrite (ancestor_loop_fuel_mono _ _ _ _ _ _ _ Hle Hup).
  apply predecessor_loop_fuel_mono, Hle.
Qed.

(** A walk down from below [2^(j+n)] whose lowest set bit is at least [2^j]
    takes at most [n] steps. *)
Lemma getPrefixSum_loop_log t (n : nat) : forall j q acc fuel,
  well_formed t -> 0 <= j -> q < _size t ->
  q <= 0 \/ 2 ^ j <= lb q -> q < 2 ^ (j + Z.of_nat n) -> (n <= fuel)%nat ->
  exists r, getPrefixSum_loop fuel q acc t = Done (r, t).
Proof.
  induction n as [|n IH]; intros j q acc fuel Hwf Hj Hq Hlb Hpow Hfuel;
    pose proof Hwf as (Hlen & Hmax & _);
    rewrite getPrefixSum_loop_eq;
    (destruct (Z.gtb_spec q 0) as [Hpos|]; [|eexists; reflexivity]);
    pose proof (lb_bounds q Hpos) as Hb.
  - rewrite Z.add_0_r in Hpow. lia.
  - destruct fuel as [|fuel]; [lia|].
    destruct (vec_get_Some (_bitArray t) q) as [x Hx]; [lia|]. rewrite Hx.
    rewrite getPrev_eq by lia. rewrite pow2_succ_nat in Hpow by lia.
    apply (IH (j + 1)); try lia; try assumption.
    + destruct (Z.le_gt_cases (q - lb q) 0); [left; assumption|right].
      pose proof (lb_prev_grows q Hpos ltac:(lia)).
      rewrite Z.pow_add_r, Z.pow_1_r by lia. lia.
    + replace (j + 1 + Z.of_nat n) with (Z.succ (j + Z.of_nat n)) by lia.
      rewrite Z.pow_succ_r by lia. lia.
Qed.

Lemma predecessor_loop_log t (n : nat) : forall j p a acc fuel,
  well_formed t -> 0 <= j -> 0 <= a -> p < _size t ->
  p <= 0 \/ 2 ^ j <= lb p -> p < 2 ^ (j + Z.of_nat n) -> (n <= fuel)%nat ->
  exists r, predecessor_loop fuel p a acc t = Done (r, t).
Proof.
  induction n as [|n IH]; intros j p a acc fuel Hwf Hj Ha Hp Hlb Hpow Hfuel;
    pose proof Hwf as (Hlen & Hmax & _);
    rewrite predecessor_loop_eq;
    (destruct (Z.gtb_spec p a) as [Hpos|]; [|eexists; reflexivity]);
    pose proof (lb_bounds p ltac:(lia)) as Hb.
  - rewrite Z.add_0_r in Hpow. lia.
  - destruct fuel as [|fuel]; [lia|].
    destruct (vec_get_Some (_bitArray t) p) as [x Hx]; [lia|]. rewrite Hx.
    rewrite getPrev_eq by lia. rewrite pow2_succ_nat in Hpow by lia.
    apply (IH (j + 1)); try lia; try assumption.
    + destruct (Z.le_gt_cases (p - lb p) 0); [left; assumption|right].
      pose proof (lb_prev_grows p ltac:(lia) ltac:(lia)).
      rewrite Z.pow_add_r, Z.pow_1_r by lia. lia.
    + replace (j + 1 + Z.of_nat n) with (Z.succ (j + Z.of_nat n)) by lia.
      rewrite Z.pow_succ_r by lia. lia.
Qed.

Lemma ancestor_loop_log t start (n : nat) : forall j x acc fuel,
  well_formed t -> 0 <= j -> 1 <= start -> 1 <= x < _size t ->
  2 ^ j <= lb x -> x < 2 ^ (j + Z.of_nat n) -> (n <= fuel)%nat ->
  exists r a, ancestor_loop fuel x start acc t = Done ((r, a), t) /\ 0 <= a.
Proof.
  induction n as [|n IH]; intros j x acc fuel Hwf Hj Hs Hx Hlb Hpow Hfuel;
    pose proof Hwf as (Hlen & Hmax & _);
    pose proof (lb_bounds x ltac:(lia)) as Hb.
  - rewrite Z.add_0_r in Hpow. lia.
  - destruct fuel as [|fuel]; [lia|]. rewrite ancestor_loop_eq.
    destruct (vec_get_Some (_bitArray t) x) as [c Hc]; [lia|]. rewrite Hc.
    rewrite getPrev_eq by lia. rewrite pow2_succ_nat in Hpow by lia.
    destruct (Z.geb_spec (x - lb x) start); [|eexists _, _; split; [reflexivity|lia]].
    apply (IH (j + 1)); try lia; try assumption.
    + pose proof (lb_prev_grows x ltac:(lia) ltac:(lia)).
      rewrite Z.pow_add_r, Z.pow_1_r by lia. lia.
    + replace (j + 1 + Z.of_nat n) with (Z.succ (j + Z.of_nat n)) by lia.
      rewrite Z.pow_succ_r by lia. lia.
Qed.

Lemma updateTree_log value (n : nat) : forall j idx t fuel,
  well_formed t -> 0 <= j -> j + Z.of_nat n <= 30 ->
  _size t <= 2 ^ (j + Z.of_nat n) ->
  1 <= idx -> 2 ^ j <= lb idx -> (n <= fuel)%nat ->
  exists t', updateTree fuel idx value t = Done (tt, t').
Proof.
  induction n as [|n IH]; intros j idx t fuel Hwf Hj Hjn Hsz Hidx Hlb Hfuel;
    pose proof Hwf as (Hlen & Hmax & Hcells);
    pose proof (lb_bounds idx ltac:(lia)) as Hb;
    rewrite updateTree_eq;
    (destruct (Z.ltb_spec idx (_size t)) as [Hlt|]; [|eexists; reflexivity]).
  - rewrite Z.add_0_r in Hsz. lia.
  - destruct fuel as [|fuel]; [lia|].
    destruct (vec_get_Some (_bitArray t) idx) as [x Hx]; [lia|]. rewrite Hx.
    rewrite (vec_set_Some _ idx) by lia.
    assert (Hpow : 2 ^ (j + Z.of_nat (S n)) <= 2 ^ 30)
      by (apply Z.pow_le_mono_r; lia).
    rewrite getNext_eq by (unfold Int32.max_int; lia).
    rewrite pow2_succ_nat in Hsz by lia.
    apply (IH (j + 1)); cbn [_size _bitArray]; try lia.
    + repeat split; cbn [_size _bitArray]; [rewrite length_insert; lia | lia |].
      apply Forall_insert; [exact Hcells | apply wrap_in_range].
    + replace (j + 1 + Z.of_nat n) with (Z.succ (j + Z.of_nat n)) by lia.
      rewrite Z.pow_succ_r by lia. lia.
    + pose proof (lb_next_covers idx ltac:(lia)).
      rewrite Z.pow_add_r, Z.pow_1_r by lia. lia.
Qed.

End BIT1_logarithmic.

(** X11. The loops are logarithmic in the capacity: on a reachable tree
    whose capacity is below [2^b] ([b <= 30]), [b] iterations are enough
    for every loop, so that with fuel [b] [getPrefixSum], [getSum] and
    [getOriginalValue] return the element sums and [updateTree] returns. *)
Theorem operations_take_logarithmic_fuel (cap : Z) (e : Z -> Z)
    (t : BIT1.BinaryIndexedTree) (b : nat) :
  BIT1_reach.built cap e t -> (b <= 30)%nat -> cap < 2 ^ Z.of_nat b ->
  (forall k, 0 <= k <= cap ->
     BIT1.getPrefixSum b k t = Done (range_sum e 0 k, t)) /\
  (forall i j, 1 <= i -> i <= j -> j <= cap ->
     BIT1.getSum b i j t = Done (range_sum e (i - 1) j, t)) /\
  (forall i, 1 <= i <= cap -> BIT1.getOriginalValue b i t = Done (e i, t)) /\
  (forall i d, 1 <= i <= cap ->
     exists t', BIT1.updateTree b i d t = Done (tt, t')).
Proof.
  intros Hb Hb30 Hcap. destruct (built_well_formed _ _ _ Hb) as [Hwf Hsz].
  pose proof Hwf as (Hlen & Hmax & Hcells).
  set (big := (b + Z.to_nat cap)%nat).
  assert (Hone : forall q, 0 < q -> q <= 0 \/ 2 ^ 0 <= lb q).
  { intros q Hq. right. pose proof (lb_bounds q Hq). rewrite Z.pow_0_r. lia. }
  split; [|split; [|split]].
  - intros k Hk.
    assert (Hrun : exists r, BIT1.getPrefixSum b k t = Done (r, t)).
    { unfold BIT1.getPrefixSum, bind, BIT1.size, ret.
      destruct (Z.geb_spec k (BIT1._size t)); [lia|].
      apply (getPrefixSum_loop_log t b 0); rewrite ?Z.add_0_l; try lia; try assumption.
      destruct (Z.le_gt_cases k 0); [left; assumption | apply Hone; lia]. }
    destruct Hrun as [r Hrun]. rewrite Hrun.
    apply (getPrefixSum_fuel_mono b big) in Hrun; [|unfold big; lia].
    rewrite (getPrefixSum_built cap e t k big Hb Hk) in Hrun by (unfold big; lia).
    symmetry. exact Hrun.
  - intros i j Hi Hij Hj.
    assert (Hrun : exists r, BIT1.getSum b i j t = Done (r, t)).
    { unfold BIT1.getSum, bind. destruct (Z.gtb_spec i j); [lia|].
      destruct (ancestor_loop_log t i b 0 j 0 b Hwf) as (r & a & Hup & Ha);
        rewrite ?Z.add_0_l; try lia.
      { pose proof (lb_bounds j ltac:(lia)). rewrite Z.pow_0_r. lia. }
      rewrite Hup. cbn [fst snd].
      assert (Hi1 : Int32.sub i 1 = i - 1).
      { apply wrap_small.
        unfold Int32.in_range, Int32.min_int, Int32.max_int in *. lia. }
      rewrite Hi1.
      apply (predecessor_loop_log t b 0); rewrite ?Z.add_0_l; try lia; try assumption.
      destruct (Z.le_gt_cases (i - 1) 0); [left; assumption | apply Hone; lia]. }
    destruct Hrun as [r Hrun]. rewrite Hrun.
    apply (getSum_fuel_mono b big) in Hrun; [|unfold big; lia].
    rewrite (getSum_built cap e t i j big Hb Hi Hij Hj) in Hrun
      by (unfold big; lia).
    symmetry. exact Hrun.
  - intros i Hi.
    assert (Hrun : exists r, BIT1.getOriginalValue b i t = Done (r, t)).
    { unfold BIT1.getOriginalValue, bind, BIT1.size, BIT1.read.
      destruct (Z.geb_spec i (BIT1._size t)); [lia|].
      destruct (vec_get_Some (BIT1._bitArray t) i) as [c Hc]; [lia|]. rewrite Hc.
      assert (Hi1 : Int32.sub i 1 = i - 1).
      { apply wrap_small.
        unfold Int32.in_range, Int32.min_int, Int32.max_int in *. lia. }
      pose proof (lb_bounds i ltac:(lia)).
      rewrite Hi1, getPrev_eq by lia.
      apply (predecessor_loop_log t b 0); rewrite ?Z.add_0_l; try lia; try assumption.
      destruct (Z.le_gt_cases (i - 1) 0); [left; assumption | apply Hone; lia]. }
    destruct Hrun as [r Hrun]. rewrite Hrun.
    apply (getOriginalValue_fuel_mono b big) in Hrun; [|unfold big; lia].
    rewrite (getOriginalValue_built cap e t i big Hb Hi) in Hrun
      by (unfold big; lia).
    symmetry. exact Hrun.
  - intros i d Hi.
    assert (Hpow : 2 ^ Z.of_nat b <= 2 ^ 30) by (apply Z.pow_le_mono_r; lia).
    apply (updateTree_log d b 0); rewrite ?Z.add_0_l; try lia; try assumption.
    pose proof (lb_bounds i ltac:(lia)). rewrite Z.pow_0_r. lia.
Qed.

Lemma operations_take_logarithmic_fuel_witness :
  BIT1.getPrefixSum 3 5 tree5 = Done (range_sum elems5 0 5, tree5) /\
  BIT1.getSum 3 2 5 tree5 = Done (range_sum elems5 (2 - 1) 5, tree5) /\
  BIT1.getOriginalValue 3 4 tree5 = Done (elems5 4, tree5) /\
  (exists t', BIT1.updateTree 3 1 9 tree5 = Done (tt, t')).
Proof.
  pose proof (operations_take_logarithmic_fuel 5 elems5 tree5 3 tree5_built
                ltac:(lia) ltac:(simpl; lia)) as (H1 & H2 & H3 & H4).
  split; [apply H1; lia|]. split; [apply H2; lia|].
  split; [apply H3; lia|]. apply H4; lia.
Defined.

(** ** BIT_1: the dummy cell and the shape of reachable trees *)

Lemma sum_from_ext e e' lo n :
  (forall k, lo < k <= lo + Z.of_nat n -> e k = e' k) ->
  sum_from e lo n = sum_from e' lo n.
Proof.
  induction n as [|n IH]; intros H; [reflexivity|].
  cbn [sum_from]. rewrite IH by (intros; apply H; lia).
  rewrite (H (lo + Z.of_nat (S n))) by lia. reflexivity.
Qed.

Lemma range_sum_ext e e' lo hi :
  (forall k, lo < k <= hi -> e k = e' k) -> range_sum e lo hi = range_sum e' lo hi.
Proof. intros H. apply sum_from_ext. intros k Hk. apply H. lia. Qed.

Section BIT1_shape.
Import BIT1 BIT1_reach.

Lemma built_dummy_zero cap e t : built cap e t -> vec_get (_bitArray t) 0 = Some 0.
Proof.
  induction 1 as [Hcap Hmax | e t fuel i d t' Hb IH Hi Hrun].
  - cbn [_bitArray]. unfold vec_get. cbn [Z.leb Z.compare Z.to_nat].
    apply lookup_replicate_2. lia.
  - destruct (built_well_formed _ _ _ Hb) as [Hwf Hsz].
    destruct (updateTree_valid i d fuel t t' Hwf ltac:(lia) Hrun) as (_ & _ & Hc).
    rewrite (Hc 0 ltac:(lia)), IH.
    replace (in_span i 0) with false; [reflexivity|].
    unfold in_span. change (Compact.lowbit 0) with 0.
    destruct (Z.leb_spec i 0); [lia|]. rewrite andb_false_r. reflexivity.
Qed.

End BIT1_shape.

(** X12. The dummy cell is never written: on a reachable tree
    [_bitArray[0]] is still 0, and [getOriginalValue(0)] and
    [getPrefixSum(0)] return 0 without entering their loops. *)
Theorem dummy_cell_stays_zero (cap : Z) (e : Z -> Z)
    (t : BIT1.BinaryIndexedTree) (fuel : nat) :
  BIT1_reach.built cap e t ->
  vec_get (BIT1._bitArray t) 0 = Some 0 /\
  BIT1.getOriginalValue fuel 0 t = Done (0, t) /\
  BIT1.getPrefixSum fuel 0 t = Done (0, t).
Proof.
  intros Hb. pose proof (built_dummy_zero _ _ _ Hb) as H0.
  destruct (built_well_formed _ _ _ Hb) as [(Hlen & _) Hsz].
  assert (Hpos : 0 < BIT1._size t).
  { unfold vec_get in H0. cbn [Z.leb Z.compare Z.to_nat] in H0.
    apply lookup_lt_Some in H0. lia. }
  split; [exact H0|]. split.
  - unfold BIT1.getOriginalValue, bind, BIT1.size, BIT1.read.
    destruct (Z.geb_spec 0 (BIT1._size t)); [lia|]. rewrite H0.
    rewrite predecessor_loop_eq. reflexivity.
  - unfold BIT1.getPrefixSum, bind, BIT1.size.
    destruct (Z.geb_spec 0 (BIT1._size t)); [lia|].
    rewrite getPrefixSum_loop_eq. reflexivity.
Qed.

Lemma dummy_cell_stays_zero_witness :
  vec_get (BIT1._bitArray tree5) 0 = Some 0 /\
  BIT1.getOriginalValue 0 0 tree5 = Done (0, tree5) /\
  BIT1.getPrefixSum 0 0 tree5 = Done (0, tree5).
Proof. apply (dummy_cell_stays_zero 5 elems5 tree5 0 tree5_built). Defined.

(** X13. A reachable tree is determined by its logical elements: two
    sequences of valid updates on trees of the same capacity that produce
    the same elements [1..cap] leave the same object, whatever the order and
    the number of the updates. *)
Theorem tree_determined_by_elements (cap : Z) (e e' : Z -> Z)
    (t t' : BIT1.BinaryIndexedTree) :
  BIT1_reach.built cap e t -> BIT1_reach.built cap e' t' ->
  (forall j, 1 <= j <= cap -> e j = e' j) ->
  t = t'.
Proof.
  intros Hb Hb' He.
  destruct (built_well_formed _ _ _ Hb) as [Hwf Hsz].
  destruct (built_well_formed _ _ _ Hb') as [Hwf' Hsz'].
  pose proof Hwf as (Hlen & Hmax & _).
  apply tree_ext; [assumption | assumption | lia |].
  intros j Hj. destruct (Z.eq_dec j 0) as [->|Hne].
  - rewrite (built_dummy_zero _ _ _ Hb), (built_dummy_zero _ _ _ Hb').
    reflexivity.
  - rewrite (built_aggregates_ok _ _ _ Hb j ltac:(lia)).
    rewrite (built_aggregates_ok _ _ _ Hb' j ltac:(lia)).
    f_equal. apply range_sum_ext. intros k Hk. apply He.
    pose proof (lb_bounds j ltac:(lia)).
    rewrite lowbit_eq in Hk by lia. lia.
Qed.

Lemma tree_determined_by_elements_witness :
  BIT1_reach.built 2 (bump (bump (fun _ => 0) 1 4) 2 6)
    {| BIT1._size := 3; BIT1._bitArray := [0; 4; 10] |} /\
  BIT1_reach.built 2 (bump (bump (bump (fun _ => 0) 2 5) 1 4) 2 1)
    {| BIT1._size := 3; BIT1._bitArray := [0; 4; 10] |} /\
  {| BIT1._size := 3; BIT1._bitArray := [0; 4; 10] |}
  = {| BIT1._size := 3; BIT1._bitArray := [0; 4; 10] |}.
Proof.
  assert (H0 : BIT1_reach.built 2 (fun _ => 0)
                 {| BIT1._size := 3; BIT1._bitArray := [0; 0; 0] |})
    by (apply (BIT1_reach.built_create 2); unfold Int32.max_int; lia).
  assert (Ha : BIT1_reach.built 2 (bump (bump (fun _ => 0) 1 4) 2 6)
                 {| BIT1._size := 3; BIT1._bitArray := [0; 4; 10] |}).
  { apply (BIT1_reach.built_update 2 _
             {| BIT1._size := 3; BIT1._bitArray := [0; 4; 4] |} 3 2 6);
      [|lia|reflexivity].
    apply (BIT1_reach.built_update 2 _ _ 3 1 4 _ H0); [lia|reflexivity]. }
  assert (Hb : BIT1_reach.built 2 (bump (bump (bump (fun _ => 0) 2 5) 1 4) 2 1)
                 {| BIT1._size := 3; BIT1._bitArray := [0; 4; 10] |}).
  { apply (BIT1_reach.built_update 2 _
             {| BIT1._size := 3; BIT1._bitArray := [0; 4; 9] |} 3 2 1);
      [|lia|reflexivity].
    apply (BIT1_reach.built_update 2 _
             {| BIT1._size := 3; BIT1._bitArray := [0; 0; 5] |} 3 1 4);
      [|lia|reflexivity].
    apply (BIT1_reach.built_update 2 _ _ 3 2 5 _ H0); [lia|reflexivity]. }
  split; [exact Ha|]. split; [exact Hb|].
  apply (tree_determined_by_elements 2 _ _ _ _ Ha Hb).
  intros j Hj. assert (Hc : j = 1 \/ j = 2) by lia.
  destruct Hc as [-> | ->]; reflexivity.
Defined.

(** ** The bit tricks *)

Lemma land_even_odd a b : Z.land (2 * a) (2 * b + 1) = 2 * Z.land a b.
Proof.
  apply Z.bits_inj'. intros n Hn. rewrite Z.land_spec.
  destruct (Z.eq_dec n 0) as [->|Hne].
  - rewrite !Z.testbit_even_0. reflexivity.
  - replace n with (Z.succ (n - 1)) by lia.
    rewrite !Z.testbit_even_succ, Z.testbit_odd_succ by lia.
    apply eq_sym, Z.land_spec.
Qed.

Lemma land_odd_even a b : Z.land (2 * a + 1) (2 * b) = 2 * Z.land a b.
Proof. rewrite Z.land_comm, land_even_odd, Z.land_comm. reflexivity. Qed.

Lemma prev_is_land x : 0 <= x -> x - lb x = Z.land x (x - 1).
Proof.
  intros H0. pose proof H0 as Hx. revert Hx.
  pattern x. apply Z_lt_induction; [|exact H0]. clear x H0.
  intros x IH Hx.
  destruct (Z.even x) eqn:Hev.
  - apply Z.even_spec in Hev as [y ->].
    destruct (Z.eq_dec y 0) as [->|Hy]; [reflexivity|].
    replace (2 * y - 1) with (2 * (y - 1) + 1) by lia.
    rewrite land_even_odd, lb_double, <- IH by lia. lia.
  - assert (Hodd : Z.odd x = true) by (rewrite <- Z.negb_even, Hev; reflexivity).
    apply Z.odd_spec in Hodd as [y ->].
    replace (2 * y + 1 - 1) with (2 * y) by lia.
    rewrite land_odd_even, lb_odd, Z.land_diag. lia.
Qed.

(** X14. [lowbit] isolates the lowest set bit: for a positive [int] it is
    the largest power of two that divides [id] ([id] is an odd multiple of
    it), it is the same for [-id], and it is 0 only for [id = 0]. *)
Theorem lowbit_is_largest_power_of_two_divisor (id : Z) :
  0 < id <= Int32.max_int ->
  (exists k m, 0 <= k /\ 0 <= m /\ id = 2 ^ k * (2 * m + 1) /\
               Compact.lowbit id = 2 ^ k) /\
  Compact.lowbit (- id) = Compact.lowbit id /\
  0 < Compact.lowbit id <= id /\
  Compact.lowbit 0 = 0.
Proof.
  intros Hid. rewrite (lowbit_eq id) by lia.
  split; [apply lb_spec; lia|]. split; [|split; [apply lb_bounds; lia|reflexivity]].
  unfold Compact.lowbit, Int32.and, Int32.neg.
  rewrite Z.opp_involutive, wrap_small, Z.land_comm; [reflexivity|].
  unfold Int32.in_range, Int32.min_int, Int32.max_int in *. lia.
Qed.

Lemma lowbit_is_largest_power_of_two_divisor_witness :
  (exists k m, 0 <= k /\ 0 <= m /\ 12 = 2 ^ k * (2 * m + 1) /\
               Compact.lowbit 12 = 2 ^ k) /\
  Compact.lowbit (- 12) = Compact.lowbit 12 /\
  0 < Compact.lowbit 12 <= 12 /\
  Compact.lowbit 0 = 0.
Proof.
  apply (lowbit_is_largest_power_of_two_divisor 12).
  unfold Int32.max_int. lia.
Defined.

(** X15. [getPrev] clears the lowest set bit, as its comment says: for an
    index in [[0, INT_MAX]] it returns [idx & (idx - 1)], which is below
    [idx] unless [idx = 0], the only fixed point. *)
Theorem getPrev_clears_lowest_set_bit (idx : Z) :
  0 <= idx <= Int32.max_int ->
  BIT1.getPrev idx = Z.land idx (idx - 1) /\
  0 <= BIT1.getPrev idx /\
  (0 < idx -> BIT1.getPrev idx < idx) /\
  (BIT1.getPrev idx = idx <-> idx = 0).
Proof.
  intros Hidx. rewrite getPrev_eq by exact Hidx.
  pose proof (lb_range idx ltac:(lia)).
  split; [apply prev_is_land; lia|]. split; [lia|].
  split; [intros Hpos; pose proof (lb_bounds idx Hpos); lia|].
  split.
  - intros Heq. destruct (Z.eq_dec idx 0); [assumption|].
    pose proof (lb_bounds idx ltac:(lia)). lia.
  - intros ->. reflexivity.
Qed.

Lemma getPrev_clears_lowest_set_bit_witness :
  BIT1.getPrev 12 = Z.land 12 (12 - 1) /\
  0 <= BIT1.getPrev 12 /\
  (0 < 12 -> BIT1.getPrev 12 < 12) /\
  (BIT1.getPrev 12 = 12 <-> 12 = 0).
Proof.
  apply (getPrev_clears_lowest_set_bit 12). unfold Int32.max_int. lia.
Defined.

(** ** BIT_2_compact_1: what [sum] returns *)

Section Compact_sums.
Import Compact Compact_reach.

Lemma sum_loop_walk c q z :
  walk (BIT c) 0 q z -> q < N c -> N c <= Int32.max_int ->
  forall fuel acc log, (Z.to_nat q <= fuel)%nat -> Int32.in_range acc ->
    exists l,
      sum_loop fuel q acc {| self := c; accessed := log |}
      = Done (Int32.wrap (acc + z), {| self := c; accessed := l ++ log |}).
Proof.
  induction 1 as [|q x z Hq Hx Hw IH]; intros HN Hmax fuel acc log Hfuel Hacc;
    rewrite sum_loop_eq; cbn [self accessed].
  - rewrite guard_false by lia. exists [].
    rewrite Z.add_0_r, wrap_small by exact Hacc. reflexivity.
  - rewrite guard_true by lia. destruct fuel as [|fuel]; [lia|]. rewrite Hx.
    pose proof (lb_bounds q ltac:(lia)) as Hb.
    rewrite lowbit_eq by lia.
    assert (Hprev : Int32.sub q (lb q) = q - lb q).
    { apply wrap_small.
      unfold Int32.in_range, Int32.min_int, Int32.max_int in *. lia. }
    rewrite Hprev.
    destruct (IH ltac:(lia) Hmax fuel (Int32.add acc x) (q :: log))
      as [l Hrun]; [lia | apply wrap_in_range |].
    exists (l ++ [q]). rewrite Hrun. unfold Int32.add.
    rewrite wrap_add_l, Z.add_assoc, <- app_assoc. reflexivity.
Qed.

Lemma compact_sum_built cap e c k fuel log :
  built cap e c -> 0 <= k <= cap -> (Z.to_nat k <= fuel)%nat ->
  exists l,
    sum fuel k {| self := c; accessed := log |}
    = Done (range_sum e 0 k, {| self := c; accessed := l ++ log |}).
Proof.
  intros Hb Hk Hfuel. destruct (compact_built_well_formed _ _ _ Hb) as [Hwf HN].
  pose proof Hwf as [Hlen Hmax].
  destruct (walk_to_zero (BIT c) k) as [z Hz]; [lia|].
  destruct (sum_loop_walk c k z Hz ltac:(lia) Hmax fuel 0 log Hfuel in_range_0)
    as [l Hrun].
  exists l. unfold sum. rewrite Hrun, range_sum_zrange, Z.add_0_l.
  rewrite (walk_sum e _ (N c) 0 k z (compact_built_aggregates_ok _ _ _ Hb));
    [reflexivity | lia | lia | lia | exact Hz].
Qed.

End Compact_sums.

(** X16. On a reachable compact structure [sum(k)], for [0 <= k <= cap],
    returns the sum in [int] arithmetic of the logical elements [1..k] and
    leaves the object as it was. *)
Theorem compact_sum_is_element_sum (cap : Z) (e : Z -> Z)
    (c : Compact.BinaryIndexedTree_Compact) (k : Z) (fuel : nat)
    (log : list Z) :
  Compact_reach.built cap e c -> 0 <= k <= cap -> (Z.to_nat k <= fuel)%nat ->
  exists l,
    Compact.sum fuel k {| Compact.self := c; Compact.accessed := log |}
    = Done (range_sum e 0 k,
            {| Compact.self := c; Compact.accessed := l ++ log |}).
Proof. intros. apply (compact_sum_built cap); assumption. Qed.

Lemma compact_sum_is_element_sum_witness :
  exists l,
    Compact.sum 5 5 {| Compact.self := compact5; Compact.accessed := [] |}
    = Done (range_sum elems5 0 5,
            {| Compact.self := compact5; Compact.accessed := l ++ [] |}).
Proof.
  apply (compact_sum_is_element_sum 5 elems5 compact5 5 5 [] compact5_built);
    [lia | simpl; lia].
Defined.

(** X17. In the compact variant [add(i, d)] at a valid index always returns,
    for every capacity an [int] can hold, and afterwards [sum(k)] is larger
    by exactly [d] (in [int] arithmetic) for [i <= k <= cap] and is the same
    for [0 <= k < i]. *)
Theorem compact_add_shifts_sums (cap : Z) (e : Z -> Z)
    (c : Compact.BinaryIndexedTree_Compact) (i d : Z) (fuel : nat)
    (log : list Z) :
  Compact_reach.built cap e c -> 1 <= i <= cap -> (Z.to_nat cap <= fuel)%nat ->
  exists m',
    Compact.add fuel i d {| Compact.self := c; Compact.accessed := log |}
      = Done (tt, m') /\
    forall k log', 0 <= k <= cap ->
      exists s l l',
        Compact.sum fuel k {| Compact.self := c; Compact.accessed := log' |}
          = Done (s, {| Compact.self := c; Compact.accessed := l ++ log' |}) /\
        Compact.sum fuel k
            {| Compact.self := Compact.self m'; Compact.accessed := log' |}
          = Done (if i <=? k then Int32.add s d else s,
                  {| Compact.self := Compact.self m';
                     Compact.accessed := l' ++ log' |}).
Proof.
  intros Hb Hi Hfuel. destruct (compact_built_well_formed _ _ _ Hb) as [Hwf HN].
  pose proof Hwf as [Hlen Hmax].
  pose proof (lb_bounds i ltac:(lia)) as Hbi.
  destruct (add_spec i d fuel i {| Compact.self := c; Compact.accessed := log |})
    as (m' & l0 & Hrun & _); cbn [Compact.self];
    [exact Hwf | lia | intros _; apply in_span_spec; lia | lia |].
  exists m'. split; [exact Hrun|]. intros k log' Hk.
  pose proof (Compact_reach.built_add cap e c log fuel i d m' Hb Hi Hrun) as Hb'.
  destruct (compact_sum_built cap e c k fuel log' Hb Hk ltac:(lia)) as [l Hs].
  destruct (compact_sum_built cap _ _ k fuel log' Hb' Hk ltac:(lia)) as [l' Hs'].
  exists (range_sum e 0 k), l, l'. split; [exact Hs|]. rewrite Hs'.
  rewrite range_sum_bump by lia.
  destruct (Z.ltb_spec 0 i); [|lia]. reflexivity.
Qed.

Lemma compact_add_shifts_sums_witness :
  exists m',
    Compact.add 5 3 7 {| Compact.self := compact5; Compact.accessed := [] |}
      = Done (tt, m') /\
    forall k log', 0 <= k <= 5 ->
      exists s l l',
        Compact.sum 5 k {| Compact.self := compact5; Compact.accessed := log' |}
          = Done (s, {| Compact.self := compact5;
                        Compact.accessed := l ++ log' |}) /\
        Compact.sum 5 k
            {| Compact.self := Compact.self m'; Compact.accessed := log' |}
          = Done (if 3 <=? k then Int32.add s 7 else s,
                  {| Compact.self := Compact.self m';
                     Compact.accessed := l' ++ log' |}).
Proof.
  apply (compact_add_shifts_sums 5 elems5 compact5 3 7 5 [] compact5_built);
    [lia | simpl; lia].
Defined.

(** ** The two variants side by side *)

(** X18. The two classes compute the same thing: on the same vector of the
    same size, [getPrefixSum(k)] and the compact [sum(k)] return the same
    value for every [k], and (with size at most [2^30]) [updateTree(i, d)]
    and the compact [add(i, d)] leave the same vector for every [i >= 1]. *)
Theorem variants_agree (n : Z) (v : list Z) (k i d : Z) (fuel : nat)
    (log : list Z) :
  BIT1_reach.well_formed {| BIT1._size := n; BIT1._bitArray := v |} ->
  (Z.to_nat n <= fuel)%nat ->
  (exists r l,
     BIT1.getPrefixSum fuel k {| BIT1._size := n; BIT1._bitArray := v |}
       = Done (r, {| BIT1._size := n; BIT1._bitArray := v |}) /\
     Compact.sum fuel k
         {| Compact.self := {| Compact.N := n; Compact.BIT := v |};
            Compact.accessed := log |}
       = Done (r, {| Compact.self := {| Compact.N := n; Compact.BIT := v |};
                     Compact.accessed := l ++ log |})) /\
  (n <= 2 ^ 30 -> 1 <= i ->
   exists w l,
     BIT1.updateTree fuel i d {| BIT1._size := n; BIT1._bitArray := v |}
       = Done (tt, {| BIT1._size := n; BIT1._bitArray := w |}) /\
     Compact.add fuel i d
         {| Compact.self := {| Compact.N := n; Compact.BIT := v |};
            Compact.accessed := log |}
       = Done (tt, {| Compact.self := {| Compact.N := n; Compact.BIT := w |};
                      Compact.accessed := l ++ log |})).
Proof.
  intros Hwf Hfuel. pose proof Hwf as (Hlen & Hmax & Hcells).
  cbn [BIT1._size BIT1._bitArray] in Hlen, Hmax.
  assert (Hwfc : Compact_reach.well_formed {| Compact.N := n; Compact.BIT := v |})
    by (split; assumption).
  split.
  - destruct (Z.le_gt_cases 1 k) as [H1|H1];
      [destruct (Z.lt_ge_cases k n) as [Hlt|Hge]|].
    + destruct (walk_to_zero v k) as [z Hz]; [lia|].
      destruct (sum_loop_walk {| Compact.N := n; Compact.BIT := v |} k z Hz
                  Hlt Hmax fuel 0 log ltac:(lia) in_range_0) as [l Hs].
      exists (Int32.wrap z), l. split.
      * apply getPrefixSum_walk; [exact Hwf | cbn; lia | exact Hz | lia].
      * unfold Compact.sum. rewrite Hs, Z.add_0_l. reflexivity.
    + exists 0, []. split.
      * unfold BIT1.getPrefixSum, bind, BIT1.size, ret. cbn [BIT1._size].
        destruct (Z.geb_spec k n); [reflexivity|lia].
      * unfold Compact.sum. rewrite sum_loop_eq. cbn [Compact.self Compact.N].
        rewrite guard_false by lia. reflexivity.
    + exists 0, []. split.
      * unfold BIT1.getPrefixSum, bind, BIT1.size, ret. cbn [BIT1._size].
        destruct (Z.geb_spec k n); [reflexivity|].
        rewrite getPrefixSum_loop_eq. destruct (Z.gtb_spec k 0); [lia|].
        reflexivity.
      * unfold Compact.sum. rewrite sum_loop_eq. cbn [Compact.self Compact.N].
        rewrite guard_false by lia. reflexivity.
  - intros Hn Hi. destruct (Z.lt_ge_cases i n) as [Hlt|Hge].
    + destruct (updateTree_returns d fuel i _ Hwf) as [t' Hrun];
        cbn [BIT1._size]; [lia | lia | lia |].
      destruct (updateTree_valid i d fuel _ t' Hwf ltac:(cbn; lia) Hrun)
        as ((Hlen' & _) & Hsz' & Hc).
      pose proof (lb_bounds i ltac:(lia)) as Hbi.
      destruct (add_spec i d fuel i
                  {| Compact.self := {| Compact.N := n; Compact.BIT := v |};
                     Compact.accessed := log |} Hwfc)
        as (m' & l & Hadd & HN' & Hlenc & Hacc & _);
        cbn [Compact.self Compact.N];
        [lia | intros _; apply in_span_spec; lia | lia |].
      destruct (add_valid i d fuel
                  {| Compact.self := {| Compact.N := n; Compact.BIT := v |};
                     Compact.accessed := log |} m' Hwfc ltac:(cbn; lia) Hadd)
        as (_ & _ & Hcc).
      cbn [BIT1._size BIT1._bitArray Compact.self Compact.N Compact.BIT
           Compact.accessed] in *.
      exists (BIT1._bitArray t'), l. split.
      * rewrite Hrun. destruct t' as [n' w]. cbn in Hsz'. subst n'. reflexivity.
      * rewrite Hadd. destruct m' as [[n' w'] acc'].
        cbn [Compact.self Compact.N Compact.BIT Compact.accessed] in *.
        subst n' acc'. do 4 f_equal.
        apply vec_ext; [lia|]. intros j Hj.
        rewrite (Hcc j ltac:(lia)), (Hc j ltac:(lia)). reflexivity.
    + exists v, []. split.
      * rewrite updateTree_eq. cbn [BIT1._size].
        destruct (Z.ltb_spec i n); [lia|reflexivity].
      * rewrite add_eq. cbn [Compact.self Compact.N].
        rewrite guard_false by lia. reflexivity.
Qed.

Lemma variants_agree_witness :
  (exists r l,
     BIT1.getPrefixSum 6 4 {| BIT1._size := 6; BIT1._bitArray := [0; 1; 3; 3; 10; 5] |}
       = Done (r, {| BIT1._size := 6; BIT1._bitArray := [0; 1; 3; 3; 10; 5] |}) /\
     Compact.sum 6 4
         {| Compact.self := {| Compact.N := 6; Compact.BIT := [0; 1; 3; 3; 10; 5] |};
            Compact.accessed := [] |}
       = Done (r, {| Compact.self :=
                       {| Compact.N := 6; Compact.BIT := [0; 1; 3; 3; 10; 5] |};
                     Compact.accessed := l ++ [] |})) /\
  (6 <= 2 ^ 30 -> 1 <= 3 ->
   exists w l,
     BIT1.updateTree 6 3 7 {| BIT1._size := 6; BIT1._bitArray := [0; 1; 3; 3; 10; 5] |}
       = Done (tt, {| BIT1._size := 6; BIT1._bitArray := w |}) /\
     Compact.add 6 3 7
         {| Compact.self := {| Compact.N := 6; Compact.BIT := [0; 1; 3; 3; 10; 5] |};
            Compact.accessed := [] |}
       = Done (tt, {| Compact.self := {| Compact.N := 6; Compact.BIT := w |};
                      Compact.accessed := l ++ [] |})).
Proof.
  apply (variants_agree 6 [0; 1; 3; 3; 10; 5] 4 3 7 6 []
           (proj1 (built_well_formed 5 elems5 tree5 tree5_built))).
  simpl. lia.
Defined.

(** ** Creating again on a used object *)

Lemma vec_resize_length n x (v : list Z) : length (vec_resize n x v) = n.
Proof.
  unfold vec_resize. rewrite length_app, length_take, length_replicate. lia.
Qed.

Lemma vec_resize_get n x (v : list Z) j :
  0 <= j < Z.of_nat n ->
  vec_get (vec_resize n x v) j =
  if j <? Z.of_nat (length v) then vec_get v j else Some x.
Proof.
  intros Hj. unfold vec_get, vec_resize.
  destruct (Z.leb_spec 0 j); [|lia].
  destruct (Z.ltb_spec j (Z.of_nat (length v))).
  - rewrite lookup_app_l by (rewrite length_take; lia).
    apply lookup_take_lt. lia.
  - rewrite lookup_app_r by (rewrite length_take; lia).
    apply lookup_replicate_2. rewrite length_take. lia.
Qed.

Lemma vec_resize_same n x (v : list Z) : length v = n -> vec_resize n x v = v.
Proof.
  intros <-. unfold vec_resize.
  rewrite firstn_all, Nat.sub_diag. apply app_nil_r.
Qed.

(** X19. [init] is not a reset: on an object that is already in use,
    [init(size)] with [size > 0] sets [N = size] and resizes the buffer,
    which keeps every cell below the old [N] and zeroes only the new ones;
    with [size] equal to the old [N] it changes nothing at all. *)
Theorem init_keeps_existing_cells (m : Compact.machine) (size : Z) :
  Compact_reach.well_formed (Compact.self m) -> 0 < size ->
  exists m',
    Compact.init size m = Done (tt, m') /\
    Compact.N (Compact.self m') = size /\
    Z.of_nat (length (Compact.BIT (Compact.self m'))) = size /\
    (forall j, 0 <= j < size ->
       vec_get (Compact.BIT (Compact.self m')) j =
       if j <? Compact.N (Compact.self m)
       then vec_get (Compact.BIT (Compact.self m)) j else Some 0) /\
    (size = Compact.N (Compact.self m) -> m' = m).
Proof.
  intros [Hlen Hmax] Hsize. rewrite init_positive by exact Hsize.
  eexists. split; [reflexivity|]. cbn [Compact.self Compact.N Compact.BIT].
  split; [reflexivity|]. split; [rewrite vec_resize_length; lia|]. split.
  - intros j Hj. rewrite vec_resize_get by lia. rewrite Hlen. reflexivity.
  - intros ->. rewrite vec_resize_same by lia.
    destruct m as [[n v] acc]. reflexivity.
Qed.

Lemma init_keeps_existing_cells_witness :
  exists m',
    Compact.init 6 (Compact.start compact5) = Done (tt, m') /\
    Compact.N (Compact.self m') = 6 /\
    Z.of_nat (length (Compact.BIT (Compact.self m'))) = 6 /\
    (forall j, 0 <= j < 6 ->
       vec_get (Compact.BIT (Compact.self m')) j =
       if j <? Compact.N (Compact.self (Compact.start compact5))
       then vec_get (Compact.BIT (Compact.self (Compact.start compact5))) j
       else Some 0) /\
    (6 = Compact.N (Compact.self (Compact.start compact5)) ->
     m' = Compact.start compact5).
Proof.
  apply (init_keeps_existing_cells (Compact.start compact5) 6
           (proj1 (compact_built_well_formed 5 elems5 compact5 compact5_built))).
  lia.
Defined.

Section BIT1_rebuild.
Import BIT1 BIT1_reach.

Lemma createFenwickTree_loop_adds cap (input : list Z) (e0 : Z -> Z) fuel :
  forall idx e t t',
  Z.of_nat (length input) = cap + 1 -> 1 <= idx <= cap + 1 ->
  built cap e t ->
  (forall j, 1 <= j < idx ->
     Some (e j) = (fun x => Int32.add (e0 j) x) <$> vec_get input j) ->
  (forall j, idx <= j -> e j = e0 j) ->
  createFenwickTree_loop fuel input idx t = Done (tt, t') ->
  exists e', built cap e' t' /\
    forall j, 1 <= j <= cap ->
      Some (e' j) = (fun x => Int32.add (e0 j) x) <$> vec_get input j.
Proof.
  induction fuel as [|fuel IH]; intros idx e t t' Hlen Hidx Hb Hlow Hhigh;
    pose proof (built_well_formed _ _ _ Hb) as [(_ & Hmax & _) Hsz];
    cbn [createFenwickTree_loop]; unfold Int32.to_size_t;
    rewrite Z.mod_small by (unfold Int32.max_int in *; lia);
    (destruct (Z.ltb_spec idx (Z.of_nat (length input))) as [Hlt|Hge];
     [|intros [= <-]; exists e; split; [exact Hb|]; intros j Hj; apply Hlow; lia]).
  - discriminate.
  - destruct (vec_get_Some input idx) as [x Hx]; [lia|]. rewrite Hx.
    unfold bind at 1.
    destruct (updateTree (S fuel) idx x t) as [[[] t1]| |] eqn:Hrun;
      try discriminate.
    assert (Hnext : Int32.add idx 1 = idx + 1).
    { apply wrap_small.
      unfold Int32.in_range, Int32.min_int, Int32.max_int in *. lia. }
    rewrite Hnext.
    apply (IH (idx + 1) (bump e idx x) t1 t'); [exact Hlen | lia | | |].
    + apply (built_update cap e t (S fuel) idx x t1 Hb); [lia | exact Hrun].
    + intros j Hj. unfold bump. destruct (Z.eqb_spec j idx) as [->|Hne].
      * rewrite Hx, (Hhigh idx) by lia. reflexivity.
      * apply Hlow. lia.
    + intros j Hj. unfold bump. destruct (Z.eqb_spec j idx); [lia|].
      apply Hhigh. lia.
Qed.

End BIT1_rebuild.

(** X20. [createFenwickTree] is not a reset either: called on a reachable
    tree with an input of the same length, the [resize] keeps every cell and
    the loop adds the input on top, so that each logical element becomes the
    old element plus [input[j]] (with [cap < 2^30], where the call is known
    to return). *)
Theorem rebuild_adds_to_existing_elements (cap : Z) (e : Z -> Z)
    (t : BIT1.BinaryIndexedTree) (input : list Z) (fuel : nat) :
  BIT1_reach.built cap e t -> cap < 2 ^ 30 ->
  Z.of_nat (length input) = cap + 1 -> (Z.to_nat cap <= fuel)%nat ->
  exists t' e',
    BIT1.createFenwickTree fuel input t = Done (tt, t') /\
    BIT1_reach.built cap e' t' /\
    forall j, 1 <= j <= cap ->
      exists x, vec_get input j = Some x /\
                e' j = Int32.add (e j) x /\
                BIT1.getOriginalValue fuel j t' = Done (Int32.add (e j) x, t').
Proof.
  intros Hb Hcap Hlen Hfuel. destruct (built_well_formed _ _ _ Hb) as [Hwf Hsz].
  pose proof Hwf as (Hl & Hmax & _).
  assert (Hcap0 : 0 <= cap) by (clear - Hb; induction Hb; assumption).
  assert (Hstep : forall r,
            BIT1.createFenwickTree fuel input t = r <->
            BIT1.createFenwickTree_loop fuel input 1 t = r).
  { intros r. unfold BIT1.createFenwickTree, bind, get, put, Int32.of_size_t.
    rewrite Hlen, wrap_small
      by (unfold Int32.in_range, Int32.min_int, Int32.max_int in *; lia).
    destruct (Z.ltb_spec (cap + 1) 0); [lia|].
    rewrite vec_resize_same by lia.
    destruct t as [n v]. cbn [BIT1._size BIT1._bitArray] in *. subst n.
    reflexivity. }
  destruct (createFenwickTree_loop_returns cap input fuel 1 t Hwf Hsz Hcap Hlen)
    as [t' Hrun]; [lia | lia |].
  destruct (createFenwickTree_loop_adds cap input e fuel 1 e t t' Hlen
              ltac:(lia) Hb) as (e' & Hb' & He'); [intros j Hj; lia | reflexivity
              | exact Hrun |].
  exists t', e'. split; [apply Hstep; exact Hrun|]. split; [exact Hb'|].
  intros j Hj. destruct (vec_get_Some input j) as [x Hx]; [lia|].
  exists x. split; [exact Hx|].
  specialize (He' j Hj). rewrite Hx in He'. cbn in He'. injection He' as He'.
  split; [exact He'|]. rewrite <- He'.
  apply (getOriginalValue_built cap e' t' j fuel Hb' Hj Hfuel).
Qed.

Lemma rebuild_adds_to_existing_elements_witness :
  exists t' e',
    BIT1.createFenwickTree 5 BIT1.ARR tree5 = Done (tt, t') /\
    BIT1_reach.built 5 e' t' /\
    forall j, 1 <= j <= 5 ->
      exists x, vec_get BIT1.ARR j = Some x /\
                e' j = Int32.add (elems5 j) x /\
                BIT1.getOriginalValue 5 j t' = Done (Int32.add (elems5 j) x, t').
Proof.
  apply (rebuild_adds_to_existing_elements 5 elems5 tree5 BIT1.ARR 5 tree5_built);
    [lia | reflexivity | simpl; lia].
Defined.

(** ** Hoare rules *)

Lemma hoare_ret {S A : Type} (P : S -> Prop) (a : A) (Q : A -> S -> Prop) :
  (forall s, P s -> Q a s) -> hoare P (ret a) Q.
Proof.
  intros H s Hs. split; [discriminate|]. intros a' s' [= <- <-]. apply H, Hs.
Qed.

Lemma hoare_bind {S A B : Type} (P : S -> Prop) (m : M S A)
    (Q1 : A -> S -> Prop) (k : A -> M S B) (Q2 : B -> S -> Prop) :
  hoare P m Q1 -> (forall a, hoare (Q1 a) (k a) Q2) -> hoare P (bind m k) Q2.
Proof.
  intros Hm Hk s Hs. destruct (Hm s Hs) as [Hnf Hdone]. unfold bind.
  destruct (m s) as [[a s1]| |]; [|congruence|split; [discriminate|discriminate]].
  apply (Hk a s1), Hdone. reflexivity.
Qed.

Lemma hoare_timeout {S A : Type} (P : S -> Prop) (Q : A -> S -> Prop) :
  hoare P (@timeout S A) Q.
Proof. intros s _. split; discriminate. Qed.

Lemma hoare_weaken {S A : Type} (P P' : S -> Prop) (m : M S A)
    (Q Q' : A -> S -> Prop) :
  hoare P m Q -> (forall s, P' s -> P s) -> (forall a s, Q a s -> Q' a s) ->
  hoare P' m Q'.
Proof.
  intros H HP HQ s Hs. destruct (H s (HP s Hs)) as [Hnf Hdone].
  split; [exact Hnf|]. intros a s' Hrun. apply HQ, Hdone, Hrun.
Qed.

(** ** BIT_2_compact_1: [main] *)

Section Compact_main_facts.
Import Compact Compact_reach Compact_main.

Lemma add_outcome num fuel : forall id m,
  well_formed (self m) ->
  add fuel id num m = Timeout \/
  exists m', add fuel id num m = Done (tt, m') /\
             well_formed (self m') /\ N (self m') = N (self m).
Proof.
  induction fuel as [|fuel IH]; intros id m Hwf; pose proof Hwf as [Hlen Hmax];
    rewrite add_eq;
    (destruct ((1 <=? id) && (id <? N (self m))) eqn:Hg;
     [|right; exists m; auto]).
  - left. reflexivity.
  - apply andb_true_iff in Hg as [H1 H2]. apply Z.leb_le in H1.
    apply Z.ltb_lt in H2.
    destruct (vec_get_Some (BIT (self m)) id) as [x Hx]; [lia|]. rewrite Hx.
    rewrite (vec_set_Some _ id) by lia.
    match goal with |- add fuel ?i num ?m1 = _ \/ _ =>
      destruct (IH i m1) as [Ht|(m' & Hrun & Hwf' & HN)] end.
    + split; cbn [self N BIT]; [rewrite length_insert; lia | lia].
    + left. exact Ht.
    + right. exists m'. cbn [self N] in HN. auto.
Qed.

Lemma sum_loop_outcome fuel : forall i acc m,
  well_formed (self m) ->
  sum_loop fuel i acc m = Timeout \/
  exists r m', sum_loop fuel i acc m = Done (r, m') /\ self m' = self m.
Proof.
  induction fuel as [|fuel IH]; intros i acc m Hwf; pose proof Hwf as [Hlen Hmax];
    rewrite sum_loop_eq;
    (destruct ((1 <=? i) && (i <? N (self m))) eqn:Hg;
     [|right; exists acc, m; auto]).
  - left. reflexivity.
  - apply andb_true_iff in Hg as [H1 H2]. apply Z.leb_le in H1.
    apply Z.ltb_lt in H2.
    destruct (vec_get_Some (BIT (self m)) i) as [x Hx]; [lia|]. rewrite Hx.
    match goal with |- sum_loop fuel ?j ?a ?m1 = _ \/ _ =>
      destruct (IH j a m1) as [Ht|(r & m' & Hrun & Hself)] end.
    + exact Hwf.
    + left. exact Ht.
    + right. exists r, m'. auto.
Qed.

Lemma compact_reachable_well_formed c : compact_reachable c -> well_formed c.
Proof.
  intros [->|(cap & e & Hb)].
  - split; cbn; [reflexivity | unfold Int32.max_int; lia].
  - apply (compact_built_well_formed _ _ _ Hb).
Qed.

(** The invariant of [main]: the object is one of the reachable ones. *)
Local Notation "'INV'" := (fun p : process => compact_reachable (self (bit p))).

Lemma hoare_cout_item s : hoare INV (cout_item s) (fun _ p => INV p).
Proof.
  intros p Hp. split; [discriminate|]. intros a p' [= _ <-]. exact Hp.
Qed.

Lemma hoare_cin_int old : hoare INV (cin_int old) (fun _ p => INV p).
Proof.
  intros p Hp. unfold cin_int. split.
  - destruct (cin p) as [|[z|] rest]; try discriminate.
    destruct (z <? Int32.min_int); [discriminate|].
    destruct (Int32.max_int <? z); discriminate.
  - intros a p'. destruct (cin p) as [|[z|] rest].
    + intros [= _ <-]. exact Hp.
    + destruct (z <? Int32.min_int); [intros [= _ <-]; exact Hp|].
      destruct (Int32.max_int <? z); intros [= _ <-]; exact Hp.
    + intros [= _ <-]. exact Hp.
Qed.

Lemma hoare_check id :
  hoare INV (call (check id))
        (fun ok p => INV p /\ (ok = true -> 1 <= id < N (self (bit p)))).
Proof.
  intros p Hp. unfold call, check. split; [discriminate|].
  intros ok p' [= <- <-]. cbn [bit]. split; [exact Hp|].
  rewrite andb_true_iff, Z.leb_le, Z.ltb_lt. auto.
Qed.

Lemma hoare_add fuel id val :
  hoare (fun p => INV p /\ 1 <= id < N (self (bit p)))
        (call (add fuel id val)) (fun _ p => INV p).
Proof.
  intros p [Hp Hid]. unfold call.
  destruct (add_outcome val fuel id (bit p) (compact_reachable_well_formed _ Hp))
    as [Ht|(m' & Hrun & _)].
  - rewrite Ht. split; discriminate.
  - rewrite Hrun. split; [discriminate|]. intros a p' [= _ <-]. cbn [bit].
    destruct Hp as [Hnew|(cap & e & Hb)].
    + rewrite Hnew in Hid. cbn in Hid. lia.
    + destruct (compact_built_well_formed _ _ _ Hb) as [_ HN].
      right. exists cap, (bump e id val).
      destruct (bit p) as [c log] eqn:Hbit. cbn [self] in *.
      apply (built_add cap e c log fuel id val m' Hb); [lia | exact Hrun].
Qed.

Lemma hoare_sum fuel id :
  hoare INV (call (sum fuel id)) (fun _ p => INV p).
Proof.
  intros p Hp. unfold call, sum.
  destruct (sum_loop_outcome fuel id 0 (bit p)
              (compact_reachable_well_formed _ Hp)) as [Ht|(r & m' & Hrun & Hs)].
  - rewrite Ht. split; discriminate.
  - rewrite Hrun. split; [discriminate|]. intros a p' [= _ <-]. cbn [bit].
    rewrite Hs. exact Hp.
Qed.

Lemma hoare_init n :
  hoare (fun p => bit p = start new) (call (main_init n)) (fun _ p => INV p).
Proof.
  intros p Hp. unfold call. rewrite Hp.
  destruct (Z.le_gt_cases (Int32.add n 1) 0) as [Hle|Hgt].
  - unfold main_init. rewrite init_nonpositive by exact Hle.
    split; [discriminate|]. intros a p' [= _ <-]. left. reflexivity.
  - unfold main_init. rewrite init_positive by exact Hgt.
    split; [discriminate|]. intros a p' [= _ <-]. cbn [bit self]. right.
    pose proof (wrap_in_range (n + 1)) as Hr. fold (Int32.add n 1) in Hr.
    unfold Int32.in_range in Hr.
    exists (Int32.add n 1 - 1), (fun _ => 0).
    match goal with |- built _ _ ?c =>
      change c with (self {| self := c; accessed := accessed (start new) |}) end.
    apply built_init; [lia | lia |].
    unfold main_init.
    assert (Hs : Int32.add (Int32.add n 1 - 1) 1 = Int32.add n 1).
    { unfold Int32.add at 1. replace (Int32.add n 1 - 1 + 1) with (Int32.add n 1) by lia.
      apply wrap_small. exact Hr. }
    rewrite Hs, init_positive by exact Hgt. reflexivity.
Qed.

Lemma main_loop_hoare fuel : forall ch val id,
  hoare INV (main_loop fuel ch val id) (fun r p => r = 0 /\ INV p).
Proof.
  induction fuel as [|fuel IH]; intros ch val id; cbn [main_loop].
  - apply hoare_timeout.
  - eapply hoare_bind; [apply hoare_cout_item|]. intros ?; cbv beta.
    eapply hoare_bind; [apply hoare_cout_item|]. intros ?; cbv beta.
    eapply hoare_bind; [apply hoare_cin_int|]. intros ch'; cbv beta.
    eapply hoare_bind; [apply hoare_cout_item|]. intros ?; cbv beta.
    destruct (ch' =? 1); [|destruct (ch' =? 2)].
    + eapply hoare_bind; [apply hoare_cout_item|]. intros ?; cbv beta.
      eapply hoare_bind; [apply hoare_cin_int|]. intros val'; cbv beta.
      eapply hoare_bind; [apply hoare_cout_item|]. intros ?; cbv beta.
      eapply hoare_bind; [apply hoare_cin_int|]. intros id'; cbv beta.
      eapply hoare_bind; [apply hoare_check|]. intros ok; cbv beta.
      eapply hoare_bind; [|intros ?; apply IH].
      destruct ok.
      * eapply hoare_weaken; [apply hoare_add| |intros ? ? H; exact H].
        intros s [Hs Hok]. split; [exact Hs | apply Hok; reflexivity].
      * eapply hoare_bind; [|intros ?; apply hoare_cout_item].
        eapply hoare_weaken; [apply hoare_cout_item| |intros ? ? H; exact H].
        intros s [Hs _]. exact Hs.
    + eapply hoare_bind; [apply hoare_cout_item|]. intros ?; cbv beta.
      eapply hoare_bind; [apply hoare_cin_int|]. intros id'; cbv beta.
      eapply hoare_bind; [apply hoare_check|]. intros ok; cbv beta.
      eapply hoare_bind; [|intros ?; apply IH].
      destruct ok.
      * eapply hoare_bind;
          [eapply hoare_weaken; [apply hoare_cout_item| |intros ? ? H; exact H];
           intros s [Hs _]; exact Hs|].
        intros ?; cbv beta.
        eapply hoare_bind; [|intros ?; apply hoare_cout_item].
        eapply hoare_bind; [apply hoare_sum|]. intros r. apply hoare_cout_item.
      * eapply hoare_bind; [|intros ?; apply hoare_cout_item].
        eapply hoare_weaken; [apply hoare_cout_item| |intros ? ? H; exact H].
        intros s [Hs _]. exact Hs.
    + apply hoare_ret. auto.
Qed.

End Compact_main_facts.

Lemma bind_Done {S A B : Type} (m : M S A) (k : A -> M S B) s a s' :
  m s = Done (a, s') -> bind m k s = k a s'.
Proof. intros H. unfold bind. rewrite H. reflexivity. Qed.

Lemma bind_Timeout {S A B : Type} (m : M S A) (k : A -> M S B) s :
  m s = Timeout -> bind m k s = Timeout.
Proof. intros H. unfold bind. rewrite H. reflexivity. Qed.

Lemma bind_assoc {S A B C : Type} (m : M S A) (f : A -> M S B)
    (g : B -> M S C) s :
  bind (bind m f) g s = bind m (fun a => bind (f a) g) s.
Proof. unfold bind. destruct (m s) as [[a s1]| |]; reflexivity. Qed.

Section Compact_main_rounds.
Import Compact Compact_reach Compact_main.

Lemma call_Done {A : Type} (m : M machine A) p a b :
  m (bit p) = Done (a, b) ->
  call m p = Done (a, {| bit := b; cin := cin p; cout := cout p |}).
Proof. intros H. unfold call. rewrite H. reflexivity. Qed.

Lemma call_Timeout {A : Type} (m : M machine A) p :
  m (bit p) = Timeout -> call m p = Timeout.
Proof. intros H. unfold call. rewrite H. reflexivity. Qed.

Lemma cin_int_fits old z b rest o :
  Int32.in_range z ->
  cin_int old {| bit := b; cin := Int z :: rest; cout := o |}
  = Done (z, {| bit := b; cin := rest; cout := o |}).
Proof.
  unfold Int32.in_range. intros Hz. unfold cin_int. cbn [cin bit cout].
  destruct (Z.ltb_spec z Int32.min_int); [lia|].
  destruct (Z.ltb_spec Int32.max_int z); [lia|]. reflexivity.
Qed.

Lemma cin_int_eof old b o :
  cin_int old {| bit := b; cin := []; cout := o |}
  = Done (old, {| bit := b; cin := []; cout := o |}).
Proof. reflexivity. Qed.

Ltac out := rewrite ?bind_assoc; erewrite bind_Done by (unfold cout_endl, cout_item; reflexivity); cbn [bit cin cout]; rewrite ?bind_assoc.
Ltac inp := erewrite bind_Done by apply cin_int_eof.

Lemma main_loop_eof fuel : forall ch val id b o,
  well_formed (self b) -> ch = 1 \/ ch = 2 ->
  main_loop fuel ch val id {| bit := b; cin := []; cout := o |} = Timeout.
Proof.
  induction fuel as [|fuel IH]; intros ch val id b o Hwf Hch; [reflexivity|].
  cbn [main_loop]. out. out. inp. out.
  destruct Hch as [-> | ->]; cbn [Z.eqb Pos.eqb].
  - out. inp. out. inp.
    erewrite bind_Done by (unfold call, check; reflexivity). cbn [bit cin cout].
    destruct ((1 <=? id) && (id <? N (self b))).
    + destruct (add_outcome val (S fuel) id b Hwf) as [Ht|(m' & Hrun & Hwf' & _)].
      * apply bind_Timeout, call_Timeout. exact Ht.
      * erewrite bind_Done by (apply call_Done; exact Hrun). cbn [bit cin cout].
        apply IH; [exact Hwf' | left; reflexivity].
    + rewrite bind_assoc. out. out. apply IH; [exact Hwf | left; reflexivity].
  - out. inp.
    erewrite bind_Done by (unfold call, check; reflexivity). cbn [bit cin cout].
    destruct ((1 <=? id) && (id <? N (self b))).
    + rewrite !bind_assoc. out.
      destruct (sum_loop_outcome (S fuel) id 0 b Hwf) as [Ht|(r & m' & Hrun & Hs)].
      * apply bind_Timeout, call_Timeout. exact Ht.
      * erewrite bind_Done by (apply call_Done; exact Hrun). cbn [bit cin cout].
        out. out. apply IH; [rewrite Hs; exact Hwf | right; reflexivity].
    + rewrite bind_assoc. out. out. apply IH; [exact Hwf | right; reflexivity].
Qed.

Ltac inp_fits := erewrite bind_Done by (apply cin_int_fits; assumption).

Lemma in_range_2 : Int32.in_range 2.
Proof. unfold Int32.in_range, Int32.min_int, Int32.max_int. lia. Qed.
Lemma in_range_1 : Int32.in_range 1.
Proof. unfold Int32.in_range, Int32.min_int, Int32.max_int. lia. Qed.

Lemma query_round fuel ch val id c log rest o cap e k :
  built cap e c -> 1 <= k <= cap -> (Z.to_nat cap <= fuel)%nat ->
  exists l,
    main_loop (S fuel) ch val id
      {| bit := {| self := c; accessed := log |};
         cin := Int 2 :: Int k :: rest; cout := o |}
    = main_loop fuel 2 val k
      {| bit := {| self := c; accessed := l ++ log |}; cin := rest;
         cout := o ++ [newline; "Enter your choice: "; newline;
                       "  Enter index: "; "    sum = ";
                       show_int (range_sum e 0 k); newline] |}.
Proof.
  intros Hb Hk Hfuel. destruct (compact_built_well_formed _ _ _ Hb) as [[Hlen Hmax] HN].
  assert (Hkr : Int32.in_range k)
    by (unfold Int32.in_range, Int32.min_int, Int32.max_int in *; lia).
  pose proof in_range_2 as H2.
  destruct (compact_sum_built cap e c k (S fuel) log Hb ltac:(lia) ltac:(lia)) as [l Hs].
  exists l. cbn [main_loop]. out. out. inp_fits. out. cbn [Z.eqb Pos.eqb].
  out. inp_fits.
  erewrite bind_Done by (unfold call, check; reflexivity). cbn [bit cin cout self].
  rewrite guard_true by lia. out.
  erewrite bind_Done by (apply call_Done; exact Hs). cbn [bit cin cout].
  out. out. rewrite <- !app_assoc. reflexivity.
Qed.

Lemma add_round fuel ch val id c log rest o cap e i v :
  built cap e c -> 1 <= i <= cap -> Int32.in_range v ->
  (Z.to_nat cap <= fuel)%nat ->
  exists m',
    add (S fuel) i v {| self := c; accessed := log |} = Done (tt, m') /\
    built cap (bump e i v) (self m') /\
    main_loop (S fuel) ch val id
      {| bit := {| self := c; accessed := log |};
         cin := Int 1 :: Int v :: Int i :: rest; cout := o |}
    = main_loop fuel 1 v i
      {| bit := m'; cin := rest;
         cout := o ++ [newline; "Enter your choice: "; newline;
                       "  Enter number to add: "; "  Enter index: "] |}.
Proof.
  intros Hb Hi Hv Hfuel. destruct (compact_built_well_formed _ _ _ Hb) as [Hwf HN].
  pose proof Hwf as [Hlen Hmax].
  assert (Hir : Int32.in_range i)
    by (unfold Int32.in_range, Int32.min_int, Int32.max_int in *; lia).
  pose proof in_range_1 as H1.
  pose proof (lb_bounds i ltac:(lia)) as Hbi.
  destruct (add_spec i v (S fuel) i {| self := c; accessed := log |})
    as (m' & l0 & Hrun & _); cbn [self];
    [exact Hwf | lia | intros _; apply in_span_spec; lia | lia |].
  exists m'. split; [exact Hrun|].
  split; [apply (built_add cap e c log (S fuel) i v m' Hb Hi Hrun)|].
  cbn [main_loop]. out. out. inp_fits. out. cbn [Z.eqb Pos.eqb].
  out. inp_fits. out. inp_fits.
  erewrite bind_Done by (unfold call, check; reflexivity). cbn [bit cin cout self].
  rewrite guard_true by lia.
  erewrite bind_Done by (apply call_Done; exact Hrun). cbn [bit cin cout].
  rewrite <- !app_assoc. reflexivity.
Qed.

Lemma rejected_round fuel ch val id b rest o i v :
  ~ 1 <= i < N (self b) -> Int32.in_range i -> Int32.in_range v ->
  main_loop (S fuel) ch val id
      {| bit := b; cin := Int 1 :: Int v :: Int i :: rest; cout := o |}
    = main_loop fuel 1 v i
      {| bit := b; cin := rest;
         cout := o ++ [newline; "Enter your choice: "; newline;
                       "  Enter number to add: "; "  Enter index: ";
                       "  incorrect index given..."; newline] |} /\
  main_loop (S fuel) ch val id
      {| bit := b; cin := Int 2 :: Int i :: rest; cout := o |}
    = main_loop fuel 2 val i
      {| bit := b; cin := rest;
         cout := o ++ [newline; "Enter your choice: "; newline;
                       "  Enter index: ";
                       "  incorrect index given..."; newline] |}.
Proof.
  intros Hi Hir Hv. pose proof in_range_1 as H1. pose proof in_range_2 as H2.
  split.
  - cbn [main_loop]. out. out. inp_fits. out. cbn [Z.eqb Pos.eqb].
    out. inp_fits. out. inp_fits.
    erewrite bind_Done by (unfold call, check; reflexivity). cbn [bit cin cout self].
    rewrite guard_false by lia. out. out.
    rewrite <- !app_assoc. reflexivity.
  - cbn [main_loop]. out. out. inp_fits. out. cbn [Z.eqb Pos.eqb].
    out. inp_fits.
    erewrite bind_Done by (unfold call, check; reflexivity). cbn [bit cin cout self].
    rewrite guard_false by lia. out. out.
    rewrite <- !app_assoc. reflexivity.
Qed.

End Compact_main_rounds.

(** X21. The interactive [main] of the compact variant never subscripts the
    buffer out of bounds, whatever the input: it only applies [add] and
    [sum] at indices that passed [check].  When it returns it returns 0, and
    the object it leaves is the fresh one or one that [init] and valid
    [add]s produce. *)
Theorem compact_main_is_safe (tokens : list Compact_main.token) (fuel : nat) :
  Compact_main.main fuel (Compact_main.initial tokens) <> Fault /\
  forall r p,
    Compact_main.main fuel (Compact_main.initial tokens) = Done (r, p) ->
    r = 0 /\ compact_reachable (Compact.self (Compact_main.bit p)).
Proof.
  assert (H : hoare (fun p => Compact_main.bit p = Compact.start Compact.new)
                    (Compact_main.main fuel)
                    (fun r p => r = 0 /\
                       compact_reachable (Compact.self (Compact_main.bit p)))).
  { unfold Compact_main.main.
    eapply hoare_bind with (Q1 := fun _ p =>
        Compact_main.bit p = Compact.start Compact.new).
    { intros p Hp. split; [discriminate|]. intros a p' [= _ <-]. exact Hp. }
    intros ?; cbv beta.
    eapply hoare_bind with (Q1 := fun _ p =>
        Compact_main.bit p = Compact.start Compact.new).
    { intros p Hp. unfold Compact_main.cin_int. split.
      - destruct (Compact_main.cin p) as [|[z|] rest]; try discriminate.
        destruct (z <? Int32.min_int); [discriminate|].
        destruct (Int32.max_int <? z); discriminate.
      - intros x p'. destruct (Compact_main.cin p) as [|[z|] rest].
        + intros [= _ <-]. exact Hp.
        + destruct (z <? Int32.min_int); [intros [= _ <-]; exact Hp|].
          destruct (Int32.max_int <? z); intros [= _ <-]; exact Hp.
        + intros [= _ <-]. exact Hp. }
    intros n; cbv beta.
    eapply hoare_bind; [apply hoare_init|]. intros ?; cbv beta.
    do 7 (eapply hoare_bind; [apply hoare_cout_item|]; intros ?; cbv beta).
    apply main_loop_hoare. }
  destruct (H (Compact_main.initial tokens) eq_refl) as [Hnf Hdone].
  split; [exact Hnf|]. intros r p Hrun. apply (Hdone r p Hrun).
Qed.

(** X22. End of input does not end the compact [main]: once the input is
    exhausted every [cin >>] leaves its variable as it was, so with the last
    choice equal to 1 or 2 the loop repeats that command for ever. *)
Theorem compact_main_loop_spins_at_end_of_input (fuel : nat) (ch val id : Z)
    (b : Compact.machine) (o : list string) :
  Compact_reach.well_formed (Compact.self b) -> ch = 1 \/ ch = 2 ->
  Compact_main.main_loop fuel ch val id
    {| Compact_main.bit := b; Compact_main.cin := []; Compact_main.cout := o |}
  = Timeout.
Proof. intros Hwf Hch. apply main_loop_eof; assumption. Qed.

Lemma compact_main_loop_spins_at_end_of_input_witness :
  Compact_main.main_loop 50 1 10 3
    {| Compact_main.bit := Compact.start compact5; Compact_main.cin := [];
       Compact_main.cout := [] |}
  = Timeout.
Proof.
  apply (compact_main_loop_spins_at_end_of_input 50 1 10 3
           (Compact.start compact5) []
           (proj1 (compact_built_well_formed 5 elems5 compact5 compact5_built))).
  left. reflexivity.
Defined.

(** X23. A query command on a reachable structure prints the prefix sum of
    the logical elements: with the input [2 k] and [1 <= k <= cap], one
    round of the loop of [main] inserts the prompts, ["    sum = "], the
    decimal text of the sum of the elements [1..k] and a newline, leaves the
    structure as it was and goes on with the rest of the input. *)
Theorem compact_main_query_prints_element_sum (fuel : nat) (ch val id : Z)
    (c : Compact.BinaryIndexedTree_Compact) (log : list Z)
    (rest : list Compact_main.token) (o : list string)
    (cap : Z) (e : Z -> Z) (k : Z) :
  Compact_reach.built cap e c -> 1 <= k <= cap -> (Z.to_nat cap <= fuel)%nat ->
  exists l,
    Compact_main.main_loop (S fuel) ch val id
      {| Compact_main.bit := {| Compact.self := c; Compact.accessed := log |};
         Compact_main.cin := Compact_main.Int 2 :: Compact_main.Int k :: rest;
         Compact_main.cout := o |}
    = Compact_main.main_loop fuel 2 val k
      {| Compact_main.bit :=
           {| Compact.self := c; Compact.accessed := l ++ log |};
         Compact_main.cin := rest;
         Compact_main.cout :=
           o ++ [newline; "Enter your choice: "; newline;
                 "  Enter index: "; "    sum = ";
                 show_int (range_sum e 0 k); newline] |}.
Proof. intros Hb Hk Hfuel. exact (query_round fuel ch val id c log rest o cap e k Hb Hk Hfuel). Qed.

Lemma compact_main_query_prints_element_sum_witness :
  exists l,
    Compact_main.main_loop 6 0 0 0
      {| Compact_main.bit := {| Compact.self := compact5; Compact.accessed := [] |};
         Compact_main.cin := [Compact_main.Int 2; Compact_main.Int 4;
                              Compact_main.Int 3];
         Compact_main.cout := [] |}
    = Compact_main.main_loop 5 2 0 4
      {| Compact_main.bit :=
           {| Compact.self := compact5; Compact.accessed := l ++ [] |};
         Compact_main.cin := [Compact_main.Int 3];
         Compact_main.cout :=
           [] ++ [newline; "Enter your choice: "; newline;
                  "  Enter index: "; "    sum = ";
                  show_int (range_sum elems5 0 4); newline] |}.
Proof.
  apply (compact_main_query_prints_element_sum 5 0 0 0 compact5 []
           [Compact_main.Int 3] [] 5 elems5 4 compact5_built);
    [lia | simpl; lia].
Defined.

(** X24. An add command at a valid index updates the logical element: with
    the input [1 v i], [1 <= i <= cap] and [v] an [int], one round of the
    loop of [main] inserts the prompts only, calls [add(i, v)], which
    returns, and goes on with a reachable structure whose element [i] has
    grown by [v]. *)
Theorem compact_main_add_updates_element (fuel : nat) (ch val id : Z)
    (c : Compact.BinaryIndexedTree_Compact) (log : list Z)
    (rest : list Compact_main.token) (o : list string)
    (cap : Z) (e : Z -> Z) (i v : Z) :
  Compact_reach.built cap e c -> 1 <= i <= cap -> Int32.in_range v ->
  (Z.to_nat cap <= fuel)%nat ->
  exists m',
    Compact.add (S fuel) i v {| Compact.self := c; Compact.accessed := log |}
      = Done (tt, m') /\
    Compact_reach.built cap (bump e i v) (Compact.self m') /\
    Compact_main.main_loop (S fuel) ch val id
      {| Compact_main.bit := {| Compact.self := c; Compact.accessed := log |};
         Compact_main.cin :=
           Compact_main.Int 1 :: Compact_main.Int v :: Compact_main.Int i :: rest;
         Compact_main.cout := o |}
    = Compact_main.main_loop fuel 1 v i
      {| Compact_main.bit := m'; Compact_main.cin := rest;
         Compact_main.cout :=
           o ++ [newline; "Enter your choice: "; newline;
                 "  Enter number to add: "; "  Enter index: "] |}.
Proof.
  intros Hb Hi Hv Hfuel.
  exact (add_round fuel ch val id c log rest o cap e i v Hb Hi Hv Hfuel).
Qed.

Lemma compact_main_add_updates_element_witness :
  exists m',
    Compact.add 6 3 10 {| Compact.self := compact5; Compact.accessed := [] |}
      = Done (tt, m') /\
    Compact_reach.built 5 (bump elems5 3 10) (Compact.self m') /\
    Compact_main.main_loop 6 0 0 0
      {| Compact_main.bit := {| Compact.self := compact5; Compact.accessed := [] |};
         Compact_main.cin :=
           Compact_main.Int 1 :: Compact_main.Int 10 :: Compact_main.Int 3 :: [];
         Compact_main.cout := [] |}
    = Compact_main.main_loop 5 1 10 3
      {| Compact_main.bit := m'; Compact_main.cin := [];
         Compact_main.cout :=
           [] ++ [newline; "Enter your choice: "; newline;
                  "  Enter number to add: "; "  Enter index: "] |}.
Proof.
  apply (compact_main_add_updates_element 5 0 0 0 compact5 [] [] [] 5 elems5
           3 10 compact5_built); [lia | | simpl; lia].
  unfold Int32.in_range, Int32.min_int, Int32.max_int. lia.
Defined.

(** X25. An index that fails [check] is reported and nothing else happens:
    with an [int] index outside [[1, N)], the add command ([1 v i]) and the
    query command ([2 i]) insert ["  incorrect index given..."] and a
    newline after their prompts and go on with the object untouched, not
    even read. *)
Theorem compact_main_rejects_bad_index (fuel : nat) (ch val id : Z)
    (b : Compact.machine) (rest : list Compact_main.token) (o : list string)
    (i v : Z) :
  ~ 1 <= i < Compact.N (Compact.self b) ->
  Int32.in_range i -> Int32.in_range v ->
  Compact_main.main_loop (S fuel) ch val id
      {| Compact_main.bit := b;
         Compact_main.cin :=
           Compact_main.Int 1 :: Compact_main.Int v :: Compact_main.Int i :: rest;
         Compact_main.cout := o |}
    = Compact_main.main_loop fuel 1 v i
      {| Compact_main.bit := b; Compact_main.cin := rest;
         Compact_main.cout :=
           o ++ [newline; "Enter your choice: "; newline;
                 "  Enter number to add: "; "  Enter index: ";
                 "  incorrect index given..."; newline] |} /\
  Compact_main.main_loop (S fuel) ch val id
      {| Compact_main.bit := b;
         Compact_main.cin := Compact_main.Int 2 :: Compact_main.Int i :: rest;
         Compact_main.cout := o |}
    = Compact_main.main_loop fuel 2 val i
      {| Compact_main.bit := b; Compact_main.cin := rest;
         Compact_main.cout :=
           o ++ [newline; "Enter your choice: "; newline;
                 "  Enter index: ";
                 "  incorrect index given..."; newline] |}.
Proof.
  intros Hi Hir Hv. exact (rejected_round fuel ch val id b rest o i v Hi Hir Hv).
Qed.

Lemma compact_main_rejects_bad_index_witness :
  Compact_main.main_loop 1 0 0 0
      {| Compact_main.bit := Compact.start compact5;
         Compact_main.cin :=
           Compact_main.Int 1 :: Compact_main.Int 7 :: Compact_main.Int 6 :: [];
         Compact_main.cout := [] |}
    = Compact_main.main_loop 0 1 7 6
      {| Compact_main.bit := Compact.start compact5; Compact_main.cin := [];
         Compact_main.cout :=
           [] ++ [newline; "Enter your choice: "; newline;
                  "  Enter number to add: "; "  Enter index: ";
                  "  incorrect index given..."; newline] |} /\
  Compact_main.main_loop 1 0 0 0
      {| Compact_main.bit := Compact.start compact5;
         Compact_main.cin := Compact_main.Int 2 :: Compact_main.Int 6 :: [];
         Compact_main.cout := [] |}
    = Compact_main.main_loop 0 2 0 6
      {| Compact_main.bit := Compact.start compact5; Compact_main.cin := [];
         Compact_main.cout :=
           [] ++ [newline; "Enter your choice: "; newline;
                  "  Enter index: ";
                  "  incorrect index given..."; newline] |}.
Proof.
  apply (compact_main_rejects_bad_index 0 0 0 0 (Compact.start compact5) [] []
           6 7); [simpl; lia | |];
    unfold Int32.in_range, Int32.min_int, Int32.max_int; lia.
Defined.

(** ** BIT_1: [printTree], [testForGetSum] and [main] *)

Lemma indices_between_nil lo hi : hi <= lo -> indices_between lo hi = [].
Proof.
  intros H. unfold indices_between. replace (Z.to_nat (hi - lo)) with 0%nat by lia.
  reflexivity.
Qed.

Lemma indices_between_cons lo hi :
  lo < hi -> indices_between lo hi = (lo + 1) :: indices_between (lo + 1) hi.
Proof.
  intros H. unfold indices_between.
  replace (Z.to_nat (hi - lo)) with (S (Z.to_nat (hi - (lo + 1)))) by lia.
  cbn [seq map]. f_equal; try lia.
  rewrite <- seq_shift, map_map. apply map_ext. intros k. lia.
Qed.

Section BIT1_main_facts.
Import BIT1 BIT1_reach BIT1_main.

Lemma bit1_call_Done {A : Type} (m : M BinaryIndexedTree A) p a t :
  m (bitObj p) = Done (a, t) ->
  call m p = Done (a, {| bitObj := t; cout := cout p |}).
Proof. intros H. unfold call. rewrite H. reflexivity. Qed.

Ltac out1 :=
  rewrite ?bind_assoc;
  erewrite bind_Done by (unfold cout_endl, cout_item; reflexivity);
  cbn [bitObj cout]; rewrite ?bind_assoc.

Ltac size1 :=
  rewrite ?bind_assoc;
  erewrite bind_Done by (unfold call, size; reflexivity);
  cbn [bitObj cout]; rewrite ?bind_assoc.

Lemma next_index idx : 0 <= idx < Int32.max_int -> Int32.add idx 1 = idx + 1.
Proof.
  intros H. apply wrap_small.
  unfold Int32.in_range, Int32.min_int, Int32.max_int in *. lia.
Qed.

Lemma printTree_original_spec cap e t fuel : forall idx o,
  built cap e t -> 1 <= idx <= cap + 1 ->
  (Z.to_nat (cap + 1 - idx) + Z.to_nat cap <= fuel)%nat ->
  printTree_original fuel idx {| bitObj := t; cout := o |}
  = Done (tt, {| bitObj := t;
                 cout := o ++ concat (map (original_line e)
                                          (indices_between (idx - 1) cap)) |}).
Proof.
  induction fuel as [|fuel IH]; intros idx o Hb Hidx Hfuel;
    destruct (built_well_formed _ _ _ Hb) as [(Hlen & Hmax & _) Hsz];
    cbn [printTree_original]; size1;
    (destruct (Z.ltb_spec idx (_size t)) as [Hlt|Hge];
     [|rewrite indices_between_nil by lia; cbn [map concat];
       rewrite app_nil_r; reflexivity]).
  - lia.
  - out1. out1. out1.
    erewrite bind_Done
      by (apply bit1_call_Done; cbn [bitObj];
          apply (getOriginalValue_built cap e t idx (S fuel) Hb); lia).
    cbn [bitObj cout]. out1. out1.
    rewrite next_index by lia. rewrite IH by (auto; lia).
    rewrite (indices_between_cons (idx - 1) cap) by lia.
    replace (idx - 1 + 1) with idx by lia.
    cbn [map concat]. unfold original_line at 2.
    rewrite <- !app_assoc. replace (idx + 1 - 1) with idx by lia.
    reflexivity.
Qed.

Lemma sumStr_loop_spec fuel : forall prevIdx idx s (p : process),
  0 <= idx < Int32.max_int -> 1 <= prevIdx <= idx + 1 ->
  (Z.to_nat (idx + 1 - prevIdx) <= fuel)%nat ->
  sumStr_loop fuel prevIdx idx s p
  = Done (fold_left (fun s k => s +:+ (" + " +:+ show_int k))
                    (indices_between (prevIdx - 1) idx) s, p).
Proof.
  induction fuel as [|fuel IH]; intros prevIdx idx s p Hidx Hprev Hfuel;
    cbn [sumStr_loop];
    (destruct (Z.leb_spec prevIdx idx) as [Hle|Hgt];
     [|rewrite indices_between_nil by lia; reflexivity]).
  - lia.
  - rewrite next_index by lia. rewrite IH by lia.
    rewrite (indices_between_cons (prevIdx - 1) idx) by lia.
    replace (prevIdx - 1 + 1) with prevIdx by lia.
    replace (prevIdx + 1 - 1) with prevIdx by lia.
    reflexivity.
Qed.

Lemma printTree_fenwick_spec cap e t fuel : forall idx o,
  built cap e t -> 1 <= idx <= cap + 1 ->
  (Z.to_nat (cap + 1 - idx) + Z.to_nat cap <= fuel)%nat ->
  printTree_fenwick fuel idx {| bitObj := t; cout := o |}
  = Done (tt, {| bitObj := t;
                 cout := o ++ concat (map (fenwick_line e)
                                          (indices_between (idx - 1) cap)) |}).
Proof.
  induction fuel as [|fuel IH]; intros idx o Hb Hidx Hfuel;
    destruct (built_well_formed _ _ _ Hb) as [(Hlen & Hmax & _) Hsz];
    cbn [printTree_fenwick]; size1;
    (destruct (Z.ltb_spec idx (_size t)) as [Hlt|Hge];
     [|rewrite indices_between_nil by lia; cbn [map concat];
       rewrite app_nil_r; reflexivity]).
  - lia.
  - assert (Hprev : getPrev idx = idx - Z.land idx (- idx))
      by (apply getPrev_eq; lia).
    assert (Hlb : 0 < Z.land idx (- idx) <= idx) by (apply lb_bounds; lia).
    assert (Hnext : Int32.add (getPrev idx) 1 = idx - Z.land idx (- idx) + 1)
      by (rewrite Hprev; apply next_index; lia).
    cbv zeta. rewrite Hnext.
    erewrite bind_Done by (apply sumStr_loop_spec; lia).
    out1. out1. out1.
    erewrite bind_Done
      by (apply bit1_call_Done; cbn [bitObj]; unfold read;
          rewrite (built_aggregates_ok _ _ _ Hb idx) by lia; reflexivity).
    cbn [bitObj cout]. out1. out1. out1. out1.
    rewrite next_index by lia. rewrite IH by (auto; lia).
    rewrite (indices_between_cons (idx - 1) cap) by lia.
    replace (idx - 1 + 1) with idx by lia.
    cbn [map concat]. unfold fenwick_line at 2, span_text.
    rewrite lowbit_eq by lia.
    replace (idx - Z.land idx (- idx) + 1 - 1) with (idx - Z.land idx (- idx))
      by lia.
    rewrite <- !app_assoc. replace (idx + 1 - 1) with idx by lia.
    reflexivity.
Qed.

Lemma testForGetSum_inner_spec cap e t fuel : forall i j o,
  built cap e t -> 1 <= i -> i <= j <= cap + 1 ->
  (Z.to_nat (cap + 1 - j) + Z.to_nat cap <= fuel)%nat ->
  testForGetSum_inner fuel i j {| bitObj := t; cout := o |}
  = Done (tt, {| bitObj := t;
                 cout := o ++ concat (map (getsum_line e i)
                                          (indices_between (j - 1) cap)) |}).
Proof.
  induction fuel as [|fuel IH]; intros i j o Hb Hi Hj Hfuel;
    destruct (built_well_formed _ _ _ Hb) as [(Hlen & Hmax & _) Hsz];
    cbn [testForGetSum_inner]; size1;
    (destruct (Z.ltb_spec j (_size t)) as [Hlt|Hge];
     [|rewrite indices_between_nil by lia; cbn [map concat];
       rewrite app_nil_r; reflexivity]).
  - lia.
  - out1. out1. out1. out1. out1.
    erewrite bind_Done
      by (apply bit1_call_Done; cbn [bitObj];
          apply (getSum_built cap e t i j (S fuel) Hb); lia).
    cbn [bitObj cout]. out1. out1.
    rewrite next_index by lia. rewrite IH by (auto; lia).
    rewrite (indices_between_cons (j - 1) cap) by lia.
    replace (j - 1 + 1) with j by lia.
    cbn [map concat]. unfold getsum_line at 2.
    rewrite <- !app_assoc. replace (j + 1 - 1) with j by lia.
    reflexivity.
Qed.

Lemma testForGetSum_outer_spec cap e t fuel : forall i o,
  built cap e t -> 1 <= i <= cap + 1 ->
  (Z.to_nat (cap + 1 - i) + Z.to_nat cap <= fuel)%nat ->
  testForGetSum_outer fuel i {| bitObj := t; cout := o |}
  = Done (tt, {| bitObj := t;
                 cout := o ++ concat (map (fun i' =>
                            concat (map (getsum_line e i')
                                        (indices_between (i' - 1) cap)))
                          (indices_between (i - 1) cap)) |}).
Proof.
  induction fuel as [|fuel IH]; intros i o Hb Hi Hfuel;
    destruct (built_well_formed _ _ _ Hb) as [(Hlen & Hmax & _) Hsz];
    cbn [testForGetSum_outer]; size1;
    (destruct (Z.ltb_spec i (_size t)) as [Hlt|Hge];
     [|rewrite indices_between_nil by lia; cbn [map concat];
       rewrite app_nil_r; reflexivity]).
  - lia.
  - rewrite (indices_between_cons (i - 1) cap) by lia.
    replace (i - 1 + 1) with i by lia.
    rewrite map_cons, concat_cons. cbv beta.
    erewrite bind_Done
      by (apply (testForGetSum_inner_spec cap e t (S fuel) i i o Hb); lia).
    rewrite next_index by lia. rewrite IH by (auto; lia).
    replace (i + 1 - 1) with i by lia.
    rewrite <- app_assoc. reflexivity.
Qed.

Lemma printTree_spec cap e t fuel o :
  built cap e t -> (2 * Z.to_nat cap <= fuel)%nat ->
  printTree fuel {| bitObj := t; cout := o |}
  = Done (tt, {| bitObj := t;
                 cout := o
                   ++ ["********** ORIGINAL TREE *********"; newline]
                   ++ concat (map (original_line e) (indices_between 0 cap))
                   ++ ["********** FENWICK TREE **********"; newline]
                   ++ concat (map (fenwick_line e) (indices_between 0 cap))
                   ++ ["**********************************"; newline] |}).
Proof.
  intros Hb Hfuel.
  assert (Hcap : 0 <= cap) by (clear - Hb; induction Hb; assumption).
  unfold printTree. out1. out1.
  erewrite bind_Done
    by (apply (printTree_original_spec cap e t fuel 1 _ Hb); lia).
  out1. out1.
  erewrite bind_Done
    by (apply (printTree_fenwick_spec cap e t fuel 1 _ Hb); lia).
  out1. unfold cout_endl, cout_item. cbn [cout bitObj].
  replace (1 - 1) with 0 by lia.
  rewrite <- !app_assoc. reflexivity.
Qed.

(** X26. On a reachable tree of capacity [cap], with fuel [2 * cap],
    [printTree] returns, leaves the tree as it was and inserts: the first
    banner; for every index [1..cap] in ascending order a line with the
    index and the logical element there; the second banner; for every
    index [1..cap] a line with the index, the sum of the logical elements
    of the cell's span and the label of the span; the closing banner. *)
Theorem printTree_dumps_elements_and_cells (cap : Z) (e : Z -> Z)
    (t : BinaryIndexedTree) (fuel : nat) (o : list string) :
  built cap e t -> (2 * Z.to_nat cap <= fuel)%nat ->
  printTree fuel {| bitObj := t; cout := o |}
  = Done (tt, {| bitObj := t;
                 cout := o
                   ++ ["********** ORIGINAL TREE *********"; newline]
                   ++ concat (map (original_line e) (indices_between 0 cap))
                   ++ ["********** FENWICK TREE **********"; newline]
                   ++ concat (map (fenwick_line e) (indices_between 0 cap))
                   ++ ["**********************************"; newline] |}).
Proof. intros Hb Hfuel. exact (printTree_spec cap e t fuel o Hb Hfuel). Qed.

Lemma printTree_dumps_elements_and_cells_witness :
  printTree 10 {| bitObj := tree5; cout := [] |}
  = Done (tt, {| bitObj := tree5;
                 cout := []
                   ++ ["********** ORIGINAL TREE *********"; newline]
                   ++ concat (map (original_line elems5) (indices_between 0 5))
                   ++ ["********** FENWICK TREE **********"; newline]
                   ++ concat (map (fenwick_line elems5) (indices_between 0 5))
                   ++ ["**********************************"; newline] |}).
Proof.
  apply (printTree_dumps_elements_and_cells 5 elems5 tree5 10 [] tree5_built).
  simpl; lia.
Defined.

Lemma testForGetSum_spec cap e t fuel o :
  built cap e t -> (2 * Z.to_nat cap <= fuel)%nat ->
  testForGetSum fuel {| bitObj := t; cout := o |}
  = Done (tt, {| bitObj := t;
                 cout := o
                   ++ ["********** GETSUM - TEST *********"; newline]
                   ++ concat (map (fun i =>
                        concat (map (getsum_line e i)
                                    (indices_between (i - 1) cap)))
                        (indices_between 0 cap))
                   ++ ["**********************************"; newline] |}).
Proof.
  intros Hb Hfuel.
  assert (Hcap : 0 <= cap) by (clear - Hb; induction Hb; assumption).
  unfold testForGetSum. out1. out1.
  erewrite bind_Done
    by (apply (testForGetSum_outer_spec cap e t fuel 1 _ Hb); lia).
  out1. unfold cout_endl, cout_item. cbn [cout bitObj].
  replace (1 - 1) with 0 by lia.
  rewrite <- !app_assoc. reflexivity.
Qed.

(** X27. On a reachable tree of capacity [cap], with fuel [2 * cap],
    [testForGetSum] returns, leaves the tree as it was and inserts, between
    its two banners, one line for every pair [1 <= i <= j <= cap], ordered
    by [i] and then by [j], showing [i], [j] and the sum in [int]
    arithmetic of the logical elements [i..j]; no [getSum] call of the
    test faults or runs on. *)
Theorem testForGetSum_prints_every_range_sum (cap : Z) (e : Z -> Z)
    (t : BinaryIndexedTree) (fuel : nat) (o : list string) :
  built cap e t -> (2 * Z.to_nat cap <= fuel)%nat ->
  testForGetSum fuel {| bitObj := t; cout := o |}
  = Done (tt, {| bitObj := t;
                 cout := o
                   ++ ["********** GETSUM - TEST *********"; newline]
                   ++ concat (map (fun i =>
                        concat (map (getsum_line e i)
                                    (indices_between (i - 1) cap)))
                        (indices_between 0 cap))
                   ++ ["**********************************"; newline] |}).
Proof. intros Hb Hfuel. exact (testForGetSum_spec cap e t fuel o Hb Hfuel). Qed.

Lemma testForGetSum_prints_every_range_sum_witness :
  testForGetSum 10 {| bitObj := tree5; cout := [] |}
  = Done (tt, {| bitObj := tree5;
                 cout := []
                   ++ ["********** GETSUM - TEST *********"; newline]
                   ++ concat (map (fun i =>
                        concat (map (getsum_line elems5 i)
                                    (indices_between (i - 1) 5)))
                        (indices_between 0 5))
                   ++ ["**********************************"; newline] |}).
Proof.
  apply (testForGetSum_prints_every_range_sum 5 elems5 tree5 10 []
           tree5_built).
  simpl; lia.
Defined.

Lemma span_indices lo hi : forall a,
  List.filter (fun k => (lo <? k) && (k <=? hi)) (indices_between a hi)
  = indices_between (Z.max a lo) hi.
Proof.
  intros a. remember (Z.to_nat (hi - a)) as n eqn:Hn. revert a Hn.
  induction n as [|n IH]; intros a Hn.
  - rewrite (indices_between_nil a hi) by lia.
    rewrite (indices_between_nil (Z.max a lo) hi) by lia. reflexivity.
  - rewrite (indices_between_cons a hi) by lia. cbn [List.filter].
    destruct (Z.leb_spec (a + 1) hi) as [Hle|Hgt]; [|lia].
    rewrite IH by lia.
    destruct (Z.ltb_spec lo (a + 1)) as [Hlt|Hge]; cbn [andb].
    + replace (Z.max (a + 1) lo) with (a + 1) by lia.
      replace (Z.max a lo) with a by lia.
      rewrite (indices_between_cons a hi) by lia. reflexivity.
    + replace (Z.max (a + 1) lo) with (Z.max a lo) by lia. reflexivity.
Qed.

(** X28. The label [printTree] builds for cell [idx]: the loop from
    [getPrev(idx) + 1] returns ["//"] followed by [" + k"] for the indices
    [k] it lists, and those are exactly the indices of [1..idx] that lie
    in the span of cell [idx], in ascending order. *)
Theorem printTree_label_lists_span (idx : Z) (fuel : nat) (p : process) :
  1 <= idx < Int32.max_int -> (Z.to_nat idx <= fuel)%nat ->
  sumStr_loop fuel (Int32.add (getPrev idx) 1) idx "//" p
    = Done (span_text idx, p) /\
  indices_between (idx - Compact.lowbit idx) idx
    = List.filter (fun k => in_span k idx) (indices_between 0 idx).
Proof.
  intros Hidx Hfuel.
  assert (Hprev : getPrev idx = idx - Z.land idx (- idx))
    by (apply getPrev_eq; lia).
  assert (Hlb : 0 < Z.land idx (- idx) <= idx) by (apply lb_bounds; lia).
  split.
  - rewrite Hprev, next_index by lia.
    rewrite sumStr_loop_spec by lia. unfold span_text.
    rewrite lowbit_eq by lia.
    replace (idx - Z.land idx (- idx) + 1 - 1) with (idx - Z.land idx (- idx))
      by lia.
    reflexivity.
  - unfold in_span. rewrite span_indices, lowbit_eq by lia.
    f_equal. lia.
Qed.

Lemma printTree_label_lists_span_witness :
  sumStr_loop 4 (Int32.add (getPrev 4) 1) 4 "//"
      {| bitObj := tree5; cout := [] |}
    = Done (span_text 4, {| bitObj := tree5; cout := [] |}) /\
  indices_between (4 - Compact.lowbit 4) 4
    = List.filter (fun k => in_span k 4) (indices_between 0 4).
Proof.
  apply (printTree_label_lists_span 4 4 {| bitObj := tree5; cout := [] |});
    [unfold Int32.max_int; lia | simpl; lia].
Defined.

(** X29. [main] of BIT_1.cpp, given fuel 10 or more, returns 0; the object it
    leaves is the tree over the elements [1, 2, 3, 4, 5], and what it
    printed is the dump of that tree by [printTree] followed by the table
    of its fifteen range sums by [testForGetSum]. *)
Theorem bit1_main_output (fuel : nat) :
  (10 <= fuel)%nat ->
  main fuel initial
  = Done (0, {| bitObj := tree5;
                cout :=
                  ["********** ORIGINAL TREE *********"; newline]
                  ++ concat (map (original_line elems5) (indices_between 0 5))
                  ++ ["********** FENWICK TREE **********"; newline]
                  ++ concat (map (fenwick_line elems5) (indices_between 0 5))
                  ++ ["**********************************"; newline]
                  ++ ["********** GETSUM - TEST *********"; newline]
                  ++ concat (map (fun i =>
                       concat (map (getsum_line elems5 i)
                                   (indices_between (i - 1) 5)))
                       (indices_between 0 5))
                  ++ ["**********************************"; newline] |}).
Proof.
  intros Hfuel. unfold main, initial.
  assert (Hcreate : createFenwickTree fuel ARR new = Done (tt, tree5)).
  { do 6 (destruct fuel as [|fuel]; [lia|]). reflexivity. }
  erewrite bind_Done by (apply bit1_call_Done; exact Hcreate).
  cbn [bitObj cout].
  erewrite bind_Done
    by (apply (printTree_spec 5 elems5 tree5 fuel [] tree5_built);
        simpl; lia).
  erewrite bind_Done
    by (apply (testForGetSum_spec 5 elems5 tree5 fuel _ tree5_built);
        simpl; lia).
  unfold ret. rewrite <- !app_assoc. reflexivity.
Qed.

Lemma bit1_main_output_witness :
  main 10 initial
  = Done (0, {| bitObj := tree5;
                cout :=
                  ["********** ORIGINAL TREE *********"; newline]
                  ++ concat (map (original_line elems5) (indices_between 0 5))
                  ++ ["********** FENWICK TREE **********"; newline]
                  ++ concat (map (fenwick_line elems5) (indices_between 0 5))
                  ++ ["**********************************"; newline]
                  ++ ["********** GETSUM - TEST *********"; newline]
                  ++ concat (map (fun i =>
                       concat (map (getsum_line elems5 i)
                                   (indices_between (i - 1) 5)))
                       (indices_between 0 5))
                  ++ ["**********************************"; newline] |}).
Proof. apply (bit1_main_output 10). lia. Defined.

End BIT1_main_facts.
